(** * multinode-provider: the fan-out provider and the block reader

    A shallow embedding of [src/modules/multinode-provider.ts]
    (class [MultinodeJsonRpcProvider]) and [src/modules/block-reader.ts]
    (class [BlockReader]), and the properties of the design document that
    are about them.

    Conventions.
    - A JavaScript [number] that holds a block height, a timeout or a counter
      is a [Z]; the code only ever adds, subtracts and compares them.
    - A promise is modelled by the way it settles ([Settle]) and by the
      moment it does ([latency], in milliseconds after the call).
    - A function that can throw returns a [Completion].
    - Mutable fields of [this] are fields of a record that the function
      returns updated.
    - What the block reader does (file writes, events, changes of the cursor
      and of the pending buffer, calls and sleeps) is logged in program
      order, each action with the value of the cursor at that moment.
    - [emit] calls the listeners at once.  A listener of [new_block] or of
      [new_transaction] returns or throws, and what it throws leaves
      [emit]; it does not call the reader, and within one run of the loop
      what it does depends on the event alone.  The listeners of [error]
      return (without one, eventemitter3 returns [false]).
    - The checkpoint file is read as UTF-8: its content is the string of
      its bytes.
    - Console output is left out. *)

From stdpp Require Import base option list sorting gmap strings pretty.
From Stdlib Require Import ZArith Lia ZifyNat Ascii.
From Equations Require Import Equations.
From Equations.Prop Require Import Logic.

Local Open Scope Z_scope.
Set Warnings "-register-all".
Set Default Proof Using "Type".

(** ** JavaScript values and completions *)

Module Js.

(** How a call ends: with a value, or with a thrown [Error] (its message). *)
Inductive Completion (A : Type) : Type :=
| Return (a : A)
| Throw (msg : string).
Arguments Return {A} a.
Arguments Throw {A} msg.

(** How a promise settles. *)
Inductive Settle (T : Type) : Type :=
| Fulfil (v : T)
| Reject (msg : string).
Arguments Fulfil {T} v.
Arguments Reject {T} msg.

(** A pending call: when it settles and how. *)
Record Call (T : Type) : Type := mkCall {
  latency : Z;
  settle : Settle T
}.
Arguments mkCall {T} latency settle.
Arguments latency {T} c.
Arguments settle {T} c.

(** The values that travel through the generic parts of the code.  An
    array is [VArray]; a [number] that is not an integer is out of reach
    of the code under study, except [NaN]. *)
Inductive Value : Type :=
| VNull
| VUndefined
| VBool (b : bool)
| VNumber (n : Z)
| VNaN
| VBigInt (n : Z)
| VString (s : string)
| VArray (items : list Value)
| VObject (fields : list (string * Value)).

(** [r !== null] *)
Definition not_null_value (r : Value) : bool :=
  match r with VNull => false | _ => true end.

(** [ToBoolean]: what [!v], [!!v] and [a && b] test. *)
Definition truthy (v : Value) : bool :=
  match v with
  | VNull | VUndefined | VNaN => false
  | VBool b => b
  | VNumber n | VBigInt n => negb (n =? 0)
  | VString s => negb (String.eqb s EmptyString)
  | VArray _ | VObject _ => true
  end.

Fixpoint assoc (k : string) (fields : list (string * Value)) : option Value :=
  match fields with
  | [] => None
  | (k', v) :: rest => if String.eqb k k' then Some v else assoc k rest
  end.

(** [v.k] on a value that is neither [null] nor [undefined]. *)
Definition prop (v : Value) (k : string) : Value :=
  match v with
  | VObject fields => default VUndefined (assoc k fields)
  | _ => VUndefined
  end.

(** [k in v]: a [TypeError] unless [v] is an object. *)
Definition has_prop (k : string) (v : Value) : Completion bool :=
  match v with
  | VObject fields => Return (bool_decide (is_Some (assoc k fields)))
  | VArray _ => Return false
  | _ => Throw "Cannot use 'in' operator"
  end.

(** [array.find(p)]: the first element that satisfies [p], else
    [undefined]. *)
Definition array_find (p : Value → bool) (array : list Value) : Value :=
  default VUndefined (List.find p array).

(** [array.reduce(f)] without an initial value. *)
Definition array_reduce {A} (f : A → A → A) (array : list A) : Completion A :=
  match array with
  | [] => Throw "Reduce of empty array with no initial value"
  | a :: rest => Return (foldl f a rest)
  end.

(** [numbers.slice().sort((a, b) => a - b)]: ascending order. *)
Definition sort_ascending (numbers : list Z) : list Z :=
  merge_sort Z.le numbers.

End Js.

Export Js.

(** ** MultinodeJsonRpcProvider *)

Module Provider.

(** [interface ProviderEntry]: the node's url and its own provider object,
    identified by its position in the configured list. *)
Record ProviderEntry : Type := mkProviderEntry {
  url : string;
  provider : nat
}.

(** [interface MultinodeJsonRpcProviderOptions]; an absent option, or one
    that is not a finite number, is [None]. *)
Record Options : Type := mkOptions {
  headTimeoutMs : option Z;
  blockTimeoutMs : option Z;
  consensusWindow : option Z;
  multicallAddress : option string
}.

Definition noOptions : Options := mkOptions None None None None.

(** The fields of the class. *)
Record t : Type := mkProvider {
  _providers : list ProviderEntry;
  _lastHead : Z;
  _headTimeoutMs : Z;
  _blockTimeoutMs : Z;
  _consensusWindow : Z;
  _multicallAddress : string
}.

Definition set_lastHead (this : t) (h : Z) : t :=
  mkProvider (_providers this) h (_headTimeoutMs this)
             (_blockTimeoutMs this) (_consensusWindow this)
             (_multicallAddress this).

(** [constructor(rpcUrls, options)] *)
Definition constructor (rpcUrls : list string) (options : Options)
  : Completion t :=
  if decide (length rpcUrls = 0%nat) then
    Throw "rpcUrls must be a non-empty array"
  else
    Return {|
      _providers := imap (λ i u, mkProviderEntry u i) rpcUrls;
      _lastHead := 0;
      _headTimeoutMs := default 500 (headTimeoutMs options);
      _blockTimeoutMs := default 3000 (blockTimeoutMs options);
      _consensusWindow := default 5 (consensusWindow options);
      _multicallAddress :=
        default "0xcA11bde05977b3631167028862bE2a173976CA11"
                (multicallAddress options)
    |}.

(** [_withTimeout(promise, ms)]: the race of the call against a timer of
    [ms] milliseconds.  The timer wins a tie. *)
Definition _withTimeout {T} (promise : Call T) (ms : Z) : Settle T :=
  if latency promise <? ms then settle promise
  else Reject "RPC call timeout".

(** [_pickConsensusHead(numbers)]; [None] is [null].  The indexed reads
    are in range whenever [numbers] is not empty (see
    [median_index_in_range] and [pool_of_spec]). *)
Definition median_of (sorted : list Z) : Z :=
  let mid := (length sorted / 2)%nat in
  if decide ((length sorted mod 2)%nat = 1%nat)
  then sorted !!! mid
  else sorted !!! (mid - 1)%nat.

Definition in_window (median window n : Z) : bool :=
  (median - window <=? n) && (n <=? median + window).

Definition pool_of (window : Z) (numbers : list Z) : list Z :=
  let sorted := sort_ascending numbers in
  let median := median_of sorted in
  let inWindow := filter (λ n, in_window median window n = true) sorted in
  if decide (length inWindow = 0%nat) then sorted else inWindow.

Definition _pickConsensusHead (this : t) (numbers : list Z) : option Z :=
  if decide (length numbers = 0%nat) then None
  else
    let pool := pool_of (_consensusWindow this) numbers in
    let best := pool !!! (length pool - 1)%nat in
    let best := if best <? _lastHead this then _lastHead this else best in
    Some best.

(** The heights of one [getBlockNumber] round: [nums], with [None] for an
    endpoint whose call failed or timed out. *)
Definition head_results (this : t) (rpc : nat → Call Z) : list (option Z) :=
  (λ e, match _withTimeout (rpc (provider e)) (_headTimeoutMs this) with
        | Fulfil n => Some n
        | Reject _ => None
        end) <$> _providers this.

(** [nums.filter(n => n !== null)] *)
Definition not_null {A} (nums : list (option A)) : list A :=
  omap id nums.

(** [getBlockNumber()] *)
Definition getBlockNumber (this : t) (rpc : nat → Call Z)
  : Completion Z * t :=
  let nums := head_results this rpc in
  match _pickConsensusHead this (not_null nums) with
  | None => (Throw "All RPC nodes failed for getBlockNumber()", this)
  | Some consensus =>
      let this' :=
        if _lastHead this <? consensus then set_lastHead this consensus
        else this in
      (Return (_lastHead this'), this')
  end.

(** One element of [results] in [_executeParallel]: the endpoint's value
    when its call fulfils in time and passes [validate], [null] when the
    [catch] clause ran. *)
Definition settled (this : t) (task : nat → Call Value)
    (validate : option (Value → Completion bool)) (e : ProviderEntry)
  : Value :=
  match _withTimeout (task (provider e)) (_blockTimeoutMs this) with
  | Fulfil result =>
      match validate with
      | None => result
      | Some validate =>
          match validate result with
          | Return true => result
          | Return false => VNull   (* Error("Validation failed") *)
          | Throw _ => VNull
          end
      end
  | Reject _ => VNull
  end.

(** [_executeParallel(task, validate)] *)
Definition _executeParallel (this : t) (task : nat → Call Value)
    (validate : option (Value → Completion bool)) : Completion Value :=
  let results := settled this task validate <$> _providers this in
  let ok := array_find not_null_value results in
  if negb (truthy ok) then Throw "All RPC nodes failed"
  else Return ok.

(** The validators of the facade. *)
Definition has_hash (b : Value) : Completion bool :=       (* !!(b && b.hash) *)
  Return (if truthy b then truthy (prop b "hash") else false).

Definition has_status (r : Value) : Completion bool :=     (* !!(r && "status" in r) *)
  if truthy r then has_prop "status" r else Return false.

(** The queries of the facade; [task] is what the endpoints answer. *)
Definition getBlock (this : t) (task : nat → Call Value) :=
  _executeParallel this task (Some has_hash).
Definition call (this : t) (task : nat → Call Value) :=
  _executeParallel this task None.
Definition multicall (this : t) (task : nat → Call Value) :=
  _executeParallel this task None.
Definition getTransaction (this : t) (task : nat → Call Value) :=
  _executeParallel this task (Some has_hash).
Definition getTransactionReceipt (this : t) (task : nat → Call Value) :=
  _executeParallel this task (Some has_status).
Definition waitForTransaction (this : t) (task : nat → Call Value) :=
  _executeParallel this task (Some has_status).
Definition getBalance (this : t) (task : nat → Call Value) :=
  _executeParallel this task None.
Definition getFeeData (this : t) (task : nat → Call Value) :=
  _executeParallel this task None.
Definition send (this : t) (task : nat → Call Value) :=
  _executeParallel this task None.

(** [getLogs(filter)]; [Log] is the type of one log. *)
Definition log_results {Log} (this : t) (task : nat → Call (list Log))
  : list (list Log) :=
  (λ e, match _withTimeout (task (provider e)) (_blockTimeoutMs this * 3) with
        | Fulfil logs => logs
        | Reject _ => []
        end) <$> _providers this.

Definition longer {Log} (a b : list Log) : list Log :=     (* b.length > a.length ? b : a *)
  if (length a <? length b)%nat then b else a.

Definition getLogs {Log} (this : t) (task : nat → Call (list Log))
  : Completion (list Log) :=
  array_reduce longer (log_results this task).

(** [getLastHead()] *)
Definition getLastHead (this : t) : Z := _lastHead this.

End Provider.

(** ** BlockReader *)

Module Reader.

(** *** The checkpoint file as text *)

(** [blockNumber.toString()] *)
Definition toString (blockNumber : Z) : string := pretty blockNumber.

Definition digit_value (c : ascii) : option Z :=
  let n := Z.of_N (Ascii.N_of_ascii c) in
  if (48 <=? n) && (n <=? 57) then Some (n - 48) else None.

(** What [parseInt] skips at the start of its argument: JavaScript's
    WhiteSpace and LineTerminator code points.  In ASCII these are the
    space and U+0009 to U+000D. *)
Definition is_space (c : ascii) : bool :=
  let n := Z.of_N (Ascii.N_of_ascii c) in
  (n =? 32) || ((9 <=? n) && (n <=? 13)).

Definition byte (c : ascii) : Z := Z.of_N (Ascii.N_of_ascii c).

(** Beyond ASCII, in UTF-8: U+00A0 is [C2 A0]; three bytes make U+1680,
    U+2000 to U+200A, U+2028, U+2029, U+202F, U+205F, U+3000 and
    U+FEFF. *)
Definition wide_space (b1 b2 b3 : Z) : bool :=
  ((b1 =? 225) && (b2 =? 154) && (b3 =? 128))
  || ((b1 =? 226) && (b2 =? 128)
      && (((128 <=? b3) && (b3 <=? 138)) || (b3 =? 168) || (b3 =? 169)
          || (b3 =? 175)))
  || ((b1 =? 226) && (b2 =? 129) && (b3 =? 159))
  || ((b1 =? 227) && (b2 =? 128) && (b3 =? 128))
  || ((b1 =? 239) && (b2 =? 187) && (b3 =? 191)).

(** The string after its first code point, when that is white space. *)
Definition white_space (s : string) : option string :=
  match s with
  | EmptyString => None
  | String c1 s1 =>
      if is_space c1 then Some s1
      else if byte c1 <? 128 then None
      else
        match s1 with
        | EmptyString => None
        | String c2 s2 =>
            if (byte c1 =? 194) && (byte c2 =? 160) then Some s2
            else
              match s2 with
              | EmptyString => None
              | String c3 s3 =>
                  if wide_space (byte c1) (byte c2) (byte c3) then Some s3
                  else None
              end
        end
  end.

Equations? trimStart (s : string) : string by wf (String.length s) lt :=
  trimStart s with inspect (white_space s) := {
    | exist _ (Some rest) _ := trimStart rest;
    | exist _ None _ := s }.
Proof.
  match goal with H : white_space s = Some rest |- _ => rename H into Hws end.
  destruct s as [|c1 s1]; [discriminate Hws|]. simpl in Hws.
  destruct (is_space c1); [injection Hws as <-; simpl; lia|].
  destruct (byte c1 <? 128); [discriminate Hws|].
  destruct s1 as [|c2 s2]; [discriminate Hws|].
  destruct ((byte c1 =? 194) && (byte c2 =? 160));
    [injection Hws as <-; simpl; lia|].
  destruct s2 as [|c3 s3]; [discriminate Hws|].
  destruct (wide_space (byte c1) (byte c2) (byte c3)); [|discriminate Hws].
  injection Hws as <-. simpl. lia.
Qed.

(** The value of the longest prefix of decimal digits. *)
Fixpoint digits_value (s : string) (acc : Z) : Z :=
  match s with
  | String c s' =>
      match digit_value c with
      | Some d => digits_value s' (10 * acc + d)
      | None => acc
      end
  | EmptyString => acc
  end.

Definition parse_unsigned (s : string) : option Z :=
  match s with
  | String c _ =>
      match digit_value c with
      | Some _ => Some (digits_value s 0)
      | None => None
      end
  | EmptyString => None
  end.

(** [parseInt(data, 10)]; [None] is [NaN]. *)
Definition parseInt (data : string) : option Z :=
  match trimStart data with
  | String "-"%char s => Z.opp <$> parse_unsigned s
  | String "+"%char s => parse_unsigned s
  | s => parse_unsigned s
  end.

(** *** Blocks and transactions *)

(** A transaction as a node returns it ([tx: any]); a missing field is
    [None].  The gas, data and chain id fields are filled in the same
    way and are left out. *)
Record RawTx : Type := mkRawTx {
  raw_hash : option string;
  raw_blockNumber : option Z;
  raw_to : option string;
  raw_from : option string;
  raw_nonce : option Z;
  raw_value : option Z
}.

(** [block.transactions]: hashes, or full transactions. *)
Inductive Transactions : Type :=
| Hashes (hashes : list string)
| Responses (txs : list RawTx).

(** ethers' [Block] *)
Record Block : Type := mkBlock {
  number : Z;
  hash : option string;
  timestamp : Z;
  transactions : Transactions
}.

(** [interface BlockTransactionData] *)
Record BlockTransactionData : Type := mkTx {
  tx_hash : string;
  tx_blockNumber : option Z;
  tx_to : option string;
  tx_from : string;
  tx_nonce : Z;
  tx_value : Z
}.

(** [interface BlockData] *)
Record BlockData : Type := mkBlockData {
  bd_source : string;
  bd_number : Z;
  bd_hash : option string;
  bd_timestamp : Z;
  bd_transactions : list BlockTransactionData
}.

(** [interface TransactionData] *)
Record TransactionData : Type := mkTransactionData {
  td_tx : BlockTransactionData;
  td_source : string
}.

(** [x || d] on a string and on a number *)
Definition or_string (x : option string) (d : string) : string :=
  match x with
  | Some s => if String.eqb s EmptyString then d else s
  | None => d
  end.

Definition or_number (x : option Z) (d : Z) : Z :=
  match x with
  | Some n => if n =? 0 then d else n
  | None => d
  end.

(** [normalizeTransaction(tx)] *)
Definition normalizeTransaction (tx : RawTx) : BlockTransactionData := {|
  tx_hash := or_string (raw_hash tx) EmptyString;
  tx_blockNumber :=
    match raw_blockNumber tx with
    | Some n => if n =? 0 then None else Some n
    | None => None
    end;
  tx_to :=
    match raw_to tx with
    | Some s => if String.eqb s EmptyString then None else Some s
    | None => None
    end;
  tx_from := or_string (raw_from tx) EmptyString;
  tx_nonce := or_number (raw_nonce tx) 0;
  tx_value := or_number (raw_value tx) 0
|}.

(** *** What the reader does, in program order *)

Inductive Action : Type :=
| WriteFile (data : string)              (* fs.writeFile(LAST_BLOCK_FILE, data) *)
| Emit_new_block (block : BlockData)     (* this.emit('new_block', ...) *)
| Emit_new_transaction (tx : TransactionData)
| Emit_error (msg : string)
| SetCursor (n : Z)                      (* this.expectedBlockNumber = n *)
| BufferSet (k : Z) (after : gmap Z Block)     (* fetchedBlocks.set(k, block) *)
| BufferDelete (k : Z) (after : gmap Z Block)  (* fetchedBlocks.delete(k) *)
| Call_getBlock (n : Z)                  (* this.provider.getBlock(n, true) *)
| Sleep (ms : Z).

(** An action, with the value of [this.expectedBlockNumber] at the moment
    it starts. *)
Record Entry : Type := mkEntry {
  at_cursor : Z;
  action : Action
}.

(** The reader's fields, the checkpoint file ([None]: it cannot be read)
    and the log of what has been done so far. *)
Record State : Type := mkState {
  expectedBlockNumber : Z;
  processedBlocks : list Z;
  processedTransactions : list string;
  block_txt : option string;
  trace : list Entry
}.

Definition maxAttempts : Z := 3.
Definition rereadBlocks : Z := 10.
Definition maxParallelBlocks : Z := 5.

(** A fresh reader, over a given checkpoint file. *)
Definition init (file : option string) : State :=
  mkState 0 [] [] file [].

(** The world outside: what [provider.getBlock(n, true)] answers to the
    k-th call for block [n] of one run, what [provider.getTransaction]
    answers, the data that the disk refuses to write, and what the
    listeners of [new_block] and of [new_transaction] do with what they
    are given: return, or throw. *)
Record World : Type := mkWorld {
  getBlock : Z → nat → Completion (option Block);
  getTransaction : string → Completion (option RawTx);
  write_fails : string → bool;
  new_block_listener : BlockData → Completion unit;
  new_transaction_listener : TransactionData → Completion unit
}.

Definition log (a : Action) (s : State) : State :=
  mkState (expectedBlockNumber s) (processedBlocks s)
    (processedTransactions s) (block_txt s)
    (trace s ++ [mkEntry (expectedBlockNumber s) a]).

Definition log_all (acts : list Action) (s : State) : State :=
  foldl (λ s a, log a s) s acts.

Definition set_cursor (n : Z) (s : State) : State :=
  let s := log (SetCursor n) s in
  mkState n (processedBlocks s) (processedTransactions s) (block_txt s)
    (trace s).

Definition set_file (data : string) (s : State) : State :=
  mkState (expectedBlockNumber s) (processedBlocks s)
    (processedTransactions s) (Some data) (trace s).

Definition set_processedBlocks (l : list Z) (s : State) : State :=
  mkState (expectedBlockNumber s) l (processedTransactions s) (block_txt s)
    (trace s).

Definition set_processedTransactions (l : list string) (s : State) : State :=
  mkState (expectedBlockNumber s) (processedBlocks s) l (block_txt s)
    (trace s).

(** [saveLastProcessedBlock(blockNumber)] *)
Definition saveLastProcessedBlock (w : World) (blockNumber : Z) (s : State)
  : Completion unit * State :=
  let data := toString blockNumber in
  if write_fails w data then (Throw "writeFile failed", s)
  else (Return tt, log (WriteFile data) (set_file data s)).

(** [processTransaction(transaction)]: the hash is pushed, then the event
    is emitted, then the list is trimmed; a listener that throws ends the
    call between the two. *)
Definition processTransaction (w : World) (transaction : TransactionData)
    (s : State) : Completion unit * State :=
  let h := tx_hash (td_tx transaction) in
  if bool_decide (h ∈ processedTransactions s) then (Return tt, s)
  else
    let s := set_processedTransactions (processedTransactions s ++ [h]) s in
    let s := log (Emit_new_transaction transaction) s in
    match new_transaction_listener w transaction with
    | Throw msg => (Throw msg, s)
    | Return _ =>
        (Return tt,
         if (2000 <? length (processedTransactions s))%nat
         then set_processedTransactions (drop 1 (processedTransactions s)) s
         else s)
    end.

(** The transactions of a block, fetched one by one when the block only
    has their hashes; a transaction that cannot be fetched is dropped. *)
Definition full_transactions (w : World) (block : Block) : list RawTx :=
  match transactions block with
  | Hashes hashes =>
      omap (λ h, match getTransaction w h with
                 | Return (Some tx) => Some tx
                 | Return None | Throw _ => None
                 end) hashes
  | Responses txs => txs
  end.

(** The [for] loops of [processBlock]: the transactions are normalized
    and processed one after the other; the loop ends where
    [processTransaction] throws. *)
Fixpoint processTransactions (w : World) (txs : list BlockTransactionData)
    (s : State) : Completion unit * State :=
  match txs with
  | [] => (Return tt, s)
  | tx :: txs =>
      let r := processTransaction w (mkTransactionData tx "block") s in
      match r.1 with
      | Throw msg => (Throw msg, r.2)
      | Return _ => processTransactions w txs r.2
      end
  end.

(** [processBlock(block)] *)
Definition processBlock (w : World) (block : Block) (s : State)
  : Completion BlockData * State :=
  let txs := normalizeTransaction <$> full_transactions w block in
  let r := processTransactions w txs s in
  match r.1 with
  | Throw msg => (Throw msg, r.2)
  | Return _ =>
      let s := r.2 in
      let blockData := {|
        bd_source := "READER";
        bd_number := number block;
        bd_hash := hash block;
        bd_timestamp := timestamp block;
        bd_transactions := txs
      |} in
      let s :=
        if bool_decide (bd_number blockData ∈ processedBlocks s) then s
        else
          let s :=
            set_processedBlocks (processedBlocks s ++ [bd_number blockData]) s in
          if (100 <? length (processedBlocks s))%nat
          then set_processedBlocks (drop 1 (processedBlocks s)) s
          else s in
      (Return blockData, s)
  end.

(** [block && block.hash] *)
Definition usable (r : option Block) : bool :=
  match r with
  | Some block =>
      match hash block with
      | Some h => negb (String.eqb h EmptyString)
      | None => false
      end
  | None => false
  end.

Definition after {A} (acts : list Action) (r : A * list Action)
  : A * list Action :=
  (r.1, acts ++ r.2).

(** The [while] loop of [tryGetBlock]; [calls] counts the calls of
    [getBlock] made so far.  The result comes with the calls and the
    sleeps of the loop, in order. *)
Equations? tryGetBlock_loop (getBlock : nat → Completion (option Block))
    (blockNumber maxAttempts attempts : Z) (calls : nat)
  : option Block * list Action
  by wf (Z.to_nat (maxAttempts - attempts)) lt :=
  tryGetBlock_loop getBlock blockNumber maxAttempts attempts calls with
    decide (attempts < maxAttempts) := {
    | right _ := (None, []);
    | left _ with getBlock calls := {
        | Return r with usable r := {
            | true := (r, [Call_getBlock blockNumber]);
            | false :=
                (* no hash: attempts++ after the try statement *)
                after [Call_getBlock blockNumber]
                  (tryGetBlock_loop getBlock blockNumber maxAttempts
                     (attempts + 1) (S calls)) };
        | Throw _ :=
            (* attempts++ in the catch clause, then attempts++ after it *)
            after (Call_getBlock blockNumber ::
                   if decide (attempts + 1 < maxAttempts)
                   then [Sleep 1000] else [])
              (tryGetBlock_loop getBlock blockNumber maxAttempts
                 (attempts + 1 + 1) (S calls)) } }.
Proof. all: lia. Qed.

(** [tryGetBlock(blockNumber, maxAttempts)] *)
Definition tryGetBlock (getBlock : nat → Completion (option Block))
    (blockNumber maxAttempts : Z) : option Block * list Action :=
  tryGetBlock_loop getBlock blockNumber maxAttempts 0 0.

(** One batch: the [for] loop of [readBlocksLoop], with [remaining] for
    [maxParallelBlocks - i], and the [then] handlers of its promises.  The
    fetches of a batch are logged one after the other, in block order. *)
Fixpoint fetch_batch (w : World) (remaining : nat) (head nextBlock : Z)
    (fetchedBlocks : gmap Z Block) (s : State)
  : Z * gmap Z Block * State :=
  match remaining with
  | O => (nextBlock, fetchedBlocks, s)
  | S remaining =>
      if decide (nextBlock <= head) then
        let blockNumber := nextBlock in
        let r := tryGetBlock (getBlock w blockNumber) blockNumber maxAttempts in
        let s := log_all r.2 s in
        match r.1 with
        | Some block =>
            let fetchedBlocks := <[blockNumber := block]> fetchedBlocks in
            fetch_batch w remaining head (nextBlock + 1) fetchedBlocks
              (log (BufferSet blockNumber fetchedBlocks) s)
        | None =>
            fetch_batch w remaining head (nextBlock + 1) fetchedBlocks s
        end
      else (nextBlock, fetchedBlocks, s)
  end.

(** "Process blocks in order": the inner [while] loop.  It ends where
    [processBlock], the write of the checkpoint or a listener of
    [new_block] throws; the cursor moves only after the listeners have
    returned. *)
Equations? drain (w : World) (fetchedBlocks : gmap Z Block) (s : State)
  : Completion unit * gmap Z Block * State
  by wf (size fetchedBlocks) lt :=
  drain w fetchedBlocks s with
    inspect (fetchedBlocks !! expectedBlockNumber s) := {
    | exist _ None _ := (Return tt, fetchedBlocks, s);
    | exist _ (Some block) _ :=
        let rest := delete (expectedBlockNumber s) fetchedBlocks in
        let s := log (BufferDelete (expectedBlockNumber s) rest) s in
        let p := processBlock w block s in
        match p.1 with
        | Throw msg => (Throw msg, rest, p.2)
        | Return blockData =>
            let saved :=
              saveLastProcessedBlock w (expectedBlockNumber p.2) p.2 in
            match saved.1 with
            | Throw msg => (Throw msg, rest, saved.2)
            | Return _ =>
                let s := log (Emit_new_block blockData) saved.2 in
                match new_block_listener w blockData with
                | Throw msg => (Throw msg, rest, s)
                | Return _ =>
                    drain w rest (set_cursor (expectedBlockNumber s + 1) s)
                end
            end
        end }.
Proof.
  subst rest. rewrite map_size_delete.
  match goal with H : _ !! _ = Some _ |- _ => rewrite H; rename H into Hin end.
  simpl. assert (size fetchedBlocks ≠ 0%nat); [|lia].
  intros Hz. apply map_size_empty_inv in Hz. subst.
  by rewrite lookup_empty in Hin.
Qed.

Arguments fetch_batch : simpl never.

(** The outer [while (nextBlock <= head)] loop: a batch, then the drain;
    [top] is [head]. *)
Equations? batches (w : World) (top nextBlock : Z)
    (fetchedBlocks : gmap Z Block) (s : State)
  : Completion unit * State
  by wf (Z.to_nat (top + 1 - nextBlock)) lt :=
  batches w top nextBlock fetchedBlocks s with
    decide (nextBlock <= top) := {
    | right _ := (Return tt, s);
    | left _ with
        inspect (fetch_batch w (Z.to_nat maxParallelBlocks) top
                   nextBlock fetchedBlocks s) := {
        | exist _ (nextBlock', fetched, s1) _ with drain w fetched s1 := {
            | (Throw msg, _, s2) := (Throw msg, s2);
            | (Return _, rest, s2) := batches w top nextBlock' rest s2 } } }.
Proof.
  assert (∀ n nb fb st, nb <= (fetch_batch w n top nb fb st).1.1) as mono.
  { induction n as [|n IH]; intros nb fb st; [unfold fetch_batch; simpl; lia|].
    change (fetch_batch w (S n) top nb fb st) with
      (if decide (nb <= top) then
         let r := tryGetBlock (getBlock w nb) nb maxAttempts in
         match r.1 with
         | Some block =>
             fetch_batch w n top (nb + 1) (<[nb := block]> fb)
               (log (BufferSet nb (<[nb := block]> fb)) (log_all r.2 st))
         | None => fetch_batch w n top (nb + 1) fb (log_all r.2 st)
         end
       else (nb, fb, st)).
    destruct (decide (nb <= top)); [|simpl; lia]. cbv zeta.
    destruct (tryGetBlock (getBlock w nb) nb maxAttempts).1;
      (etrans; [|apply IH]); lia. }
  match goal with H : _ = (nextBlock', fetched, s1) |- _ => rename H into Hb end.
  pose proof (mono 4%nat (nextBlock + 1)) as Hm.
  change (Z.to_nat maxParallelBlocks) with 5%nat in Hb.
  change (fetch_batch w 5 top nextBlock fetchedBlocks s) with
    (if decide (nextBlock <= top) then
       let r := tryGetBlock (getBlock w nextBlock) nextBlock maxAttempts in
       match r.1 with
       | Some block =>
           fetch_batch w 4 top (nextBlock + 1) (<[nextBlock := block]> fetchedBlocks)
             (log (BufferSet nextBlock (<[nextBlock := block]> fetchedBlocks))
                (log_all r.2 s))
       | None => fetch_batch w 4 top (nextBlock + 1) fetchedBlocks (log_all r.2 s)
       end
     else (nextBlock, fetchedBlocks, s)) in Hb.
  destruct (decide (nextBlock <= top)); [|lia]. cbv zeta in Hb.
  assert (nextBlock + 1 <= nextBlock'); [|lia].
  change nextBlock' with (nextBlock', fetched, s1).1.1.
  rewrite <- Hb.
  destruct (tryGetBlock (getBlock w nextBlock) nextBlock maxAttempts).1;
    apply Hm.
Qed.

(** [readBlocksLoop()], one run.  [head] is what
    [this.provider.getBlockNumber()] answers.  The run ends by scheduling
    the next one (see [runs]). *)
Definition readBlocksLoop (w : World) (head : Completion Z) (s : State)
  : State :=
  match head with
  | Throw msg => log (Emit_error msg) s
  | Return head =>
      let head :=
        if head <? expectedBlockNumber s then expectedBlockNumber s
        else head in
      let nextBlock := expectedBlockNumber s in
      let r := batches w head nextBlock ∅ s in
      match r.1 with
      | Return _ => r.2
      | Throw msg => log (Emit_error msg) r.2
      end
  end.

(** [setTimeout(() => this.readBlocksLoop(), 1000)]: the runs follow one
    another, each in its own world and with its own answer for the
    height. *)
Definition runs (worlds : list (World * Completion Z)) (s : State) : State :=
  foldl (λ s wh, readBlocksLoop wh.1 wh.2 s) s worlds.

(** [loadLastProcessedBlock()]; [currentBlock] is what
    [this.provider.getBlockNumber()] answers. *)
Definition loadLastProcessedBlock (w : World) (currentBlock : Completion Z)
    (s : State) : Z * State :=
  match block_txt s with
  | Some data =>
      let lastProcessedBlock := default 0 (parseInt data) in
      match currentBlock with
      | Return currentBlock =>
          if (rereadBlocks <? currentBlock - lastProcessedBlock)
             || (lastProcessedBlock =? 0)
          then
            let newStartBlock := currentBlock - rereadBlocks in
            let saved := saveLastProcessedBlock w newStartBlock s in
            match saved.1 with
            | Return _ => (newStartBlock, saved.2)
            | Throw msg => (lastProcessedBlock, log (Emit_error msg) saved.2)
            end
          else (lastProcessedBlock, s)
      | Throw msg => (lastProcessedBlock, log (Emit_error msg) s)
      end
  | None =>
      match currentBlock with
      | Return currentBlock =>
          let saved := saveLastProcessedBlock w currentBlock s in
          match saved.1 with
          | Return _ => (currentBlock, saved.2)
          | Throw msg => (0, log (Emit_error msg) saved.2)
          end
      | Throw msg => (0, log (Emit_error msg) s)
      end
  end.

(** The first statement of [start()]: where the reader resumes. *)
Definition resume (w : World) (currentBlock : Completion Z) (s : State)
  : State :=
  let r := loadLastProcessedBlock w currentBlock s in
  set_cursor (r.1 + 1) r.2.

(** [start()]: [currentBlock] answers the height query of
    [loadLastProcessedBlock], [head] the one of the first run. *)
Definition start (w : World) (currentBlock head : Completion Z) (s : State)
  : State :=
  readBlocksLoop w head (resume w currentBlock s).

(** [getCurrentBlockNumber()] *)
Definition getCurrentBlockNumber (s : State) : Z := expectedBlockNumber s.

(** [resetToBlock(blockNumber)] *)
Definition resetToBlock (w : World) (blockNumber : Z) (s : State)
  : Completion unit * State :=
  saveLastProcessedBlock w blockNumber (set_cursor blockNumber s).

End Reader.

(** ** The design document's consensus rule, in its own words *)

Module Spec.

(** The maximum of a list of heights ([0] for no height at all). *)
Definition greatest (heights : list Z) : Z :=
  match heights with
  | [] => 0
  | h :: rest => foldr Z.max h rest
  end.

(** "sort ascending; compute the median (for an even count, take the
    lower of the two central values)" *)
Definition median (observations : list Z) : Z :=
  let sorted := sort_ascending observations in
  let n := length sorted in
  if Nat.odd n then sorted !!! (n / 2)%nat
  else Z.min (sorted !!! (n / 2 - 1)%nat) (sorted !!! (n / 2)%nat).

(** "keep all observations within a configurable window around the
    median" *)
Definition kept (window : Z) (observations : list Z) : list Z :=
  filter (λ n, median observations - window <= n
               ∧ n <= median observations + window) observations.

(** "from that kept subset, select the maximum value"; "if the window
    excludes everything, fall back to the full sorted set" *)
Definition selected (window : Z) (observations : list Z) : Z :=
  match kept window observations with
  | [] => greatest observations
  | subset => greatest subset
  end.

(** "the result is max(selected, lastRatchetHeight)" *)
Definition consensus (window ratchet : Z) (observations : list Z) : Z :=
  Z.max (selected window observations) ratchet.

End Spec.

(** ** Successive height queries on one instance *)

Module Session.
Import Provider.

(** [getBlockNumber()] called once per element of [rounds], in order, on
    the same instance; the values returned, and the instance at the end. *)
Fixpoint poll (this : Provider.t) (rounds : list (nat → Call Z))
  : list (Completion Z) * Provider.t :=
  match rounds with
  | [] => ([], this)
  | rpc :: rounds =>
      let r := getBlockNumber this rpc in
      let rest := poll r.2 rounds in
      (r.1 :: rest.1, rest.2)
  end.

(** An endpoint's call counts as failed when it rejects, times out, or
    fulfils with a value that [validate] does not accept. *)
Definition endpoint_fails (this : Provider.t) (task : nat → Call Value)
    (validate : option (Value → Completion bool)) (e : ProviderEntry) : Prop :=
  match _withTimeout (task (provider e)) (_blockTimeoutMs this) with
  | Reject _ => True
  | Fulfil result =>
      match validate with
      | Some validate => validate result ≠ Return true
      | None => False
      end
  end.

(** An endpoint that answers [v] after [ms] milliseconds, whoever it is. *)
Definition all_answer {T} (ms : Z) (v : T) : nat → Call T :=
  λ _, mkCall ms (Fulfil v).

(** Endpoint [i] answers the [i]-th element of [answers] after 10 ms; an
    endpoint without an answer rejects. *)
Definition answers_of {T} (answers : list T) : nat → Call T :=
  λ i, match answers !! i with
       | Some v => mkCall 10 (Fulfil v)
       | None => mkCall 10 (Reject "connection refused")
       end.

(** Endpoint [i] settles as the [i]-th element of [calls] says. *)
Definition calls_of {T} (calls : list (Call T)) : nat → Call T :=
  λ i, default (mkCall 10 (Reject "connection refused")) (calls !! i).

Definition all_reject {T} : nat → Call T :=
  λ _, mkCall 10 (Reject "connection refused").

(** A provider over [n] endpoints with the default options, and its
    ratchet at [lastHead]. *)
Definition node_urls (n : nat) : list string :=
  (λ i, "https://node" +:+ pretty i) <$> seq 0 n.

Definition provider_at (n : nat) (lastHead : Z) : Provider.t :=
  match constructor (node_urls n) noOptions with
  | Return this => set_lastHead this lastHead
  | Throw _ => mkProvider [] lastHead 500 3000 5 EmptyString
  end.

(** The example of the design document: five endpoints, window 5. *)
Definition example_heights : list Z :=
  [811995; 812000; 812001; 812002; 812050].

(** Two rounds on three endpoints; the second round sees lower heights. *)
Definition dipping_rounds : list (nat → Call Z) :=
  [answers_of [100; 101; 102]; answers_of [90; 91; 92]].

(** A log query on four endpoints: two logs, a rejection, three logs that
    arrive after the timeout, and two other logs. *)
Definition example_logs : nat → Call (list Z) :=
  calls_of [mkCall 10 (Fulfil [1; 2]); mkCall 10 (Reject "limit exceeded");
            mkCall 99999 (Fulfil [7; 8; 9]); mkCall 10 (Fulfil [3; 4])].

End Session.

(** ** What the log of the reader is checked against *)

Module Invariant.
Import Reader.

(** Every announcement of a block comes right after the write of the
    cursor's value; right after it the cursor moves up by one, or, when a
    listener threw, the error is emitted and the cursor stays. *)
Definition checkpointed (tr : list Entry) : Prop :=
  ∀ i c block, tr !! i = Some (mkEntry c (Emit_new_block block)) →
    (∃ j, i = S j ∧ tr !! j = Some (mkEntry c (WriteFile (toString c))))
    ∧ (tr !! S i = Some (mkEntry c (SetCursor (c + 1)))
       ∨ ∃ msg, tr !! S i = Some (mkEntry c (Emit_error msg))).



(** The error event that ends a run in which something threw. *)
Definition ending {A} (r : Completion A) (s : State) : list Entry :=
  match r with
  | Throw msg => [mkEntry (expectedBlockNumber s) (Emit_error msg)]
  | Return _ => []
  end.

Definition announces (e : Entry) : Prop :=
  ∃ block, action e = Emit_new_block block.

(** The pending buffer after a change holds blocks from the cursor up to
    [top] only, and a removal is a removal at the cursor. *)
Definition buffer_in_range (top : Z) (e : Entry) : Prop :=
  match action e with
  | BufferSet k m =>
      at_cursor e <= top
      ∧ ∀ k', is_Some (m !! k') → at_cursor e <= k' <= top
  | BufferDelete k m =>
      k = at_cursor e ∧ at_cursor e <= top
      ∧ ∀ k', is_Some (m !! k') → at_cursor e < k' <= top
  | _ => True
  end.

Definition touches_buffer (e : Entry) : Prop :=
  match action e with
  | BufferSet _ _ | BufferDelete _ _ => True
  | _ => False
  end.

(** The blocks that wait in the buffer are between the cursor and the next
    block to fetch, which is at most one past [top]. *)
Definition pending_ok (top nextBlock : Z) (fb : gmap Z Block) (s : State) : Prop :=
  expectedBlockNumber s <= nextBlock ∧ nextBlock <= top + 1
  ∧ ∀ k, is_Some (fb !! k) → expectedBlockNumber s <= k < nextBlock.

Definition fetching (a : Action) : Prop :=
  match a with Call_getBlock _ | Sleep _ => True | _ => False end.

Definition is_call (a : Action) : bool :=
  match a with Call_getBlock _ => true | _ => false end.

(** The calls of [getBlock] among the actions of one [tryGetBlock]. *)
Definition calls_made (acts : list Action) : Z :=
  Z.of_nat (length (List.filter is_call acts)).

(** The pending buffer after a change has at most [n] entries. *)
Definition buffer_at_most (n : Z) (e : Entry) : Prop :=
  match action e with
  | BufferSet _ m | BufferDelete _ m => Z.of_nat (size m) <= n
  | _ => True
  end.

End Invariant.

(** ** Chains to run the reader on *)

Module Scenario.
Import Reader.

Definition block_at (n : Z) : Block :=
  mkBlock n (Some "0xabc") 1700000000 (Responses []).


(** Every block is there, the disk works and the listeners return. *)
Definition healthy : World :=
  mkWorld (λ n _, Return (Some (block_at n))) (λ _, Return None) (λ _, false)
          (λ _, Return tt) (λ _, Return tt).

(** The same, except that no node serves block [gap]. *)
Definition missing (gap : Z) : World :=
  mkWorld (λ n _, if n =? gap then Throw "All RPC nodes failed"
                  else Return (Some (block_at n)))
          (λ _, Return None) (λ _, false) (λ _, Return tt) (λ _, Return tt).

(** The same as [healthy], except that a listener of [new_block] throws
    on block [n]. *)
Definition refusing (n : Z) : World :=
  mkWorld (λ n _, Return (Some (block_at n))) (λ _, Return None) (λ _, false)
          (λ block, if bd_number block =? n then Throw "the listener failed"
                    else Return tt)
          (λ _, Return tt).

(** The size of the pending buffer after each of its changes. *)
Definition buffer_sizes (tr : list Entry) : list nat :=
  omap (λ e, match action e with
             | BufferSet _ m | BufferDelete _ m => Some (size m)
             | _ => None
             end) tr.

End Scenario.

(** ** BlockReader: the status of a transaction *)

Module Status.

(** [v === n] for a number [n] *)
Definition is_number (n : Z) (v : Value) : bool :=
  match v with VNumber m => m =? n | _ => false end.

(** [checkTransactionStatus(hash)]; [receipt] is what
    [this.provider.waitForTransaction(hash, 0, 10000)] comes to. *)
Definition checkTransactionStatus (receipt : Completion Value) : bool :=
  match receipt with
  | Return receipt =>                 (* !!(receipt && receipt.status === 1) *)
      if truthy receipt then is_number 1 (prop receipt "status") else false
  | Throw _ => false
  end.

(** Receipts of a transaction that succeeded and of one that reverted. *)
Definition succeeded : Value :=
  VObject [("hash", VString "0x1"); ("status", VNumber 1)].
Definition reverted : Value :=
  VObject [("hash", VString "0x1"); ("status", VNumber 0)].

End Status.

(** ** Rounds of height queries to look at *)

Module Rounds.
Import Provider Session.

(** How many of the heights of a round are [m]. *)
Definition reports (m : Z) (heights : list Z) : nat :=
  length (filter (λ y, y = m) heights).

(** Five endpoints: three agree, one is far behind, one far ahead. *)
Definition outlier_heights : list Z :=
  [7; 812000; 999999999; 812000; 812000].

(** Three rounds on three endpoints; in the second one every endpoint
    fails, in the third one the heights are lower than in the first. *)
Definition interrupted_rounds : list (nat → Call Z) :=
  [answers_of [100; 101; 102]; all_reject; answers_of [90; 91; 92]].

End Rounds.

(** ** Queries to look at *)

Module Queries.
Import Provider Session.

(** Three endpoints asked for the same value: the first one answers after
    the timeout, the second one after two seconds, the third one at
    once. *)
Definition staggered : nat → Call Value :=
  calls_of [mkCall 99999 (Fulfil (VString "0xlate"));
            mkCall 2000 (Fulfil (VString "0xslow"));
            mkCall 5 (Fulfil (VString "0xfast"))].

End Queries.

(** ** What a run of the reader delivers *)

Module Delivery.
Import Reader.

Definition is_sleep (a : Action) : bool :=
  match a with Sleep _ => true | _ => false end.

(** The sleeps among the actions of one [tryGetBlock]. *)
Definition sleeps_made (acts : list Action) : Z :=
  Z.of_nat (length (List.filter is_sleep acts)).

(** What [tryGetBlock] ends with for block [k] in the world [w]. *)
Definition fetched (w : World) (k : Z) : option Block :=
  (tryGetBlock (getBlock w k) k maxAttempts).1.

(** The data that [processBlock] returns for a block; it does not depend
    on the state of the reader. *)
Definition blockData_of (w : World) (block : Block) : BlockData := {|
  bd_source := "READER";
  bd_number := number block;
  bd_hash := hash block;
  bd_timestamp := timestamp block;
  bd_transactions := normalizeTransaction <$> full_transactions w block
|}.

(** Block [k] went through: its fetch found it, the disk took the
    checkpoint and the listeners of [new_block] returned. *)
Definition accepted (w : World) (k : Z) : Prop :=
  ∃ block, fetched w k = Some block
           ∧ write_fails w (toString k) = false
           ∧ new_block_listener w (blockData_of w block) = Return tt.

(** Block [k] can be delivered whatever the reader has seen before: it
    goes through, and no listener throws on one of its transactions. *)
Definition deliverable (w : World) (k : Z) : Prop :=
  ∃ block, fetched w k = Some block
           ∧ (∀ tx, tx ∈ bd_transactions (blockData_of w block) →
                    new_transaction_listener w (mkTransactionData tx "block")
                    = Return tt)
           ∧ write_fails w (toString k) = false
           ∧ new_block_listener w (blockData_of w block) = Return tt.

(** Block [k] is announced and a listener throws on it. *)
Definition refused (w : World) (k : Z) : Prop :=
  ∃ block msg, fetched w k = Some block
               ∧ write_fails w (toString k) = false
               ∧ new_block_listener w (blockData_of w block) = Throw msg.

(** The announcements of a log, in order: the cursor and the block
    announced. *)
Definition announcements (tr : list Entry) : list (Z * BlockData) :=
  omap (λ e, match action e with
             | Emit_new_block block => Some (at_cursor e, block)
             | _ => None
             end) tr.

(** What was added to the log between two states. *)
Definition since (s s' : State) : list Entry :=
  drop (length (trace s)) (trace s').

(** The announcements of the blocks from [c] up to [c'], [c'] excluded,
    each with the data of what its fetch found. *)
Definition delivered (w : World) (c c' : Z) : list (Z * BlockData) :=
  omap (λ k, (λ block, (k, blockData_of w block)) <$> fetched w k)
       (seqZ c (c' - c)).

(** The announcement of block [k] again, for the listeners that threw. *)
Definition announced_at (w : World) (k : Z) : list (Z * BlockData) :=
  match fetched w k with
  | Some block => [(k, blockData_of w block)]
  | None => []
  end.

(** Cursor values of announcements that begin at [c] and leave the cursor
    at [c']: each announcement is at the cursor, and the cursor then moves
    up by one or, when a listener threw, stays. *)
Inductive Walk : Z → list Z → Z → Prop :=
| Walk_nil c : Walk c [] c
| Walk_on c cursors c' : Walk (c + 1) cursors c' → Walk c (c :: cursors) c'
| Walk_again c cursors c' : Walk c cursors c' → Walk c (c :: cursors) c'.

(** The pending buffer holds, for each block from [c] up to [nextBlock],
    what its fetch found. *)
Definition buffer_is_fetched (w : World) (c nextBlock : Z)
    (fb : gmap Z Block) : Prop :=
  ∀ k, c <= k < nextBlock → fb !! k = fetched w k.

(** The event that announces a transaction of a block, while the cursor
    is [c]. *)
Definition transaction_event (c : Z) (tx : BlockTransactionData) : Entry :=
  mkEntry c (Emit_new_transaction (mkTransactionData tx "block")).

(** The two lists of what was seen recently. *)
Definition recent (s : State) : list Z * list string :=
  (processedBlocks s, processedTransactions s).

(** What the code keeps of them whatever happens: at most 100 block
    numbers, and nothing twice. *)
Definition tidy (r : list Z * list string) : Prop :=
  (length r.1 <= 100)%nat ∧ NoDup r.1 ∧ NoDup r.2.

End Delivery.

(** ** Further chains to run the reader on *)

Module Chains.
Import Reader Scenario.

(** A reader whose cursor is at [c], with nothing done yet. *)
Definition reader_at (c : Z) : State := mkState c [] [] None [].

(** A node that answers every request with block 999. *)
Definition mislabelled : World :=
  mkWorld (λ _ _, Return (Some (block_at 999))) (λ _, Return None) (λ _, false)
          (λ _, Return tt) (λ _, Return tt).

(** Two runs during which no node serves block 100; the chain is at 105,
    then at 109. *)
Definition stuck_runs : list (World * Completion Z) :=
  [(missing 100, Return 105); (missing 100, Return 109)].

(** The same as [healthy], with a disk that refuses every write. *)
Definition read_only : World :=
  mkWorld (λ n _, Return (Some (block_at n))) (λ _, Return None) (λ _, true)
          (λ _, Return tt) (λ _, Return tt).

(** The byte order mark U+FEFF, as its three bytes in UTF-8. *)
Definition bom : string :=
  String (Ascii.ascii_of_nat 239)
    (String (Ascii.ascii_of_nat 187)
       (String (Ascii.ascii_of_nat 191) EmptyString)).

(** Two transactions that a node returned without a hash. *)
Definition unhashed (nonce : Z) : TransactionData :=
  mkTransactionData
    (normalizeTransaction
       (mkRawTx None (Some 8) (Some "0xto") (Some "0xfrom") (Some nonce) None))
    "block".

(** A block that lists its transactions by hash; the node knows the
    first and the third of them, and both have the same nonce. *)
Definition listed : Block :=
  mkBlock 8 (Some "0xabc") 1700000000 (Hashes ["0x1"; "0x2"; "0x3"]).

Definition knows_two : World :=
  mkWorld (λ _ _, Return (Some listed))
          (λ h, if String.eqb h "0x2" then Throw "All RPC nodes failed"
                else Return (Some (mkRawTx (Some h) (Some 8) None
                                     (Some "0xfrom") (Some 4) None)))
          (λ _, false) (λ _, Return tt) (λ _, Return tt).

(** The same node, with a listener of [new_transaction] that throws on
    the transaction [0x3]. *)
Definition chokes_on_the_third : World :=
  mkWorld (getBlock knows_two) (getTransaction knows_two) (λ _, false)
          (λ _, Return tt)
          (λ tx, if String.eqb (tx_hash (td_tx tx)) "0x3"
                 then Throw "the listener failed" else Return tt).

End Chains.

(** * Properties *)

(** [lia], with the quotients and remainders by a constant spelled out. *)
Ltac lia_div := zify; Z.to_euclidean_division_equations; lia.

Section Sorting.

Lemma sort_ascending_perm (l : list Z) : sort_ascending l ≡ₚ l.
Proof. apply merge_sort_Permutation. Qed.

Lemma sort_ascending_sorted (l : list Z) : StronglySorted Z.le (sort_ascending l).
Proof. apply (StronglySorted_merge_sort Z.le). Qed.

Lemma sort_ascending_length (l : list Z) :
  length (sort_ascending l) = length l.
Proof. by rewrite sort_ascending_perm. Qed.

(** In an ascending list, a later position holds a larger value. *)
Lemma sorted_lookup_le (l : list Z) (i j : nat) (x y : Z) :
  StronglySorted Z.le l → (i <= j)%nat →
  l !! i = Some x → l !! j = Some y → x <= y.
Proof.
  intros Hs. revert i j. induction Hs as [|a l Hs IH Hall]; intros i j Hij Hi Hj.
  - by rewrite lookup_nil in Hi.
  - destruct i as [|i], j as [|j]; simplify_eq/=; try lia.
    + rewrite Forall_forall in Hall. apply Hall.
      by eapply list_elem_of_lookup_2.
    + eapply (IH i j); eauto with lia.
Qed.

Lemma greatest_spec (l : list Z) :
  l ≠ [] → Spec.greatest l ∈ l ∧ ∀ x, x ∈ l → x <= Spec.greatest l.
Proof.
  destruct l as [|h rest]; [done|intros _]. simpl.
  induction rest as [|a rest IH]; simpl.
  - split; [left|]. intros x Hx. apply list_elem_of_singleton in Hx. lia.
  - destruct IH as [Hin Hle]. split.
    + destruct (Z.max_spec a (foldr Z.max h rest)) as [[_ ->]|[_ ->]].
      * apply elem_of_cons in Hin as [Hin|Hin]; [rewrite Hin; left|].
        by do 2 right.
      * right. left.
    + intros x Hx.
      assert (x = a ∨ x ∈ h :: rest) as [->|Hx'].
      { rewrite !elem_of_cons in Hx. rewrite elem_of_cons. tauto. }
      * lia.
      * specialize (Hle x Hx'). lia.
Qed.

(** The greatest element only depends on the elements. *)
Lemma greatest_unique (l : list Z) (m : Z) :
  m ∈ l → (∀ x, x ∈ l → x <= m) → Spec.greatest l = m.
Proof.
  intros Hin Hle. destruct (greatest_spec l) as [Hg Hgle].
  { intros ->. by apply not_elem_of_nil in Hin. }
  specialize (Hle _ Hg). specialize (Hgle _ Hin). lia.
Qed.

Lemma greatest_perm (l1 l2 : list Z) :
  l1 ≡ₚ l2 → Spec.greatest l1 = Spec.greatest l2.
Proof.
  intros Hp. destruct l2 as [|h l2].
  - apply Permutation_nil_r in Hp. by subst.
  - destruct (greatest_spec (h :: l2)) as [Hg Hgle]; [done|].
    apply greatest_unique.
    + by rewrite Hp.
    + intros x Hx. apply Hgle. by rewrite <- Hp.
Qed.

(** The last element of an ascending list is its greatest. *)
Lemma sorted_last_greatest (l : list Z) :
  StronglySorted Z.le l → l ≠ [] →
  l !!! (length l - 1)%nat = Spec.greatest l.
Proof.
  intros Hs Hne. symmetry.
  assert (is_Some (l !! (length l - 1)%nat)) as [m Hm].
  { apply lookup_lt_is_Some. destruct l; [done|simpl; lia]. }
  rewrite (list_lookup_total_correct _ _ _ Hm).
  apply greatest_unique.
  - by eapply list_elem_of_lookup_2.
  - intros x Hx. apply list_elem_of_lookup in Hx as [i Hi].
    apply (sorted_lookup_le l i (length l - 1)%nat x m Hs); [|done..].
    apply lookup_lt_Some in Hi. lia.
Qed.

End Sorting.

Section Consensus.
Import Provider.

Lemma filter_sorted (P : Z → Prop) `{∀ x, Decision (P x)} (l : list Z) :
  StronglySorted Z.le l → StronglySorted Z.le (filter P l).
Proof.
  induction 1 as [|a l Hs IH Hall]; [constructor|].
  rewrite filter_cons. case_decide; [|done].
  constructor; [done|].
  rewrite Forall_forall in Hall |- *. intros x Hx.
  apply list_elem_of_filter in Hx as [_ Hx]. auto.
Qed.

(** Both reads of [median_of] are in range. *)
Lemma median_index_in_range (sorted : list Z) :
  sorted ≠ [] →
  let mid := (length sorted / 2)%nat in
  ((if decide ((length sorted mod 2)%nat = 1%nat) then mid else (mid - 1)%nat)
   < length sorted)%nat.
Proof.
  intros Hne. destruct sorted as [|a l]; [done|].
  set (n := length (a :: l)). assert (0 < n)%nat by (subst n; simpl; lia).
  cbv zeta. case_decide; lia_div.
Qed.

Lemma median_of_spec (observations : list Z) :
  observations ≠ [] →
  median_of (sort_ascending observations) = Spec.median observations.
Proof.
  intros Hne. unfold median_of, Spec.median.
  pose proof (sort_ascending_sorted observations) as Hs.
  pose proof (sort_ascending_length observations) as Hlen.
  set (sorted := sort_ascending observations) in *.
  set (n := length sorted) in *.
  assert (0 < n)%nat by (destruct observations; [done|simpl in Hlen; lia]).
  cbv zeta. destruct (Nat.odd n) eqn:Hodd.
  - apply Nat.odd_spec in Hodd as [k Hk].
    case_decide as Hmod; [done|]. exfalso. apply Hmod. lia_div.
  - assert (Nat.even n = true) as [k Hk]%Nat.even_spec.
    { by rewrite <- Nat.negb_odd, Hodd. }
    case_decide as Hmod; [lia_div|].
    assert (is_Some (sorted !! (n / 2 - 1)%nat)) as [a Ha]
      by (apply lookup_lt_is_Some; lia_div).
    assert (is_Some (sorted !! (n / 2)%nat)) as [b Hb]
      by (apply lookup_lt_is_Some; lia_div).
    rewrite (list_lookup_total_correct _ _ _ Ha),
            (list_lookup_total_correct _ _ _ Hb).
    assert (a <= b); [|lia].
    apply (sorted_lookup_le sorted (n / 2 - 1) (n / 2) a b Hs); [lia_div|done..].
Qed.

(** The code's pool holds the heights the document keeps, in ascending
    order. *)
Lemma pool_of_spec (window : Z) (observations : list Z) :
  observations ≠ [] →
  let pool := pool_of window observations in
  StronglySorted Z.le pool ∧ pool ≠ [] ∧
  pool ≡ₚ match Spec.kept window observations with
          | [] => observations
          | subset => subset
          end.
Proof.
  intros Hne. unfold pool_of, Spec.kept. cbv zeta.
  rewrite (median_of_spec _ Hne).
  set (median := Spec.median observations).
  pose proof (sort_ascending_sorted observations) as Hs.
  pose proof (sort_ascending_perm observations) as Hp.
  set (sorted := sort_ascending observations) in *.
  assert (filter (λ n, in_window median window n = true) sorted ≡ₚ
          filter (λ n, median - window <= n ∧ n <= median + window)
                 observations) as Hf.
  { rewrite <- Hp. erewrite list_filter_iff; [done|].
    intros x. unfold in_window.
    rewrite andb_true_iff, !Z.leb_le. done. }
  case_decide as Hlen.
  - apply nil_length_inv in Hlen. rewrite Hlen in Hf.
    apply Permutation_nil_l in Hf. rewrite <- Hf.
    split; [done|]. split; [|done].
    intros Hnil. rewrite Hnil in Hp. apply Permutation_nil_l in Hp. done.
  - split; [by apply filter_sorted|]. split.
    { intros Hnil. by rewrite Hnil in Hlen. }
    destruct (filter (λ n, median - window <= n ∧ _) observations) eqn:Hk;
      [|done].
    apply Permutation_nil_r in Hf. by rewrite Hf in Hlen.
Qed.

Lemma _pickConsensusHead_spec (this : Provider.t) (observations : list Z) :
  observations ≠ [] →
  _pickConsensusHead this observations =
  Some (Spec.consensus (_consensusWindow this) (_lastHead this) observations).
Proof.
  intros Hne. unfold _pickConsensusHead.
  case_decide as Hlen; [by apply nil_length_inv in Hlen|].
  destruct (pool_of_spec (_consensusWindow this) observations Hne)
    as (Hs & Hpne & Hp).
  cbv zeta. rewrite (sorted_last_greatest _ Hs Hpne), (greatest_perm _ _ Hp).
  unfold Spec.consensus, Spec.selected. f_equal.
  destruct (Spec.kept _ _); case_match; lia.
Qed.

Lemma set_lastHead_same (this : Provider.t) :
  set_lastHead this (_lastHead this) = this.
Proof. by destruct this. Qed.

(** C1.  Whenever at least one endpoint reports a height in time,
    [getBlockNumber] returns the height the design document describes:
    the observations are sorted, the median is the middle one (the lower
    of the two central ones for an even count), the observations within
    [window] of the median are kept, the greatest of them is selected (the
    greatest of all of them if none is kept), and the result is the larger
    of that and the previous ratchet value, which becomes the new ratchet
    value.  The lemma that follows is the example of the document. *)
Theorem getBlockNumber_consensus (this : Provider.t) (rpc : nat → Call Z) :
  let observations := not_null (head_results this rpc) in
  observations ≠ [] →
  let height :=
    Spec.consensus (_consensusWindow this) (_lastHead this) observations in
  getBlockNumber this rpc = (Return height, set_lastHead this height).
Proof.
  intros observations Hne height. unfold getBlockNumber. cbv zeta.
  fold observations. rewrite (_pickConsensusHead_spec _ _ Hne). fold height.
  assert (_lastHead this <= height) by (unfold height, Spec.consensus; lia).
  case_match eqn:Hlt.
  - done.
  - apply Z.ltb_ge in Hlt. assert (height = _lastHead this) as -> by lia.
    by rewrite set_lastHead_same.
Qed.

Lemma getBlockNumber_consensus_example :
  not_null (head_results (Session.provider_at 5 812005)
              (Session.answers_of Session.example_heights)) ≠ []
  ∧ Spec.median Session.example_heights = 812001
  ∧ Spec.kept 5 Session.example_heights = [812000; 812001; 812002]
  ∧ Spec.selected 5 Session.example_heights = 812002
  ∧ getBlockNumber (Session.provider_at 5 812005)
      (Session.answers_of Session.example_heights)
    = (Return 812005, Session.provider_at 5 812005).
Proof.
  assert (not_null (head_results (Session.provider_at 5 812005)
                      (Session.answers_of Session.example_heights)) ≠ [])
    as Hne by (vm_compute; discriminate).
  split; [exact Hne|]. repeat (split; [vm_compute; reflexivity|]).
  rewrite (getBlockNumber_consensus _ _ Hne). vm_compute. reflexivity.
Defined.

End Consensus.

Section Ratchet.
Import Provider Session.

Lemma head_results_set_lastHead (this : Provider.t) (h : Z) (rpc : nat → Call Z) :
  head_results (set_lastHead this h) rpc = head_results this rpc.
Proof. done. Qed.

(** A round with at least one height returns the new ratchet, which is
    not below the old one. *)
Lemma getBlockNumber_ratchet (this : Provider.t) (rpc : nat → Call Z) :
  not_null (head_results this rpc) ≠ [] →
  ∃ h, getBlockNumber this rpc = (Return h, set_lastHead this h)
       ∧ _lastHead this <= h.
Proof.
  intros Hne. unfold getBlockNumber. cbv zeta.
  rewrite (_pickConsensusHead_spec _ _ Hne).
  set (h := Spec.consensus _ _ _).
  assert (_lastHead this <= h) by (unfold h, Spec.consensus; lia).
  case_match eqn:Hlt.
  - exists h. simpl. split; [done|lia].
  - apply Z.ltb_ge in Hlt. exists (_lastHead this).
    rewrite set_lastHead_same. split; [done|lia].
Qed.

Lemma poll_above_ratchet (rounds : list (nat → Call Z)) (this : Provider.t) :
  (∀ rpc, rpc ∈ rounds → not_null (head_results this rpc) ≠ []) →
  ∀ i a, (poll this rounds).1 !! i = Some a →
         ∃ x, a = Return x ∧ _lastHead this <= x.
Proof.
  revert this. induction rounds as [|rpc rounds IH]; intros this Hall i a Hi.
  - simpl in Hi. by rewrite lookup_nil in Hi.
  - destruct (getBlockNumber_ratchet this rpc) as (h & Hg & Hle).
    { apply Hall. left. }
    simpl in Hi. rewrite Hg in Hi. simpl in Hi.
    destruct i as [|i]; simpl in Hi.
    + inversion Hi. eauto.
    + apply IH in Hi as (x & -> & Hx).
      * exists x. split; [done|]. simpl in Hx. lia.
      * intros rpc' Hin. rewrite head_results_set_lastHead.
        apply Hall. by right.
Qed.

(** C2.  One instance is asked for the height any number of times, and at
    least one endpoint reports a height each time.  Then every call returns
    a value, and a value returned later is never below one returned
    earlier, whatever the endpoints report. *)
Theorem getBlockNumber_never_decreases
    (this : Provider.t) (rounds : list (nat → Call Z)) :
  (∀ rpc, rpc ∈ rounds → not_null (head_results this rpc) ≠ []) →
  ∀ i j a b, (i <= j)%nat →
    (poll this rounds).1 !! i = Some a →
    (poll this rounds).1 !! j = Some b →
    ∃ x y, a = Return x ∧ b = Return y ∧ x <= y.
Proof.
  revert this. induction rounds as [|rpc rounds IH]; intros this Hall i j a b Hij Hi Hj.
  - simpl in Hi. by rewrite lookup_nil in Hi.
  - destruct (getBlockNumber_ratchet this rpc) as (h & Hg & Hle).
    { apply Hall. left. }
    assert (∀ rpc', rpc' ∈ rounds →
              not_null (head_results (set_lastHead this h) rpc') ≠ []) as Hall'.
    { intros rpc' Hin. rewrite head_results_set_lastHead. apply Hall. by right. }
    simpl in Hi, Hj. rewrite Hg in Hi, Hj. simpl in Hi, Hj.
    destruct i as [|i], j as [|j]; simpl in Hi, Hj; try lia.
    + inversion Hi. inversion Hj. exists h, h. repeat split; lia.
    + inversion Hi.
      apply (poll_above_ratchet _ _ Hall') in Hj as (y & -> & Hy).
      exists h, y. simpl in Hy. repeat split; lia.
    + apply (IH _ Hall' i j); [lia|done..].
Qed.

Lemma getBlockNumber_never_decreases_example :
  (∀ rpc, rpc ∈ dipping_rounds →
     not_null (head_results (provider_at 3 0) rpc) ≠ [])
  ∧ Spec.selected 5 [90; 91; 92] = 92
  ∧ (poll (provider_at 3 0) dipping_rounds).1 = [Return 102; Return 102]
  ∧ ∃ x y, Return 102 = Return x ∧ Return 102 = Return y ∧ x <= y.
Proof.
  assert (∀ rpc, rpc ∈ dipping_rounds →
            not_null (head_results (provider_at 3 0) rpc) ≠ []) as Hall.
  { intros rpc Hin. unfold dipping_rounds in Hin.
    rewrite !elem_of_cons in Hin.
    destruct Hin as [->|[->|Hin]]; [vm_compute; discriminate..|].
    by apply not_elem_of_nil in Hin. }
  split; [exact Hall|]. split; [vm_compute; reflexivity|].
  split; [vm_compute; reflexivity|].
  apply (getBlockNumber_never_decreases (provider_at 3 0) dipping_rounds
           Hall 0 1); [lia|vm_compute; reflexivity..].
Defined.

End Ratchet.

Section FanOut.
Import Provider Session.

Lemma endpoint_fails_settled this task validate e :
  endpoint_fails this task validate e → settled this task validate e = VNull.
Proof.
  unfold endpoint_fails, settled.
  destruct (_withTimeout _ _) as [result|msg]; [|done].
  destruct validate as [validate|]; [|done].
  destruct (validate result) as [[]|]; done.
Qed.

(** What [array.find] finds: nothing, or the first match. *)
Lemma array_find_cases (p : Value → bool) (array : list Value) :
  (List.find p array = None ∧ ∀ x, x ∈ array → p x = false)
  ∨ (∃ i x, List.find p array = Some x ∧ array !! i = Some x ∧ p x = true
            ∧ ∀ j y, (j < i)%nat → array !! j = Some y → p y = false).
Proof.
  induction array as [|a array IH]; simpl.
  - left. split; [done|]. intros x Hx. by apply not_elem_of_nil in Hx.
  - destruct (p a) eqn:Hpa.
    + right. exists 0%nat, a. repeat split; [done|]. intros; lia.
    + destruct IH as [[Hnone Hall]|(i & x & Hf & Hi & Hpx & Hbefore)].
      * left. split; [done|]. intros x [->|Hx]%elem_of_cons; auto.
      * right. exists (S i), x. repeat split; try done.
        intros [|j] y Hj Hy; simpl in Hy; [by inversion Hy; subst|].
        apply (Hbefore j); [lia|done].
Qed.

(** The executor returns the first element of [results] that is not
    [null], provided that element is truthy, and throws otherwise. *)
Lemma _executeParallel_cases this task validate :
  let results := settled this task validate <$> _providers this in
  (_executeParallel this task validate = Throw "All RPC nodes failed"
   ∧ ((∀ r, r ∈ results → r = VNull)
      ∨ ∃ i r, results !! i = Some r ∧ r ≠ VNull ∧ truthy r = false
               ∧ ∀ j y, (j < i)%nat → results !! j = Some y → y = VNull))
  ∨ (∃ i r, _executeParallel this task validate = Return r
            ∧ results !! i = Some r ∧ r ≠ VNull ∧ truthy r = true
            ∧ ∀ j y, (j < i)%nat → results !! j = Some y → y = VNull).
Proof.
  intros results. unfold _executeParallel, array_find. fold results.
  assert (∀ v, not_null_value v = false → v = VNull) as Hnull
    by (by intros []).
  assert (∀ v, not_null_value v = true → v ≠ VNull) as Hnn
    by (by intros []).
  destruct (array_find_cases not_null_value results)
    as [[-> Hall]|(i & x & -> & Hi & Hpx & Hbefore)]; simpl.
  - left. split; [done|]. left. intros r Hr. by apply Hnull, Hall.
  - destruct (truthy x) eqn:Ht; simpl.
    + right. exists i, x. repeat split; auto.
      intros j y Hj Hy. apply Hnull. eauto.
    + left. split; [done|]. right. exists i, x. repeat split; auto.
      intros j y Hj Hy. apply Hnull. eauto.
Qed.

Lemma _executeParallel_all_fail this task validate :
  (∀ e, e ∈ _providers this → endpoint_fails this task validate e) →
  _executeParallel this task validate = Throw "All RPC nodes failed".
Proof.
  intros Hall. unfold _executeParallel.
  assert (settled this task validate <$> _providers this
          = replicate (length (_providers this)) VNull) as ->.
  { induction (_providers this) as [|e l IH]; [done|]. simpl.
    rewrite endpoint_fails_settled by (apply Hall; left).
    f_equal. apply IH. intros e' He'. apply Hall. by right. }
  by induction (length _).
Qed.

Lemma has_hash_truthy v : has_hash v = Return true → truthy v = true.
Proof. unfold has_hash. destruct (truthy v); [done|]. by intros [=]. Qed.

Lemma has_status_truthy v : has_status v = Return true → truthy v = true.
Proof. unfold has_status. destruct (truthy v); [done|]. by intros [=]. Qed.

(** With a validator that only accepts truthy values, a call returns an
    accepted value that is not [null], or throws. *)
Lemma _executeParallel_validated this task (validate : Value → Completion bool) :
  (∀ v, validate v = Return true → truthy v = true) →
  _executeParallel this task (Some validate) = Throw "All RPC nodes failed"
  ∨ ∃ v, _executeParallel this task (Some validate) = Return v
         ∧ v ≠ VNull ∧ validate v = Return true.
Proof.
  intros Htruthy.
  destruct (_executeParallel_cases this task (Some validate))
    as [[Hthrow _]|(i & r & Hret & Hi & Hnn & _ & _)]; [by left|right].
  exists r. repeat split; [done..|].
  apply list_lookup_fmap_Some in Hi as (e & Hr & _).
  unfold settled in Hr.
  destruct (_withTimeout (task (provider e)) _) as [result|]; [|done].
  destruct (validate result) as [[]|] eqn:Hv; congruence.
Qed.

End FanOut.

Section Facade.
Import Provider Session.

(** C3.  A zero balance makes [getBalance] throw.  When the first endpoint
    answers [0n] in time, nothing is validated away and that answer is the
    value to return; [_executeParallel] finds it, tests it with [!ok], and
    reports that all nodes failed. *)
Theorem getBalance_zero_balance_throws
    (this : Provider.t) (task : nat → Call Value)
    (e : ProviderEntry) (others : list ProviderEntry) :
  _providers this = e :: others →
  _withTimeout (task (provider e)) (_blockTimeoutMs this) = Fulfil (VBigInt 0) →
  settled this task None e = VBigInt 0
  ∧ getBalance this task = Throw "All RPC nodes failed".
Proof.
  intros Hfirst Hzero.
  assert (settled this task None e = VBigInt 0) as Hsettled
    by (unfold settled; by rewrite Hzero).
  split; [done|].
  unfold getBalance, _executeParallel. rewrite Hfirst. cbn [fmap list_fmap].
  rewrite Hsettled. reflexivity.
Qed.

Lemma getBalance_zero_balance_throws_example :
  _providers (provider_at 3 0)
  = mkProviderEntry "https://node0" 0 :: [mkProviderEntry "https://node1" 1; mkProviderEntry "https://node2" 2]
  ∧ _withTimeout (all_answer 20 (VBigInt 0) 0%nat) (_blockTimeoutMs (provider_at 3 0))
    = Fulfil (VBigInt 0)
  ∧ settled (provider_at 3 0) (all_answer 20 (VBigInt 0)) None
      (mkProviderEntry "https://node0" 0) = VBigInt 0
  ∧ getBalance (provider_at 3 0) (all_answer 20 (VBigInt 0))
    = Throw "All RPC nodes failed".
Proof.
  split; [reflexivity|]. split; [reflexivity|].
  apply (getBalance_zero_balance_throws (provider_at 3 0)
           (all_answer 20 (VBigInt 0)) (mkProviderEntry "https://node0" 0)
           [mkProviderEntry "https://node1" 1; mkProviderEntry "https://node2" 2]);
    reflexivity.
Defined.

(** X9.  What holds in its place: the first endpoint, in the configured
    order, whose value is not [null] is the one returned, as long as that
    value is truthy, whatever the latencies of the calls that beat the
    timer. *)
Lemma _executeParallel_first_in_order this task validate i e v :
  _providers this !! i = Some e →
  settled this task validate e = v → v ≠ VNull → truthy v = true →
  (∀ j e', (j < i)%nat → _providers this !! j = Some e' →
           settled this task validate e' = VNull) →
  _executeParallel this task validate = Return v.
Proof.
  intros He Hv Hnn Ht Hbefore.
  assert ((settled this task validate <$> _providers this) !! i = Some v) as Hi.
  { rewrite list_lookup_fmap, He. simpl. by rewrite Hv. }
  destruct (_executeParallel_cases this task validate)
    as [[_ [Hall|(k & r & Hk & Hr & Hf & Hb)]]
       |(k & r & Hret & Hk & Hr & _ & Hb)].
  - destruct Hnn. apply Hall. by eapply list_elem_of_lookup_2.
  - destruct (Nat.lt_trichotomy i k) as [Hlt|[->|Hlt]].
    + destruct Hnn. by apply (Hb i).
    + congruence.
    + destruct Hr. apply list_lookup_fmap_Some in Hk as (e' & -> & He').
      by apply (Hbefore k).
  - destruct (Nat.lt_trichotomy i k) as [Hlt|[->|Hlt]].
    + destruct Hnn. by apply (Hb i).
    + congruence.
    + destruct Hr. apply list_lookup_fmap_Some in Hk as (e' & -> & He').
      by apply (Hbefore k).
Qed.

(** C10.  [null] from an endpoint is dropped like a failure, so the three
    queries with a nullable result never return [null]: they return a
    value that their validator accepts, or throw, and they throw when
    every endpoint answers [null] in time. *)
Theorem null_answer_is_a_failure (this : Provider.t) (task : nat → Call Value) :
  (∀ validate e,
     _withTimeout (task (provider e)) (_blockTimeoutMs this) = Fulfil VNull →
     settled this task validate e = VNull)
  ∧ (getBlock this task = Throw "All RPC nodes failed"
     ∨ ∃ block, getBlock this task = Return block ∧ block ≠ VNull
                ∧ has_hash block = Return true)
  ∧ (getTransaction this task = Throw "All RPC nodes failed"
     ∨ ∃ tx, getTransaction this task = Return tx ∧ tx ≠ VNull
             ∧ has_hash tx = Return true)
  ∧ (getTransactionReceipt this task = Throw "All RPC nodes failed"
     ∨ ∃ receipt, getTransactionReceipt this task = Return receipt
                  ∧ receipt ≠ VNull ∧ has_status receipt = Return true)
  ∧ ((∀ e, e ∈ _providers this →
        _withTimeout (task (provider e)) (_blockTimeoutMs this) = Fulfil VNull) →
     getBlock this task = Throw "All RPC nodes failed"
     ∧ getTransaction this task = Throw "All RPC nodes failed"
     ∧ getTransactionReceipt this task = Throw "All RPC nodes failed").
Proof.
  split; [|split; [|split; [|split]]].
  - intros validate e Hnull. unfold settled. rewrite Hnull.
    destruct validate as [validate|]; [|done].
    by destruct (validate VNull) as [[]|].
  - apply _executeParallel_validated, has_hash_truthy.
  - apply _executeParallel_validated, has_hash_truthy.
  - apply _executeParallel_validated, has_status_truthy.
  - intros Hall.
    repeat split; apply _executeParallel_all_fail; intros e He;
      unfold endpoint_fails; rewrite (Hall e He); done.
Qed.

Lemma null_answer_is_a_failure_witness :
  getBlock (provider_at 2 0) (all_answer 20 VNull)
  = Throw "All RPC nodes failed".
Proof.
  apply (null_answer_is_a_failure (provider_at 2 0) (all_answer 20 VNull)).
  intros e He. reflexivity.
Defined.

End Facade.

Section Logs.
Import Provider Session.
Context {Log : Type}.

(** Folding [longer] over an array keeps the first of its longest
    elements. *)
Lemma foldl_longer (rest : list (list Log)) (a : list Log) :
  ∃ i, (a :: rest) !! i = Some (foldl longer a rest)
       ∧ (∀ j l, (a :: rest) !! j = Some l →
                 (length l <= length (foldl longer a rest))%nat)
       ∧ (∀ j l, (a :: rest) !! j = Some l →
                 length l = length (foldl longer a rest) → (i <= j)%nat).
Proof.
  induction rest as [|b rest IH] using rev_ind.
  - exists 0%nat. simpl. repeat split; [|intros; lia].
    intros [|j] l Hj; simpl in Hj; [by inversion Hj|].
    by rewrite lookup_nil in Hj.
  - destruct IH as (i & Hi & Hmax & Hfirst).
    rewrite foldl_app. simpl. set (r := foldl longer a rest) in *.
    assert (∀ j l, (a :: rest ++ [b]) !! j = Some l →
              ((a :: rest) !! j = Some l ∧ (j < length (a :: rest))%nat)
              ∨ (j = length (a :: rest) ∧ l = b)) as Hsplit.
    { intros j l Hj. rewrite app_comm_cons in Hj.
      apply lookup_app_Some in Hj as [Hj|[Hge Hj]].
      - left. split; [done|]. by eapply lookup_lt_Some.
      - right. apply list_lookup_singleton_Some in Hj as [Hj ->].
        split; [lia|done]. }
    destruct (length r <? length b)%nat eqn:Hlt.
    + assert (longer r b = b) as -> by (unfold longer; by rewrite Hlt).
      apply Nat.ltb_lt in Hlt. exists (length (a :: rest)). repeat split.
      * rewrite app_comm_cons. by rewrite list_lookup_middle.
      * intros j l [[Hj _]|[_ ->]]%Hsplit; [|done].
        specialize (Hmax j l Hj). lia.
      * intros j l [[Hj _]|[-> _]]%Hsplit Hlen; [|done].
        specialize (Hmax j l Hj). lia.
    + assert (longer r b = r) as -> by (unfold longer; by rewrite Hlt).
      apply Nat.ltb_ge in Hlt. exists i. repeat split.
      * rewrite app_comm_cons. rewrite lookup_app_l; [done|].
        by eapply lookup_lt_Some.
      * intros j l [[Hj _]|[_ ->]]%Hsplit; [by apply (Hmax j)|done].
      * intros j l [[Hj _]|[-> _]]%Hsplit Hlen; [by apply (Hfirst j l)|].
        apply lookup_lt_Some in Hi. lia.
Qed.

(** C7.  With at least one endpoint, [getLogs] returns one of the lists of
    [results]; no list of [results] is longer; among the lists of that
    length it is the one of the earliest endpoint; and the list of an
    endpoint whose call rejects or times out is the empty list. *)
Theorem getLogs_longest (this : Provider.t) (task : nat → Call (list Log)) :
  _providers this ≠ [] →
  let results := log_results this task in
  (∃ i logs, getLogs this task = Return logs
     ∧ results !! i = Some logs
     ∧ (∀ j l, results !! j = Some l → (length l <= length logs)%nat)
     ∧ (∀ j l, results !! j = Some l → length l = length logs → (i <= j)%nat))
  ∧ (∀ j e msg, _providers this !! j = Some e →
       _withTimeout (task (provider e)) (_blockTimeoutMs this * 3) = Reject msg →
       results !! j = Some []).
Proof.
  intros Hne results. split.
  - unfold getLogs. fold results.
    destruct results as [|a rest] eqn:Hres.
    { apply fmap_nil_inv in Hres. done. }
    destruct (foldl_longer rest a) as (i & Hi & Hmax & Hfirst).
    exists i, (foldl longer a rest). by repeat split.
  - intros j e msg He Hrej. unfold results, log_results.
    rewrite list_lookup_fmap, He. simpl. by rewrite Hrej.
Qed.

End Logs.

Lemma getLogs_longest_example :
  Provider._providers (Session.provider_at 4 0) ≠ []
  ∧ Provider.log_results (Session.provider_at 4 0) Session.example_logs
    = [[1; 2]; []; []; [3; 4]]
  ∧ ∃ i logs,
      Provider.getLogs (Session.provider_at 4 0) Session.example_logs = Return logs
      ∧ Provider.log_results (Session.provider_at 4 0) Session.example_logs !! i
        = Some logs
      ∧ (∀ j l, Provider.log_results (Session.provider_at 4 0)
                  Session.example_logs !! j = Some l →
                (length l <= length logs)%nat)
      ∧ (∀ j l, Provider.log_results (Session.provider_at 4 0)
                  Session.example_logs !! j = Some l →
                length l = length logs → (i <= j)%nat).
Proof.
  assert (Provider._providers (Session.provider_at 4 0) ≠ []) as Hne
    by (vm_compute; discriminate).
  split; [exact Hne|]. split; [vm_compute; reflexivity|].
  apply (getLogs_longest (Session.provider_at 4 0) Session.example_logs Hne).
Defined.

Section TotalFailure.
Import Provider Session.

Lemma getLogs_all_fail {Log} (this : Provider.t) (task : nat → Call (list Log)) :
  _providers this ≠ [] →
  (∀ e, e ∈ _providers this →
     ∃ msg, _withTimeout (task (provider e)) (_blockTimeoutMs this * 3)
            = Reject msg) →
  getLogs this task = Return [].
Proof.
  intros Hne Hall. unfold getLogs.
  assert (log_results this task = replicate (length (_providers this)) []) as ->.
  { unfold log_results. induction (_providers this) as [|e l IH]; [done|].
    simpl. destruct (Hall e) as [msg ->]; [left|].
    f_equal. destruct l as [|e' l]; [done|].
    apply IH; [done|]. intros e'' He''. apply Hall. by right. }
  destruct (_providers this) as [|e l]; [done|]. simpl. f_equal.
  by induction (length l).
Qed.

Lemma getBlockNumber_all_fail (this : Provider.t) (rpc : nat → Call Z) :
  (∀ e, e ∈ _providers this →
     ∃ msg, _withTimeout (rpc (provider e)) (_headTimeoutMs this) = Reject msg) →
  getBlockNumber this rpc
  = (Throw "All RPC nodes failed for getBlockNumber()", this).
Proof.
  intros Hall. unfold getBlockNumber.
  assert (not_null (head_results this rpc) = []) as ->.
  { unfold head_results. induction (_providers this) as [|e l IH]; [done|].
    simpl. destruct (Hall e) as [msg ->]; [left|]. simpl.
    apply IH. intros e' He'. apply Hall. by right. }
  done.
Qed.

(** C8, as the code has it.  When every endpoint fails for one call, a
    query that goes through [_executeParallel] throws, and so does
    [getBlockNumber]; [getLogs] returns the empty list. *)
Theorem total_failure_by_query (this : Provider.t) :
  (∀ task validate,
     (∀ e, e ∈ _providers this → endpoint_fails this task validate e) →
     _executeParallel this task validate = Throw "All RPC nodes failed")
  ∧ (∀ rpc,
       (∀ e, e ∈ _providers this →
          ∃ msg, _withTimeout (rpc (provider e)) (_headTimeoutMs this)
                 = Reject msg) →
       getBlockNumber this rpc
       = (Throw "All RPC nodes failed for getBlockNumber()", this))
  ∧ (∀ (Log : Type) (task : nat → Call (list Log)),
       _providers this ≠ [] →
       (∀ e, e ∈ _providers this →
          ∃ msg, _withTimeout (task (provider e)) (_blockTimeoutMs this * 3)
                 = Reject msg) →
       getLogs this task = Return []).
Proof.
  split; [|split].
  - apply _executeParallel_all_fail.
  - apply getBlockNumber_all_fail.
  - intros Log. apply getLogs_all_fail.
Qed.

Lemma total_failure_by_query_witness :
  send (provider_at 2 0) all_reject = Throw "All RPC nodes failed"
  ∧ getBlockNumber (provider_at 2 0) all_reject
    = (Throw "All RPC nodes failed for getBlockNumber()", provider_at 2 0)
  ∧ getLogs (provider_at 2 0) (@all_reject (list Value)) = Return [].
Proof.
  destruct (total_failure_by_query (provider_at 2 0)) as (Hexec & Hhead & Hlogs).
  split; [|split].
  - apply Hexec. intros e He. unfold endpoint_fails. simpl. exact I.
  - apply Hhead. intros e He. by eexists.
  - apply Hlogs; [done|]. intros e He. by eexists.
Defined.

(** C8 fails for [getLogs]: both endpoints reject, and the call returns
    an empty list instead of throwing. *)
Lemma getLogs_total_failure_is_silent :
  (∀ e, e ∈ _providers (provider_at 2 0) →
     _withTimeout (@all_reject (list Value) (provider e))
                  (_blockTimeoutMs (provider_at 2 0) * 3)
     = Reject "connection refused")
  ∧ getLogs (provider_at 2 0) (@all_reject (list Value)) = Return []
  ∧ ¬ ∃ msg, getLogs (provider_at 2 0) (@all_reject (list Value)) = Throw msg.
Proof.
  split; [by intros e He|]. split; [reflexivity|].
  intros [msg Hmsg]. discriminate Hmsg.
Qed.

End TotalFailure.

Section Checkpoint.
Import Reader.

Lemma digit_value_char (d : N) :
  (d < 10)%N → digit_value (pretty_N_char d) = Some (Z.of_N d).
Proof.
  intros Hd.
  assert (d = 0 ∨ d = 1 ∨ d = 2 ∨ d = 3 ∨ d = 4 ∨ d = 5 ∨ d = 6 ∨ d = 7
          ∨ d = 8 ∨ d = 9)%N as Hcases by lia.
  repeat (destruct Hcases as [->|Hcases]; [reflexivity|]). by subst.
Qed.

(** Reading back the digits that [pretty_N_go] writes in front of [s]. *)
Lemma digits_value_pretty (x : N) :
  ∀ s, ∃ k : Z, 0 <= k ∧ ∀ acc,
    digits_value (pretty_N_go x s) acc
    = digits_value s (acc * 10 ^ k + Z.of_N x).
Proof.
  induction (N.lt_wf_0 x) as [x _ IH]. intros s.
  destruct (decide (x = 0%N)) as [->|Hx].
  - exists 0. split; [done|]. intros acc. rewrite pretty_N_go_0. f_equal. lia.
  - rewrite pretty_N_go_step by lia.
    destruct (IH (x `div` 10)%N) with
      (s := String (pretty_N_char (x `mod` 10)) s) as (k & Hk & Heq).
    { apply N.div_lt; lia. }
    exists (k + 1). split; [lia|]. intros acc. rewrite Heq. simpl.
    rewrite digit_value_char by (apply N.mod_lt; lia). f_equal.
    rewrite Z.pow_add_r by lia.
    rewrite (N.div_mod x 10) at 3 by lia.
    rewrite N2Z.inj_add, N2Z.inj_mul. change (Z.of_N 10) with 10. lia.
Qed.

(** A positive number is written with a digit first. *)
Lemma pretty_starts_with_digit (x : N) :
  ∀ s, (0 < x)%N →
    ∃ c rest d, pretty_N_go x s = String c rest ∧ digit_value c = Some d.
Proof.
  induction (N.lt_wf_0 x) as [x _ IH]. intros s Hx.
  rewrite pretty_N_go_step by done.
  destruct (decide (x `div` 10 = 0)%N) as [->|Hdiv].
  - rewrite pretty_N_go_0. eexists _, _, _. split; [done|].
    apply digit_value_char, N.mod_lt. lia.
  - apply IH; [apply N.div_lt|]; lia.
Qed.

(** The loop of [trimStart], unfolded once. *)
Lemma trimStart_once (s : string) :
  trimStart s = match white_space s with
                | Some rest => trimStart rest
                | None => s
                end.
Proof.
  funelim (trimStart s).
  - match goal with H : white_space _ = Some _ |- _ => rewrite H end.
    reflexivity.
  - match goal with H : white_space _ = None |- _ => rewrite H end.
    reflexivity.
Qed.

(** Nothing is skipped in front of an ASCII character that is not white
    space. *)
Lemma trimStart_ascii (c : ascii) (rest : string) :
  is_space c = false → byte c < 128 →
  trimStart (String c rest) = String c rest.
Proof.
  intros Hs Hb. rewrite trimStart_once. simpl. rewrite Hs.
  by apply Z.ltb_lt in Hb as ->.
Qed.

Lemma parseInt_digit_first (c : ascii) (rest : string) (d : Z) :
  digit_value c = Some d →
  parseInt (String c rest) = Some (digits_value (String c rest) 0).
Proof.
  intros Hd.
  assert (is_space c = false ∧ byte c < 128 ∧ c ≠ "-"%char ∧ c ≠ "+"%char)
    as (Hs & Hb & Hm & Hp).
  { destruct c as [[] [] [] [] [] [] [] []]; try discriminate Hd; done. }
  unfold parseInt. rewrite trimStart_ascii by done.
  assert (parse_unsigned (String c rest) = Some (digits_value (String c rest) 0))
    as Hpu by (unfold parse_unsigned; by rewrite Hd).
  destruct c as [[] [] [] [] [] [] [] []]; try done.
Qed.

Lemma parseInt_pretty_N (x : N) :
  (0 < x)%N → parseInt (pretty_N_go x EmptyString) = Some (Z.of_N x).
Proof.
  intros Hx.
  destruct (pretty_starts_with_digit x EmptyString Hx) as (c & rest & d & Heq & Hd).
  destruct (digits_value_pretty x EmptyString) as (k & _ & Hval).
  rewrite Heq, (parseInt_digit_first _ _ _ Hd), <- Heq, Hval. simpl.
  f_equal.
Qed.

(** The checkpoint that [saveLastProcessedBlock] writes is the one that
    [loadLastProcessedBlock] reads. *)
Lemma parseInt_toString (n : Z) : parseInt (toString n) = Some n.
Proof.
  destruct n as [|p|p]; [done|..].
  - change (toString (Z.pos p)) with (pretty_N_go (N.pos p) EmptyString).
    by rewrite parseInt_pretty_N.
  - change (toString (Z.neg p)) with (String "-" (pretty_N_go (N.pos p) EmptyString)).
    destruct (pretty_starts_with_digit (N.pos p) EmptyString) as (c & rest & d & Heq & Hd);
      [done|].
    destruct (digits_value_pretty (N.pos p) EmptyString) as (k & _ & Hval).
    unfold parseInt. rewrite trimStart_ascii by done.
    rewrite Heq. unfold parse_unsigned. rewrite Hd. rewrite <- Heq, Hval.
    done.
Qed.

End Checkpoint.

Section Retry.
Import Reader Invariant.

(** One turn of the loop of [tryGetBlock], by what the provider does. *)
Lemma tryGetBlock_loop_throw getBlock blockNumber maxAttempts attempts calls msg :
  attempts < maxAttempts → getBlock calls = Throw msg →
  tryGetBlock_loop getBlock blockNumber maxAttempts attempts calls
  = after (Call_getBlock blockNumber ::
           if decide (attempts + 1 < maxAttempts) then [Sleep 1000] else [])
      (tryGetBlock_loop getBlock blockNumber maxAttempts (attempts + 1 + 1)
         (S calls)).
Proof.
  intros Hlt Hthrow. rewrite tryGetBlock_loop_equation_1.
  destruct (decide (attempts < maxAttempts)); [|lia]. simpl.
  rewrite Hthrow. reflexivity.
Qed.

Lemma tryGetBlock_loop_no_hash getBlock blockNumber maxAttempts attempts calls r :
  attempts < maxAttempts → getBlock calls = Return r → usable r = false →
  tryGetBlock_loop getBlock blockNumber maxAttempts attempts calls
  = after [Call_getBlock blockNumber]
      (tryGetBlock_loop getBlock blockNumber maxAttempts (attempts + 1) (S calls)).
Proof.
  intros Hlt Hret Hr. rewrite tryGetBlock_loop_equation_1.
  destruct (decide (attempts < maxAttempts)); [|lia]. simpl.
  rewrite Hret. simpl. rewrite Hr. reflexivity.
Qed.

Lemma tryGetBlock_loop_found getBlock blockNumber maxAttempts attempts calls r :
  attempts < maxAttempts → getBlock calls = Return r → usable r = true →
  tryGetBlock_loop getBlock blockNumber maxAttempts attempts calls
  = (r, [Call_getBlock blockNumber]).
Proof.
  intros Hlt Hret Hr. rewrite tryGetBlock_loop_equation_1.
  destruct (decide (attempts < maxAttempts)); [|lia]. simpl.
  rewrite Hret. simpl. rewrite Hr. reflexivity.
Qed.

Lemma tryGetBlock_loop_done getBlock blockNumber maxAttempts attempts calls :
  maxAttempts <= attempts →
  tryGetBlock_loop getBlock blockNumber maxAttempts attempts calls = (None, []).
Proof.
  intros Hge. rewrite tryGetBlock_loop_equation_1.
  destruct (decide (attempts < maxAttempts)); [lia|]. reflexivity.
Qed.

(** C6.  A provider that throws at every call is asked twice, not three
    times: each throw counts for two attempts. *)
Theorem tryGetBlock_two_calls_when_throwing
    (getBlock : nat → Completion (option Block)) (blockNumber : Z) :
  (∀ k, ∃ msg, getBlock k = Throw msg) →
  tryGetBlock getBlock blockNumber maxAttempts
  = (None, [Call_getBlock blockNumber; Sleep 1000; Call_getBlock blockNumber]).
Proof.
  intros Hthrow. unfold tryGetBlock, maxAttempts.
  destruct (Hthrow 0%nat) as [m0 H0]. destruct (Hthrow 1%nat) as [m1 H1].
  rewrite (tryGetBlock_loop_throw _ _ _ _ _ m0) by (lia || done).
  rewrite (tryGetBlock_loop_throw _ _ _ _ _ m1) by (lia || done).
  rewrite tryGetBlock_loop_done by lia. reflexivity.
Qed.

Lemma tryGetBlock_two_calls_when_throwing_example :
  (∀ k : nat, ∃ msg, (λ _, Throw "All RPC nodes failed") k
                     = @Throw (option Block) msg)
  ∧ tryGetBlock (λ _, Throw "All RPC nodes failed") 7 maxAttempts
    = (None, [Call_getBlock 7; Sleep 1000; Call_getBlock 7]).
Proof.
  assert (∀ k : nat, ∃ msg, (λ _, Throw "All RPC nodes failed") k
                            = @Throw (option Block) msg) as Hthrow
    by (intros k; by eexists).
  split; [exact Hthrow|].
  apply (tryGetBlock_two_calls_when_throwing _ 7 Hthrow).
Defined.

(** A provider that keeps answering without a hash is asked three times in
    a row, with no delay in between. *)
Lemma tryGetBlock_three_calls_without_hash
    (getBlock : nat → Completion (option Block)) (blockNumber : Z) :
  (∀ k, ∃ r, getBlock k = Return r ∧ usable r = false) →
  tryGetBlock getBlock blockNumber maxAttempts
  = (None, [Call_getBlock blockNumber; Call_getBlock blockNumber;
            Call_getBlock blockNumber]).
Proof.
  intros Hno. unfold tryGetBlock, maxAttempts.
  destruct (Hno 0%nat) as (r0 & H0 & U0). destruct (Hno 1%nat) as (r1 & H1 & U1).
  destruct (Hno 2%nat) as (r2 & H2 & U2).
  rewrite (tryGetBlock_loop_no_hash _ _ _ _ _ r0) by (lia || done).
  rewrite (tryGetBlock_loop_no_hash _ _ _ _ _ r1) by (lia || done).
  rewrite (tryGetBlock_loop_no_hash _ _ _ _ _ r2) by (lia || done).
  rewrite tryGetBlock_loop_done by lia. reflexivity.
Qed.

Lemma tryGetBlock_loop_calls_bounded getBlock blockNumber maxAttempts attempts calls :
  calls_made (tryGetBlock_loop getBlock blockNumber maxAttempts attempts calls).2
  <= Z.max 0 (maxAttempts - attempts).
Proof.
  funelim (tryGetBlock_loop getBlock blockNumber maxAttempts attempts calls);
    unfold calls_made in *; simpl.
  - lia.
  - rewrite List.filter_app, length_app.
    assert (length (List.filter is_call
                      (if decide (attempts + 1 < maxAttempts0)
                       then [Sleep 1000] else [])) = 0%nat) as ->
      by (by case_decide).
    simpl. lia.
  - lia.
  - lia.
Qed.

(** Whatever the provider does, [getBlock] is called at most three times. *)
Lemma tryGetBlock_at_most_three_calls getBlock blockNumber :
  calls_made (tryGetBlock getBlock blockNumber maxAttempts).2 <= 3.
Proof.
  unfold tryGetBlock.
  etrans; [apply tryGetBlock_loop_calls_bounded|]. unfold maxAttempts. lia.
Qed.

End Retry.

Section Log.
Import Reader Invariant.

Lemma checkpointed_quiet (tr : list Entry) :
  Forall (λ e, ¬ announces e) tr → checkpointed tr.
Proof.
  intros Hq i c block Hi. rewrite Forall_forall in Hq.
  destruct (Hq (mkEntry c (Emit_new_block block))).
  - by eapply list_elem_of_lookup_2.
  - by eexists.
Qed.

Lemma checkpointed_app (tr1 tr2 : list Entry) :
  checkpointed tr1 → checkpointed tr2 → checkpointed (tr1 ++ tr2).
Proof.
  intros H1 H2 i c block Hi.
  apply lookup_app_Some in Hi as [Hi|[Hge Hi]].
  - destruct (H1 i c block Hi) as [(j & -> & Hj) Hnext]. split.
    + exists j. split; [done|]. by apply lookup_app_l_Some.
    + destruct Hnext as [Hnext|[msg Hnext]]; [left|right; exists msg];
        by apply lookup_app_l_Some.
  - destruct (H2 _ c block Hi) as [(j & Hij & Hj) Hnext]. split.
    + exists (length tr1 + j)%nat. split; [lia|].
      rewrite lookup_app_r by lia. rewrite <- Hj. f_equal. lia.
    + destruct Hnext as [Hnext|[msg Hnext]]; [left|right; exists msg];
        (rewrite lookup_app_r by lia; rewrite <- Hnext; f_equal; lia).
Qed.

Lemma checkpointed_unit (c : Z) (block : BlockData) :
  checkpointed [mkEntry c (WriteFile (toString c));
                mkEntry c (Emit_new_block block);
                mkEntry c (SetCursor (c + 1))].
Proof.
  intros [|[|[|i]]] c' block' Hi; simpl in Hi; try discriminate Hi.
  injection Hi as <- <-. split; [by exists 0%nat|by left].
Qed.

Lemma checkpointed_refused (c : Z) (block : BlockData) (msg : string) :
  checkpointed [mkEntry c (WriteFile (toString c));
                mkEntry c (Emit_new_block block);
                mkEntry c (Emit_error msg)].
Proof.
  intros [|[|[|i]]] c' block' Hi; simpl in Hi; try discriminate Hi.
  injection Hi as <- <-. split; [by exists 0%nat|right; by exists msg].
Qed.

(** *** What each method adds to the log *)

Lemma trace_log a s :
  trace (log a s) = trace s ++ [mkEntry (expectedBlockNumber s) a].
Proof. done. Qed.

Lemma trace_log_all acts s :
  trace (log_all acts s) = trace s ++ (mkEntry (expectedBlockNumber s) <$> acts)
  ∧ expectedBlockNumber (log_all acts s) = expectedBlockNumber s
  ∧ block_txt (log_all acts s) = block_txt s.
Proof.
  revert s. induction acts as [|a acts IH]; intros s; simpl.
  - by rewrite app_nil_r.
  - destruct (IH (log a s)) as (-> & -> & ->). simpl.
    by rewrite <- app_assoc.
Qed.

Lemma processTransaction_log w tx s :
  ∃ ext, trace (processTransaction w tx s).2 = trace s ++ ext
         ∧ expectedBlockNumber (processTransaction w tx s).2
           = expectedBlockNumber s
         ∧ block_txt (processTransaction w tx s).2 = block_txt s
         ∧ Forall (λ e, ¬ announces e ∧ ¬ touches_buffer e
                        ∧ at_cursor e = expectedBlockNumber s) ext.
Proof.
  unfold processTransaction. case_bool_decide.
  - exists []. by rewrite app_nil_r.
  - eexists [_]. cbv zeta.
    destruct (new_transaction_listener w tx) as [[]|msg]; [case_match|];
      simpl; (split; [done|split; [done|split; [done|]]]);
      (constructor; [|done]);
      (split; [by intros [? ?]|split; [by intros ?|done]]).
Qed.

Lemma processTransactions_log w txs :
  ∀ s, ∃ ext, trace (processTransactions w txs s).2 = trace s ++ ext
         ∧ expectedBlockNumber (processTransactions w txs s).2
           = expectedBlockNumber s
         ∧ block_txt (processTransactions w txs s).2 = block_txt s
         ∧ Forall (λ e, ¬ announces e ∧ ¬ touches_buffer e
                        ∧ at_cursor e = expectedBlockNumber s) ext.
Proof.
  induction txs as [|tx txs IH]; intros s; simpl.
  - exists []. by rewrite app_nil_r.
  - destruct (processTransaction_log w (mkTransactionData tx "block") s)
      as (e1 & Ht1 & Hc1 & Hf1 & Hq1).
    set (r := processTransaction w (mkTransactionData tx "block") s) in *.
    clearbody r. destruct r.1 as [[]|msg]; [|by exists e1].
    destruct (IH r.2) as (e2 & Ht2 & Hc2 & Hf2 & Hq2).
    exists (e1 ++ e2). rewrite Ht2, Ht1, Hc2, Hc1, Hf2, Hf1, app_assoc.
    repeat split; [done..|]. apply Forall_app. split; [done|].
    eapply Forall_impl; [exact Hq2|]. intros e (? & ? & ->). by rewrite Hc1.
Qed.

Lemma processBlock_log w block s :
  ∃ ext, trace (processBlock w block s).2 = trace s ++ ext
         ∧ expectedBlockNumber (processBlock w block s).2 = expectedBlockNumber s
         ∧ block_txt (processBlock w block s).2 = block_txt s
         ∧ Forall (λ e, ¬ announces e ∧ ¬ touches_buffer e
                        ∧ at_cursor e = expectedBlockNumber s) ext.
Proof.
  unfold processBlock. cbv zeta.
  set (txs := normalizeTransaction <$> full_transactions w block). clearbody txs.
  destruct (processTransactions_log w txs s) as (ext & Htr & Hc & Hf & Hq).
  set (r := processTransactions w txs s) in *. clearbody r.
  exists ext. destruct r.1 as [[]|msg]; [|done]. simpl.
  case_bool_decide; [done|]. case_match; done.
Qed.

Lemma saveLastProcessedBlock_log w n s :
  ((saveLastProcessedBlock w n s).1 = Return tt
   ∧ write_fails w (toString n) = false
   ∧ trace (saveLastProcessedBlock w n s).2
     = trace s ++ [mkEntry (expectedBlockNumber s) (WriteFile (toString n))]
   ∧ expectedBlockNumber (saveLastProcessedBlock w n s).2 = expectedBlockNumber s
   ∧ block_txt (saveLastProcessedBlock w n s).2 = Some (toString n))
  ∨ (∃ msg, (saveLastProcessedBlock w n s).1 = Throw msg
            ∧ write_fails w (toString n) = true
            ∧ (saveLastProcessedBlock w n s).2 = s).
Proof.
  unfold saveLastProcessedBlock. cbv zeta.
  destruct (write_fails w (toString n)); [right; by eexists|left; done].
Qed.

End Log.

Section Loop.
Import Reader Invariant.

Lemma tryGetBlock_loop_fetching getBlock blockNumber maxAttempts attempts calls :
  Forall fetching
    (tryGetBlock_loop getBlock blockNumber maxAttempts attempts calls).2.
Proof.
  funelim (tryGetBlock_loop getBlock blockNumber maxAttempts attempts calls);
    simpl.
  - done.
  - constructor; [done|]. apply Forall_app. split; [|done].
    case_decide; by repeat constructor.
  - by repeat constructor.
  - by constructor.
Qed.

Lemma fetching_quiet c acts :
  Forall fetching acts →
  Forall (λ e, ¬ announces e) (mkEntry c <$> acts)
  ∧ Forall (buffer_in_range c) (mkEntry c <$> acts).
Proof.
  intros Hf. split; apply Forall_fmap; eapply Forall_impl; try exact Hf;
    intros [] H; try done; simpl; by intros [? ?].
Qed.

Lemma fetch_batch_step w n top nextBlock fb s :
  fetch_batch w (S n) top nextBlock fb s
  = if decide (nextBlock <= top) then
      let r := tryGetBlock (getBlock w nextBlock) nextBlock maxAttempts in
      match r.1 with
      | Some block =>
          fetch_batch w n top (nextBlock + 1) (<[nextBlock := block]> fb)
            (log (BufferSet nextBlock (<[nextBlock := block]> fb)) (log_all r.2 s))
      | None => fetch_batch w n top (nextBlock + 1) fb (log_all r.2 s)
      end
    else (nextBlock, fb, s).
Proof. reflexivity. Qed.

Lemma buffer_in_range_quiet top e :
  ¬ touches_buffer e → buffer_in_range top e.
Proof. unfold touches_buffer, buffer_in_range. by destruct (action e). Qed.

Lemma fetch_batch_log w top n :
  ∀ nextBlock fb s, pending_ok top nextBlock fb s →
    let r := fetch_batch w n top nextBlock fb s in
    ∃ ext, trace r.2 = trace s ++ ext
           ∧ expectedBlockNumber r.2 = expectedBlockNumber s
           ∧ block_txt r.2 = block_txt s
           ∧ nextBlock <= r.1.1
           ∧ pending_ok top r.1.1 r.1.2 r.2
           ∧ Forall (λ e, ¬ announces e) ext
           ∧ Forall (buffer_in_range top) ext
           ∧ Forall (λ e, at_cursor e = expectedBlockNumber s) ext.
Proof.
  induction n as [|n IH]; intros nextBlock fb s Hok; cbv zeta.
  { change (fetch_batch w 0 top nextBlock fb s) with (nextBlock, fb, s).
    exists []. simpl. rewrite app_nil_r. split_and!; try done; lia. }
  rewrite fetch_batch_step.
  destruct (decide (nextBlock <= top)) as [Hle|Hgt].
  2:{ exists []. simpl. rewrite app_nil_r. split_and!; try done; lia. }
  destruct Hok as (Hc & Htop & Hkeys). cbv zeta.
  set (r := tryGetBlock (getBlock w nextBlock) nextBlock maxAttempts).
  destruct (trace_log_all r.2 s) as (Htr & Hcur & Hfile).
  assert (Forall fetching r.2) as Hfetch by apply tryGetBlock_loop_fetching.
  set (quiet := mkEntry (expectedBlockNumber s) <$> r.2) in *.
  assert (Forall (λ e, ¬ announces e) quiet
          ∧ Forall (buffer_in_range top) quiet) as [Hq1 Hq2].
  { split; apply Forall_fmap; eapply Forall_impl; try exact Hfetch;
      intros [] H; try done; simpl; by intros [? ?]. }
  assert (Forall (λ e, at_cursor e = expectedBlockNumber s) quiet) as Hq3.
  { apply Forall_fmap, Forall_true. done. }
  destruct r.1 as [block|].
  - destruct (IH (nextBlock + 1) (<[nextBlock := block]> fb)
                (log (BufferSet nextBlock (<[nextBlock := block]> fb))
                     (log_all r.2 s)))
      as (ext & Ht & Hcu & Hfi & Hnb & Hok' & Ha & Hb & Hg).
    { unfold pending_ok. simpl. rewrite Hcur. split_and!; try lia.
      intros k [->|[_ Hin]]%lookup_insert_is_Some; [lia|].
      apply Hkeys in Hin. lia. }
    simpl in Ht, Hcu, Hfi. rewrite Htr, Hcur in Ht. rewrite Hcur in Hcu.
    rewrite Hfile in Hfi.
    eexists (quiet ++ [_] ++ ext). rewrite Ht, <- !app_assoc.
    split_and!; try done; try lia.
    + apply Forall_app. split; [done|]. constructor; [by intros [? ?]|done].
    + apply Forall_app. split; [done|]. constructor; [|done].
      unfold buffer_in_range. simpl. split; [lia|].
      intros k' [->|[_ Hin]]%lookup_insert_is_Some; [lia|].
      apply Hkeys in Hin. lia.
    + apply Forall_app. split; [done|]. constructor; [done|].
      eapply Forall_impl; [exact Hg|]. simpl. intros e ->. done.
  - destruct (IH (nextBlock + 1) fb (log_all r.2 s))
      as (ext & Ht & Hcu & Hfi & Hnb & Hok' & Ha & Hb & Hg).
    { unfold pending_ok. rewrite Hcur. split_and!; try lia.
      intros k Hin. apply Hkeys in Hin. lia. }
    rewrite Htr in Ht. rewrite Hcur in Hcu. rewrite Hfile in Hfi.
    exists (quiet ++ ext). rewrite Ht, <- !app_assoc.
    split_and!; try done; try lia; try (by apply Forall_app).
    apply Forall_app. split; [done|].
    eapply Forall_impl; [exact Hg|]. simpl. intros e ->. done.
Qed.

(** A batch that starts within [top] fetches at least one block. *)
Lemma fetch_batch_advances w top n nextBlock fb s :
  pending_ok top nextBlock fb s → nextBlock <= top →
  nextBlock < (fetch_batch w (S n) top nextBlock fb s).1.1.
Proof.
  intros (Hc & Htop & Hkeys) Hle. rewrite fetch_batch_step.
  destruct (decide (nextBlock <= top)); [|lia]. cbv zeta.
  destruct (trace_log_all (tryGetBlock (getBlock w nextBlock) nextBlock
                             maxAttempts).2 s) as (_ & Hcur & _).
  destruct (tryGetBlock _ _ _).1 as [block|].
  - destruct (fetch_batch_log w top n (nextBlock + 1) (<[nextBlock := block]> fb)
                (log (BufferSet nextBlock (<[nextBlock := block]> fb))
                   (log_all (tryGetBlock (getBlock w nextBlock) nextBlock
                               maxAttempts).2 s)))
      as (_ & _ & _ & _ & Hnb & _); [|lia].
    unfold pending_ok. simpl. rewrite Hcur. split_and!; try lia.
    intros k [->|[_ Hin]]%lookup_insert_is_Some; [lia|].
    apply Hkeys in Hin. lia.
  - destruct (fetch_batch_log w top n (nextBlock + 1) fb
                (log_all (tryGetBlock (getBlock w nextBlock) nextBlock
                            maxAttempts).2 s))
      as (_ & _ & _ & _ & Hnb & _); [|lia].
    unfold pending_ok. rewrite Hcur. split_and!; try lia.
    intros k Hin. apply Hkeys in Hin. lia.
Qed.

End Loop.

Section Drain.
Import Reader Invariant.

(** The loop of [drain], unfolded once. *)
Lemma drain_once w fb s :
  drain w fb s
  = match fb !! expectedBlockNumber s with
    | None => (Return tt, fb, s)
    | Some block =>
        let rest := delete (expectedBlockNumber s) fb in
        let s1 := log (BufferDelete (expectedBlockNumber s) rest) s in
        let p := processBlock w block s1 in
        match p.1 with
        | Throw msg => (Throw msg, rest, p.2)
        | Return blockData =>
            let saved :=
              saveLastProcessedBlock w (expectedBlockNumber p.2) p.2 in
            match saved.1 with
            | Throw msg => (Throw msg, rest, saved.2)
            | Return _ =>
                let s2 := log (Emit_new_block blockData) saved.2 in
                match new_block_listener w blockData with
                | Throw msg => (Throw msg, rest, s2)
                | Return _ =>
                    drain w rest (set_cursor (expectedBlockNumber s2 + 1) s2)
                end
            end
        end
    end.
Proof.
  funelim (drain w fb s).
  - match goal with H : _ !! _ = Some _ |- _ => rewrite H end. reflexivity.
  - match goal with H : _ !! _ = None |- _ => rewrite H end. reflexivity.
Qed.

Lemma drain_log w top nextBlock :
  ∀ fb s, pending_ok top nextBlock fb s →
    ∃ ext, trace (drain w fb s).2 = trace s ++ ext
           ∧ expectedBlockNumber s <= expectedBlockNumber (drain w fb s).2
           ∧ pending_ok top nextBlock (drain w fb s).1.2 (drain w fb s).2
           ∧ checkpointed (ext ++ ending (drain w fb s).1.1 (drain w fb s).2)
           ∧ Forall (buffer_in_range top) ext
           ∧ Forall (λ e, expectedBlockNumber s <= at_cursor e) ext.
Proof.
  intros fb. induction (Nat.lt_wf_0_projected size fb) as [fb _ IH].
  intros s Hok. rewrite drain_once.
  destruct (fb !! expectedBlockNumber s) as [block|] eqn:Hcur.
  2:{ exists []. simpl. rewrite app_nil_r.
      split_and!; try done; by apply checkpointed_quiet. }
  destruct Hok as (Hc & Htop & Hkeys). cbv zeta.
  set (c := expectedBlockNumber s) in *.
  set (rest := delete c fb).
  set (s1 := log (BufferDelete c rest) s).
  destruct (processBlock_log w block s1) as (e1 & Ht1 & Hc1 & _ & Hq1).
  set (p := processBlock w block s1) in *. clearbody p.
  assert (Hc1' : expectedBlockNumber p.2 = c) by done.
  assert (Ht1' : trace p.2 = trace s ++ [mkEntry c (BufferDelete c rest)] ++ e1)
    by (rewrite Ht1; simpl; by rewrite <- app_assoc).
  clear Ht1 Hc1.
  assert (Hin : c < nextBlock) by (apply Hkeys; by rewrite Hcur).
  assert (∀ k, is_Some (rest !! k) → c + 1 <= k < nextBlock) as Hrest.
  { intros k [y Hk]. apply lookup_delete_Some in Hk as [Hne Hk].
    assert (c <= k < nextBlock) by (apply Hkeys; by eexists). lia. }
  assert (Forall (λ e, ¬ announces e) e1 ∧ Forall (buffer_in_range top) e1
          ∧ Forall (λ e, c <= at_cursor e) e1)
    as (Hq1a & Hq1b & Hq1c).
  { split_and!; eapply Forall_impl; try exact Hq1; intros e (? & ? & Hat);
      [done|by apply buffer_in_range_quiet|].
    rewrite Hat. simpl. done. }
  assert (buffer_in_range top (mkEntry c (BufferDelete c rest))) as Hdel.
  { unfold buffer_in_range. simpl. split_and!; [done|lia|].
    intros k Hk. apply Hrest in Hk. lia. }
  assert (∀ s' : State, expectedBlockNumber s' = c →
            pending_ok top nextBlock rest s') as Hstay.
  { intros s' Hs'. unfold pending_ok. rewrite Hs'. split_and!; [lia..|].
    intros k Hk. apply Hrest in Hk. lia. }
  assert (∀ msg, checkpointed
            (([mkEntry c (BufferDelete c rest)] ++ e1)
               ++ [mkEntry c (Emit_error msg)])) as Hquiet.
  { intros msg. apply checkpointed_quiet. apply Forall_app. split.
    - constructor; [by intros [? ?]|done].
    - constructor; [by intros [? ?]|done]. }
  destruct p.1 as [blockData|msg] eqn:Hp1.
  2:{ exists ([mkEntry c (BufferDelete c rest)] ++ e1).
      cbn [fst snd ending]. rewrite Ht1', Hc1'.
      split_and!; [done|lia|by apply Hstay|apply Hquiet|by constructor|
                   by constructor]. }
  rewrite Hc1'.
  destruct (saveLastProcessedBlock_log w c p.2)
    as [(Hs & _ & Hts & Hcs & _)|(msg & Hs & _ & Hst)];
    set (saved := saveLastProcessedBlock w c p.2) in *; clearbody saved;
    rewrite Hs.
  2:{ rewrite Hst. exists ([mkEntry c (BufferDelete c rest)] ++ e1).
      cbn [fst snd ending]. rewrite Ht1', Hc1'.
      split_and!; [done|lia|by apply Hstay|apply Hquiet|by constructor|
                   by constructor]. }
  rewrite Hc1' in Hts, Hcs. rewrite Ht1' in Hts.
  set (s2 := log (Emit_new_block blockData) saved.2).
  assert (expectedBlockNumber s2 = c) as Hc2 by done.
  assert (trace s2 = trace s ++ [mkEntry c (BufferDelete c rest)] ++ e1
            ++ [mkEntry c (WriteFile (toString c));
                mkEntry c (Emit_new_block blockData)]) as Ht2.
  { unfold s2. simpl. rewrite Hcs, Hts. by rewrite <- !app_assoc. }
  destruct (new_block_listener w blockData) as [[]|msg].
  - set (s3 := set_cursor (expectedBlockNumber s2 + 1) s2).
    assert (expectedBlockNumber s3 = c + 1) as Hc3
      by (unfold s3; simpl; by rewrite Hcs).
    assert (trace s3 = trace s ++ [mkEntry c (BufferDelete c rest)] ++ e1
              ++ [mkEntry c (WriteFile (toString c));
                  mkEntry c (Emit_new_block blockData);
                  mkEntry c (SetCursor (c + 1))]) as Ht3.
    { unfold s3, s2. simpl. rewrite Hcs, Hts. simpl.
      by rewrite <- !app_assoc. }
    clearbody s3.
    destruct (IH rest) with (s := s3)
      as (e2 & Ht2' & Hmono & Hok2 & Hcp2 & Hb2 & Hg2).
    { unfold rest. rewrite map_size_delete, Hcur. simpl.
      assert (size fb ≠ 0%nat); [|lia].
      intros Hz. apply map_size_empty_inv in Hz. subst fb.
      by rewrite lookup_empty in Hcur. }
    { unfold pending_ok. rewrite Hc3. split_and!; [lia..|done]. }
    exists ([mkEntry c (BufferDelete c rest)] ++ e1
            ++ [mkEntry c (WriteFile (toString c));
                mkEntry c (Emit_new_block blockData);
                mkEntry c (SetCursor (c + 1))] ++ e2).
    rewrite Ht2', Ht3, <- !app_assoc. split; [done|].
    split_and!; [lia|done|..].
    + apply checkpointed_app.
      { apply checkpointed_quiet. constructor; [by intros [? ?]|done]. }
      apply checkpointed_app; [by apply checkpointed_quiet|].
      apply (checkpointed_app [_; _; _]); [apply checkpointed_unit|done].
    + constructor; [done|]. apply Forall_app. split; [done|].
      by repeat (constructor; [done|]).
    + constructor; [done|]. apply Forall_app. split; [done|].
      repeat (constructor; [done|]).
      eapply Forall_impl; [exact Hg2|]. simpl. intros e He. lia.
  - exists ([mkEntry c (BufferDelete c rest)] ++ e1
            ++ [mkEntry c (WriteFile (toString c));
                mkEntry c (Emit_new_block blockData)]).
    cbn [fst snd ending]. rewrite Ht2, Hc2.
    split_and!; [done|lia|by apply Hstay|..].
    + rewrite <- !app_assoc. apply checkpointed_app.
      { apply checkpointed_quiet. constructor; [by intros [? ?]|done]. }
      apply checkpointed_app; [by apply checkpointed_quiet|].
      apply checkpointed_refused.
    + constructor; [done|]. apply Forall_app. split; [done|].
      by repeat (constructor; [done|]).
    + constructor; [done|]. apply Forall_app. split; [done|].
      by repeat (constructor; [done|]).
Qed.

End Drain.

Section Runs.
Import Reader Invariant.

(** The outer loop, unfolded once. *)
Lemma batches_once w top nextBlock fb s :
  batches w top nextBlock fb s
  = if decide (nextBlock <= top) then
      let b := fetch_batch w (Z.to_nat maxParallelBlocks) top nextBlock fb s in
      let d := drain w b.1.2 b.2 in
      match d.1.1 with
      | Throw msg => (Throw msg, d.2)
      | Return _ => batches w top b.1.1 d.1.2 d.2
      end
    else (Return tt, s).
Proof.
  funelim (batches w top nextBlock fb s).
  - match goal with H : decide _ = _ |- _ => rewrite H end. reflexivity.
  - match goal with H : decide _ = _ |- _ => rewrite H end. cbv zeta.
    match goal with H : fetch_batch _ _ _ _ _ _ = _ |- _ => rewrite H end.
    cbn [fst snd].
    match goal with H : drain _ _ _ = _ |- _ => rewrite H end. reflexivity.
  - match goal with H : decide _ = _ |- _ => rewrite H end. cbv zeta.
    match goal with H : fetch_batch _ _ _ _ _ _ = _ |- _ => rewrite H end.
    cbn [fst snd].
    match goal with H : drain _ _ _ = _ |- _ => rewrite H end. reflexivity.
Qed.

Lemma batches_log w top :
  ∀ nextBlock fb s, pending_ok top nextBlock fb s →
    ∃ ext, trace (batches w top nextBlock fb s).2 = trace s ++ ext
           ∧ expectedBlockNumber s
             <= expectedBlockNumber (batches w top nextBlock fb s).2
           ∧ checkpointed (ext ++ ending (batches w top nextBlock fb s).1
                                    (batches w top nextBlock fb s).2)
           ∧ Forall (buffer_in_range top) ext
           ∧ Forall (λ e, expectedBlockNumber s <= at_cursor e) ext.
Proof.
  intros nextBlock.
  induction (Nat.lt_wf_0_projected (λ nb, Z.to_nat (top + 1 - nb)) nextBlock)
    as [nextBlock _ IH].
  intros fb s Hok. rewrite batches_once.
  destruct (decide (nextBlock <= top)) as [Hle|Hgt].
  2:{ exists []. simpl. rewrite app_nil_r.
      split_and!; try done; by apply checkpointed_quiet. }
  cbv zeta.
  change (Z.to_nat maxParallelBlocks) with 5%nat.
  pose proof (fetch_batch_advances w top 4 nextBlock fb s Hok Hle) as Hadv.
  destruct (fetch_batch_log w top 5 nextBlock fb s Hok)
    as (e1 & Ht1 & Hc1 & _ & _ & Hok1 & Hq1 & Hb1 & Hg1).
  assert (Forall (λ e, expectedBlockNumber s <= at_cursor e) e1) as Hg1'.
  { eapply Forall_impl; [exact Hg1|]. simpl. intros e ->. done. }
  set (b := fetch_batch w 5 top nextBlock fb s) in *. clearbody b.
  destruct (drain_log w top b.1.1 b.1.2 b.2 Hok1)
    as (e2 & Ht2 & Hc2 & Hok2 & Hcp2 & Hb2 & Hg2).
  assert (Forall (λ e, expectedBlockNumber s <= at_cursor e) e2) as Hg2'.
  { eapply Forall_impl; [exact Hg2|]. simpl. intros e He. lia. }
  set (d := drain w b.1.2 b.2) in *. clearbody d.
  destruct d.1.1 as [[]|msg].
  - destruct (IH b.1.1) with (fb := d.1.2) (s := d.2)
      as (e3 & Ht3 & Hc3 & Hcp3 & Hb3 & Hg3); [lia|done|].
    exists (e1 ++ e2 ++ e3). rewrite Ht3, Ht2, Ht1, <- !app_assoc.
    split_and!; [done|lia|..].
    + apply checkpointed_app; [by apply checkpointed_quiet|].
      simpl in Hcp2. rewrite app_nil_r in Hcp2. by apply checkpointed_app.
    + by rewrite !Forall_app.
    + rewrite !Forall_app. split_and!; [done..|].
      eapply Forall_impl; [exact Hg3|]. simpl. intros e He. lia.
  - exists (e1 ++ e2). cbn [fst snd]. rewrite Ht2, Ht1, <- !app_assoc.
    split_and!; [done|lia|..].
    + apply checkpointed_app; [by apply checkpointed_quiet|done].
    + by rewrite !Forall_app.
    + by rewrite !Forall_app.
Qed.

End Runs.

Section Reader_claims.
Import Reader Invariant Scenario.

Lemma size_in_range {A} (m : gmap Z A) (a b : Z) :
  a <= b + 1 → (∀ k, is_Some (m !! k) → a <= k <= b) →
  Z.of_nat (size m) <= b - a + 1.
Proof.
  intros Hab Hkeys.
  assert (dom m ⊆ (list_to_set (seqZ a (b - a + 1)) : gset Z)) as Hsub.
  { intros k Hk. apply elem_of_dom in Hk. apply Hkeys in Hk.
    apply elem_of_list_to_set, elem_of_seqZ. lia. }
  apply subseteq_size in Hsub.
  rewrite size_dom, size_list_to_set, length_seqZ in Hsub by apply NoDup_seqZ.
  lia.
Qed.

Lemma readBlocksLoop_log w head s :
  ∃ ext, trace (readBlocksLoop w head s) = trace s ++ ext
         ∧ checkpointed ext
         ∧ Forall (λ e, expectedBlockNumber s <= at_cursor e) ext
         ∧ ∀ h, head = Return h →
             Forall (buffer_in_range (Z.max h (expectedBlockNumber s))) ext.
Proof.
  unfold readBlocksLoop. destruct head as [h|msg].
  2:{ eexists [_]. split; [done|]. split_and!.
      - apply checkpointed_quiet. constructor; [by intros [? ?]|done].
      - constructor; [simpl; lia|done].
      - intros h [=]. }
  cbv zeta. set (c := expectedBlockNumber s).
  assert ((if h <? c then c else h) = Z.max h c) as ->
    by (case_match eqn:Hlt; [apply Z.ltb_lt in Hlt|apply Z.ltb_ge in Hlt]; lia).
  destruct (batches_log w (Z.max h c) c ∅ s) as (ext & Ht & Hc & Hcp & Hb & Hg).
  { unfold pending_ok. fold c. split_and!; [lia..|].
    intros k [x Hk]. by rewrite lookup_empty in Hk. }
  set (r := batches w (Z.max h c) c ∅ s) in *. clearbody r.
  destruct r.1 as [[]|msg] eqn:Hr1; simpl in Hcp.
  - rewrite app_nil_r in Hcp. exists ext. split_and!; try done.
    by intros ? [= <-].
  - exists (ext ++ [mkEntry (expectedBlockNumber r.2) (Emit_error msg)]).
    simpl. rewrite Ht, <- app_assoc. split_and!; [done|done|..].
    + apply Forall_app. split; [done|]. constructor; [simpl; lia|done].
    + intros ? [= <-]. apply Forall_app. split; [done|]. by constructor.
Qed.




(** *** The checkpoint file and the log *)

(** What every step of the reader keeps, given that the elementary steps
    keep it. *)
Section Preserved.
Variable I : State → Prop.
Hypothesis I_log : ∀ a s, (∀ data, a ≠ WriteFile data) → I s → I (log a s).
Hypothesis I_set_cursor : ∀ n s, I s → I (set_cursor n s).
Hypothesis I_save : ∀ w n s, I s → I (saveLastProcessedBlock w n s).2.

Lemma log_all_keeps acts s :
  Forall fetching acts → I s → I (log_all acts s).
Proof using I_log.
  intros Hf. revert s. induction Hf as [|a acts Ha _ IH]; intros s Hs; [done|].
  simpl. apply IH, I_log; [|done]. intros data ->. done.
Qed.

Lemma fetch_batch_keeps w top n :
  ∀ nextBlock fb s, I s → I (fetch_batch w n top nextBlock fb s).2.
Proof using I_log.
  induction n as [|n IH]; intros nextBlock fb s Hs; [done|].
  rewrite fetch_batch_step. case_decide; [|done]. cbv zeta.
  assert (I (log_all (tryGetBlock (getBlock w nextBlock) nextBlock
                        maxAttempts).2 s)) as Hs1
    by (apply log_all_keeps; [apply tryGetBlock_loop_fetching|done]).
  case_match; apply IH; [|done]. by apply I_log.
Qed.

Lemma drain_keeps w :
  (∀ block s, I s → I (processBlock w block s).2) →
  ∀ fb s, I s → I (drain w fb s).2.
Proof using I_log I_set_cursor I_save.
  intros Hblock fb. induction (Nat.lt_wf_0_projected size fb) as [fb _ IH].
  intros s Hs. rewrite drain_once.
  destruct (fb !! expectedBlockNumber s) as [block|] eqn:Hcur; [|done].
  cbv zeta.
  set (s1 := log (BufferDelete (expectedBlockNumber s)
                    (delete (expectedBlockNumber s) fb)) s).
  assert (I (processBlock w block s1).2) as Hp
    by (apply Hblock, I_log; done).
  set (p := processBlock w block s1) in *. clearbody p.
  destruct p.1 as [blockData|msg]; [|done].
  pose proof (I_save w (expectedBlockNumber p.2) p.2 Hp) as Hsave.
  set (saved := saveLastProcessedBlock w (expectedBlockNumber p.2) p.2) in *.
  clearbody saved.
  destruct saved.1 as [[]|msg]; [|done].
  assert (I (log (Emit_new_block blockData) saved.2)) as Hs2
    by (by apply I_log).
  destruct (new_block_listener w blockData) as [[]|msg]; [|done].
  apply IH; [|by apply I_set_cursor].
  rewrite map_size_delete, Hcur. simpl.
  assert (size fb ≠ 0%nat); [|lia].
  intros Hz. apply map_size_empty_inv in Hz. subst fb.
  by rewrite lookup_empty in Hcur.
Qed.

Lemma batches_keeps w top :
  (∀ block s, I s → I (processBlock w block s).2) →
  ∀ nextBlock fb s, pending_ok top nextBlock fb s →
    I s → I (batches w top nextBlock fb s).2.
Proof using I_log I_set_cursor I_save.
  intros Hblock nextBlock.
  induction (Nat.lt_wf_0_projected (λ nb, Z.to_nat (top + 1 - nb)) nextBlock)
    as [nextBlock _ IH].
  intros fb s Hok Hs. rewrite batches_once.
  destruct (decide (nextBlock <= top)) as [Hle|Hgt]; [|done]. cbv zeta.
  change (Z.to_nat maxParallelBlocks) with 5%nat.
  pose proof (fetch_batch_advances w top 4 nextBlock fb s Hok Hle) as Hadv.
  destruct (fetch_batch_log w top 5 nextBlock fb s Hok)
    as (_ & _ & _ & _ & _ & Hok1 & _).
  pose proof (fetch_batch_keeps w top 5 nextBlock fb s Hs) as Hs1.
  set (b := fetch_batch w 5 top nextBlock fb s) in *. clearbody b.
  destruct (drain_log w top b.1.1 b.1.2 b.2 Hok1) as (_ & _ & _ & Hok2 & _).
  pose proof (drain_keeps w Hblock b.1.2 b.2 Hs1) as Hs2.
  set (d := drain w b.1.2 b.2) in *. clearbody d.
  destruct d.1.1 as [[]|msg]; [|done].
  apply IH; [lia|done..].
Qed.

Lemma readBlocksLoop_keeps w head s :
  (∀ block s, I s → I (processBlock w block s).2) →
  I s → I (readBlocksLoop w head s).
Proof using I_log I_set_cursor I_save.
  intros Hblock Hs. unfold readBlocksLoop.
  destruct head as [h|msg]; [|by apply I_log].
  cbv zeta. set (c := expectedBlockNumber s).
  assert ((if h <? c then c else h) = Z.max h c) as ->
    by (case_match eqn:Hlt; [apply Z.ltb_lt in Hlt|apply Z.ltb_ge in Hlt]; lia).
  assert (I (batches w (Z.max h c) c ∅ s).2) as Hs1.
  { apply batches_keeps; [done| |done].
    unfold pending_ok. fold c. split_and!; [lia..|].
    intros k [x Hk]. by rewrite lookup_empty in Hk. }
  destruct (batches w (Z.max h c) c ∅ s).1 as [[]|msg]; [done|].
  by apply I_log.
Qed.

Lemma runs_keeps later :
  (∀ wh block s, wh ∈ later → I s → I (processBlock wh.1 block s).2) →
  ∀ s, I s → I (runs later s).
Proof using I_log I_set_cursor I_save.
  induction later as [|[w head] later IH]; intros Hblock s Hs; [done|].
  simpl. apply IH.
  - intros wh block s' Hwh. apply Hblock. by right.
  - apply readBlocksLoop_keeps; [|done].
    intros block s'. apply (Hblock (w, head)). left.
Qed.

Lemma resume_keeps w currentBlock s : I s → I (resume w currentBlock s).
Proof using I_log I_set_cursor I_save.
  intros Hs. unfold resume. cbv zeta. apply I_set_cursor.
  unfold loadLastProcessedBlock.
  destruct (block_txt s), currentBlock; cbv zeta; try (by apply I_log);
    try case_match; try done;
    match goal with
    | |- context [saveLastProcessedBlock w ?n s] =>
        pose proof (I_save w n s Hs);
        destruct (saveLastProcessedBlock w n s) as [[[]|] ?]; simpl in *;
        try done; by apply I_log
    end.
Qed.

End Preserved.











End Reader_claims.

Section Full_batches.
Import Reader Invariant Scenario.

(** A batch never looks further than its size allows. *)
Lemma fetch_batch_capped w n :
  ∀ top nextBlock fb s,
    fetch_batch w n top nextBlock fb s
    = fetch_batch w n (Z.min top (nextBlock + Z.of_nat n - 1)) nextBlock fb s.
Proof.
  induction n as [|n IH]; intros top nextBlock fb s; [done|].
  rewrite !fetch_batch_step.
  destruct (decide (nextBlock <= top)), (decide (nextBlock <= _)); try lia; [|done].
  cbv zeta.
  destruct (tryGetBlock _ _ _).1 as [block|];
    rewrite (IH top (nextBlock + 1)),
      (IH (Z.min top (nextBlock + Z.of_nat (S n) - 1)) (nextBlock + 1));
    f_equal; lia.
Qed.

Lemma buffer_in_range_at_most top c n e :
  c <= at_cursor e → top - c + 1 <= n →
  buffer_in_range top e → buffer_at_most n e.
Proof.
  unfold buffer_in_range, buffer_at_most. intros Hc Hn.
  destruct (action e); try done.
  - intros [Hle Hkeys]. etrans; [apply (size_in_range _ (at_cursor e) top)|];
      [lia|done|lia].
  - intros (_ & Hle & Hkeys).
    etrans; [apply (size_in_range _ (at_cursor e) top)|]; [lia| |lia].
    intros k' Hk'. apply Hkeys in Hk'. lia.
Qed.

(** When every fetch of a batch finds its block, the buffer holds all of
    the batch. *)
Lemma fetch_batch_all_found w top n :
  ∀ nextBlock fb s c,
    (∀ k, nextBlock <= k <= top →
          is_Some (tryGetBlock (getBlock w k) k maxAttempts).1) →
    (∀ k, c <= k < nextBlock → is_Some (fb !! k)) →
    ∀ k, c <= k < (fetch_batch w n top nextBlock fb s).1.1 →
         is_Some ((fetch_batch w n top nextBlock fb s).1.2 !! k).
Proof.
  induction n as [|n IH]; intros nextBlock fb s c Hfound Hall; [done|].
  rewrite fetch_batch_step. destruct (decide (nextBlock <= top)); [|done].
  cbv zeta. destruct (Hfound nextBlock) as [block Hblock]; [lia|].
  rewrite Hblock. apply IH.
  - intros k Hk. apply Hfound. lia.
  - intros k Hk. apply lookup_insert_is_Some.
    destruct (decide (nextBlock = k)); [by left|right].
    split; [done|]. apply Hall. lia.
Qed.

(** When the buffer holds every block from the cursor to the next block to
    fetch, the drain consumes them all, unless something throws. *)
Lemma drain_consumes w top nextBlock :
  ∀ fb s, pending_ok top nextBlock fb s →
    (∀ k, expectedBlockNumber s <= k < nextBlock → is_Some (fb !! k)) →
    ∀ u, (drain w fb s).1.1 = Return u →
         expectedBlockNumber (drain w fb s).2 = nextBlock.
Proof.
  intros fb. induction (Nat.lt_wf_0_projected size fb) as [fb _ IH].
  intros s Hok Hall u. rewrite drain_once.
  destruct (fb !! expectedBlockNumber s) as [block|] eqn:Hcur.
  2:{ intros _. simpl. destruct Hok as (Hc & _ & _).
      destruct (decide (expectedBlockNumber s = nextBlock)); [done|].
      destruct (Hall (expectedBlockNumber s)) as [x Hx]; [lia|]. congruence. }
  destruct Hok as (Hc & Htop & Hkeys). cbv zeta.
  set (c := expectedBlockNumber s) in *.
  set (rest := delete c fb).
  set (s1 := log (BufferDelete c rest) s).
  destruct (processBlock_log w block s1) as (e1 & _ & Hc1 & _ & _).
  set (p := processBlock w block s1) in *. clearbody p.
  assert (Hc1' : expectedBlockNumber p.2 = c) by done.
  destruct p.1 as [blockData|msg]; [|done]. rewrite Hc1'.
  assert (Hin : c < nextBlock) by (apply Hkeys; by rewrite Hcur).
  destruct (saveLastProcessedBlock_log w c p.2)
    as [(Hs & _ & _ & Hcs & _)|(msg & Hs & _ & _)];
    set (saved := saveLastProcessedBlock w c p.2) in *; clearbody saved;
    rewrite Hs; [|done].
  rewrite Hc1' in Hcs.
  destruct (new_block_listener w blockData) as [[]|msg]; [|done].
  set (s3 := set_cursor _ _).
  assert (expectedBlockNumber s3 = c + 1) as Hc3
    by (unfold s3; simpl; by rewrite Hcs).
  clearbody s3. apply IH.
  - unfold rest. rewrite map_size_delete, Hcur. simpl.
    assert (size fb ≠ 0%nat); [|lia].
    intros Hz. apply map_size_empty_inv in Hz. subst fb.
    by rewrite lookup_empty in Hcur.
  - unfold pending_ok. rewrite Hc3. split_and!; [lia..|].
    intros k [x [Hne Hk]%lookup_delete_Some].
    assert (c <= k < nextBlock) by (apply Hkeys; by eexists). lia.
  - rewrite Hc3. intros k Hk. unfold rest.
    destruct (Hall k) as [x Hx]; [lia|]. exists x.
    apply lookup_delete_Some. split; [lia|done].
Qed.

(** When every block from the cursor to [top] is found, the buffer never
    holds more than a batch. *)
Lemma batches_at_most_a_batch w top :
  ∀ nextBlock fb s,
    pending_ok top nextBlock fb s → expectedBlockNumber s = nextBlock →
    (∀ k, nextBlock <= k <= top →
          is_Some (tryGetBlock (getBlock w k) k maxAttempts).1) →
    ∃ ext, trace (batches w top nextBlock fb s).2 = trace s ++ ext
           ∧ Forall (buffer_at_most maxParallelBlocks) ext.
Proof.
  intros nextBlock.
  induction (Nat.lt_wf_0_projected (λ nb, Z.to_nat (top + 1 - nb)) nextBlock)
    as [nextBlock _ IH].
  intros fb s Hok Hcur Hfound. rewrite batches_once.
  destruct (decide (nextBlock <= top)) as [Hle|Hgt].
  2:{ exists []. simpl. by rewrite app_nil_r. }
  cbv zeta. change (Z.to_nat maxParallelBlocks) with 5%nat.
  set (top' := Z.min top (nextBlock + Z.of_nat 5 - 1)).
  assert (pending_ok top' nextBlock fb s) as Hok'.
  { destruct Hok as (Hc & Htop & Hkeys). unfold pending_ok, top'.
    split_and!; [done|lia|done]. }
  pose proof (fetch_batch_advances w top 4 nextBlock fb s Hok Hle) as Hadv.
  assert (∀ k, expectedBlockNumber s <= k
               < (fetch_batch w 5 top nextBlock fb s).1.1 →
               is_Some ((fetch_batch w 5 top nextBlock fb s).1.2 !! k)) as Hfull.
  { apply fetch_batch_all_found; [done|]. intros k Hk. lia. }
  destruct (fetch_batch_log w top 5 nextBlock fb s Hok)
    as (_ & _ & _ & _ & _ & Hok1 & _).
  rewrite (fetch_batch_capped w 5 top) in Hadv, Hfull, Hok1 |- *.
  fold top' in Hadv, Hfull, Hok1 |- *.
  destruct (fetch_batch_log w top' 5 nextBlock fb s Hok')
    as (e1 & Ht1 & Hc1 & _ & _ & Hok1' & _ & Hb1 & Hg1).
  set (b := fetch_batch w 5 top' nextBlock fb s) in *. clearbody b.
  rewrite <- Hc1 in Hfull.
  pose proof (drain_consumes w top b.1.1 b.1.2 b.2 Hok1 Hfull) as Hdone.
  destruct (drain_log w top' b.1.1 b.1.2 b.2 Hok1')
    as (e2 & Ht2 & Hc2 & _ & _ & Hb2 & Hg2).
  destruct (drain_log w top b.1.1 b.1.2 b.2 Hok1) as (_ & _ & _ & Hok2 & _).
  set (d := drain w b.1.2 b.2) in *. clearbody d.
  assert (Forall (buffer_at_most maxParallelBlocks) (e1 ++ e2)) as Hsmall.
  { apply Forall_app. split.
    - rewrite Forall_forall in Hb1, Hg1 |- *. intros e He.
      apply (buffer_in_range_at_most top' nextBlock); [|unfold top', maxParallelBlocks; lia|by apply Hb1].
      rewrite (Hg1 e He). lia.
    - rewrite Forall_forall in Hb2, Hg2 |- *. intros e He.
      apply (buffer_in_range_at_most top' nextBlock); [|unfold top', maxParallelBlocks; lia|by apply Hb2].
      specialize (Hg2 e He). simpl in Hg2. lia. }
  destruct d.1.1 as [u|msg] eqn:Hd.
  - destruct (IH b.1.1) with (fb := d.1.2) (s := d.2) as (e3 & Ht3 & Hs3);
      [lia|done|by eapply Hdone|..].
    { intros k Hk. apply Hfound. lia. }
    exists (e1 ++ e2 ++ e3). rewrite Ht3, Ht2, Ht1, <- !app_assoc.
    split; [done|]. rewrite app_assoc. by apply Forall_app.
  - exists (e1 ++ e2). cbn [snd]. rewrite Ht2, Ht1, <- !app_assoc. done.
Qed.

Lemma readBlocksLoop_at_most_a_batch w head s :
  (∀ k, expectedBlockNumber s <= k <= Z.max head (expectedBlockNumber s) →
        is_Some (tryGetBlock (getBlock w k) k maxAttempts).1) →
  ∃ ext, trace (readBlocksLoop w (Return head) s) = trace s ++ ext
         ∧ Forall (buffer_at_most maxParallelBlocks) ext.
Proof.
  intros Hfound. unfold readBlocksLoop. cbv zeta.
  set (c := expectedBlockNumber s) in *.
  assert ((if head <? c then c else head) = Z.max head c) as ->
    by (case_match eqn:Hlt; [apply Z.ltb_lt in Hlt|apply Z.ltb_ge in Hlt]; lia).
  destruct (batches_at_most_a_batch w (Z.max head c) c ∅ s)
    as (ext & Ht & Hsmall); [|done|done|].
  { unfold pending_ok. fold c. split_and!; [lia..|].
    intros k [x Hk]. by rewrite lookup_empty in Hk. }
  set (r := batches w (Z.max head c) c ∅ s) in *. clearbody r.
  destruct r.1 as [[]|msg].
  - by exists ext.
  - exists (ext ++ [mkEntry (expectedBlockNumber r.2) (Emit_error msg)]).
    simpl. rewrite Ht, <- app_assoc. split; [done|].
    apply Forall_app. split; [done|]. by constructor.
Qed.

End Full_batches.

Section Buffer_claim.
Import Reader Invariant Scenario.

(** C9, as the code has it.  During one run of the loop, after each change
    of the pending buffer, the buffer only holds blocks numbered from the
    cursor up to the height the run started with (the cursor itself if the
    height is behind it), so it has at most that many entries; the only
    entry ever removed is the one at the cursor; and as long as no fetch of
    the run is given up, the buffer has at most [maxParallelBlocks]
    entries. *)
Theorem pending_buffer_in_range (w : World) (head : Z) (s : State) :
  let top := Z.max head (expectedBlockNumber s) in
  ∃ ext, trace (readBlocksLoop w (Return head) s) = trace s ++ ext
    ∧ (∀ e k m, e ∈ ext →
         action e = BufferSet k m ∨ action e = BufferDelete k m →
         (∀ k', is_Some (m !! k') → at_cursor e <= k' <= top)
         ∧ Z.of_nat (size m) <= top - at_cursor e + 1
         ∧ (action e = BufferDelete k m → k = at_cursor e ∧ m !! k = None))
    ∧ ((∀ n, expectedBlockNumber s <= n <= top →
             is_Some (tryGetBlock (getBlock w n) n maxAttempts).1) →
       ∀ e k m, e ∈ ext →
         action e = BufferSet k m ∨ action e = BufferDelete k m →
         Z.of_nat (size m) <= maxParallelBlocks).
Proof.
  intros top.
  destruct (readBlocksLoop_log w (Return head) s) as (ext & Ht & _ & _ & Hb).
  specialize (Hb head eq_refl). fold top in Hb.
  exists ext. split; [done|]. split.
  - intros e k m He Hact.
    rewrite Forall_forall in Hb. specialize (Hb e He).
    unfold buffer_in_range in Hb.
    destruct Hact as [Hact|Hact]; rewrite Hact in Hb.
    + destruct Hb as (Hle & Hkeys). split_and!; [done| |].
      * apply size_in_range; [lia|done].
      * intros Hd. rewrite Hd in Hact. discriminate Hact.
    + destruct Hb as (-> & Hle & Hkeys).
      assert (∀ k', is_Some (m !! k') → at_cursor e <= k' <= top) as Hkeys'.
      { intros k' Hk'. apply Hkeys in Hk'. lia. }
      split_and!; [done| |].
      * apply size_in_range; [lia|done].
      * intros _. split; [done|].
        destruct (m !! at_cursor e) eqn:Hk; [|done].
        assert (at_cursor e < at_cursor e <= top) by (apply Hkeys; by eexists).
        lia.
  - intros Hfound e k m He Hact.
    destruct (readBlocksLoop_at_most_a_batch w head s Hfound)
      as (ext' & Ht' & Hsmall).
    rewrite Ht in Ht'. apply app_inv_head in Ht'. subst ext'.
    rewrite Forall_forall in Hsmall. specialize (Hsmall e He).
    unfold buffer_at_most in Hsmall.
    by destruct Hact as [Hact|Hact]; rewrite Hact in Hsmall.
Qed.

Lemma pending_buffer_in_range_example :
  (∀ n, 100 <= n <= 109 →
        is_Some (tryGetBlock (getBlock healthy n) n maxAttempts).1)
  ∧ ∃ ext,
      trace (readBlocksLoop healthy (Return 109)
               (mkState 100 [] [] (Some "99") []))
      = [] ++ ext
      ∧ (∀ e k m, e ∈ ext →
           action e = BufferSet k m ∨ action e = BufferDelete k m →
           (∀ k', is_Some (m !! k') → at_cursor e <= k' <= 109)
           ∧ Z.of_nat (size m) <= 109 - at_cursor e + 1
           ∧ (action e = BufferDelete k m → k = at_cursor e ∧ m !! k = None))
      ∧ (∀ e k m, e ∈ ext →
           action e = BufferSet k m ∨ action e = BufferDelete k m →
           Z.of_nat (size m) <= maxParallelBlocks).
Proof.
  assert (∀ n, 100 <= n <= 109 →
            is_Some (tryGetBlock (getBlock healthy n) n maxAttempts).1)
    as Hfound.
  { intros n _. unfold tryGetBlock, maxAttempts.
    rewrite (tryGetBlock_loop_found _ _ _ _ _ (Some (block_at n)));
      [by eexists|lia|done|done]. }
  split; [exact Hfound|].
  destruct (pending_buffer_in_range healthy 109
              (mkState 100 [] [] (Some "99") []))
    as (ext & Ht & Hrange & Hsmall).
  exists ext. split; [exact Ht|]. split; [exact Hrange|].
  exact (Hsmall Hfound).
Defined.

(** C9 fails as stated: block 100 is given up while blocks 101 to 109
    arrive, over two batches of five; nothing can be drained, and the
    buffer ends with nine entries. *)
Lemma pending_buffer_exceeds_batch_size :
  expectedBlockNumber (resume (missing 100) (Return 109) (init (Some "99"))) = 100
  ∧ buffer_sizes
      (trace (start (missing 100) (Return 109) (Return 109) (init (Some "99"))))
    = [1; 2; 3; 4; 5; 6; 7; 8; 9]%nat
  ∧ ¬ Forall (λ n, (n <= Z.to_nat maxParallelBlocks)%nat)
        (buffer_sizes
           (trace (start (missing 100) (Return 109) (Return 109)
                     (init (Some "99"))))).
Proof.
  assert (buffer_sizes
            (trace (start (missing 100) (Return 109) (Return 109)
                      (init (Some "99"))))
          = [1; 2; 3; 4; 5; 6; 7; 8; 9]%nat) as Hsizes
    by (vm_compute; reflexivity).
  split; [vm_compute; reflexivity|]. split; [exact Hsizes|].
  rewrite Hsizes. intros Hall. rewrite !Forall_cons in Hall.
  change (Z.to_nat maxParallelBlocks) with 5%nat in Hall. lia.
Qed.

End Buffer_claim.

Section Startup.
Import Reader Invariant Scenario.

Lemma tryGetBlock_first_call getBlock blockNumber :
  ∃ acts, (tryGetBlock getBlock blockNumber maxAttempts).2
          = Call_getBlock blockNumber :: acts.
Proof.
  unfold tryGetBlock, maxAttempts.
  destruct (getBlock 0%nat) as [r|msg] eqn:H0.
  - destruct (usable r) eqn:Hr.
    + rewrite (tryGetBlock_loop_found _ _ _ _ _ r) by (lia || done). by eexists.
    + rewrite (tryGetBlock_loop_no_hash _ _ _ _ _ r) by (lia || done).
      by eexists.
  - rewrite (tryGetBlock_loop_throw _ _ _ _ _ msg) by (lia || done).
    by eexists.
Qed.

(** A run starts by asking for the block at the cursor, and nothing it does
    happens with the cursor below where it started. *)
Lemma readBlocksLoop_first_fetch w head s :
  ∃ rest,
    trace (readBlocksLoop w (Return head) s)
    = trace s ++ mkEntry (expectedBlockNumber s)
                   (Call_getBlock (expectedBlockNumber s)) :: rest
    ∧ Forall (λ e, expectedBlockNumber s <= at_cursor e) rest.
Proof.
  destruct (readBlocksLoop_log w (Return head) s) as (ext & Ht & _ & Hg & _).
  rewrite Ht.
  assert (∃ rest, ext = mkEntry (expectedBlockNumber s)
                          (Call_getBlock (expectedBlockNumber s)) :: rest)
    as [rest ->].
  2:{ exists rest. split; [done|]. by apply Forall_cons in Hg as [_ ?]. }
  apply (f_equal (drop (length (trace s)))) in Ht.
  rewrite drop_app_length in Ht. rewrite <- Ht. clear Ht Hg ext.
  unfold readBlocksLoop. cbv zeta. set (c := expectedBlockNumber s).
  assert ((if head <? c then c else head) = Z.max head c) as ->
    by (case_match eqn:Hlt; [apply Z.ltb_lt in Hlt|apply Z.ltb_ge in Hlt]; lia).
  set (top := Z.max head c).
  assert (pending_ok top c ∅ s) as Hok.
  { unfold pending_ok. fold c. split_and!; [lia..|].
    intros k [x Hk]. by rewrite lookup_empty in Hk. }
  assert (∃ rest, trace (batches w top c ∅ s).2
                  = trace s ++ mkEntry c (Call_getBlock c) :: rest)
    as [rest Hrest].
  { rewrite batches_once. destruct (decide (c <= top)); [|lia]. cbv zeta.
    change (Z.to_nat maxParallelBlocks) with 5%nat.
    rewrite fetch_batch_step. destruct (decide (c <= top)); [|lia]. cbv zeta.
    destruct (tryGetBlock_first_call (getBlock w c) c) as [acts Hacts].
    destruct (trace_log_all (tryGetBlock (getBlock w c) c maxAttempts).2 s)
      as (Htr & Hcur & _).
    fold c in Htr, Hcur.
    set (s1 := log_all (tryGetBlock (getBlock w c) c maxAttempts).2 s) in *.
    clearbody s1. rewrite Hacts in Htr. cbn [fmap list_fmap] in Htr.
    assert (∀ fb s2 pre,
              trace s2 = trace s ++ mkEntry c (Call_getBlock c) :: pre →
              pending_ok top (c + 1) fb s2 →
              ∃ rest,
                trace (let b := fetch_batch w 4 top (c + 1) fb s2 in
                       let d := drain w b.1.2 b.2 in
                       match d.1.1 with
                       | Return _ => batches w top b.1.1 d.1.2 d.2
                       | Throw msg => (Throw msg, d.2)
                       end).2
                = trace s ++ mkEntry c (Call_getBlock c) :: rest) as Hgo.
    { intros fb s2 pre Hs2 Hok2. cbv zeta.
      destruct (fetch_batch_log w top 4 (c + 1) fb s2 Hok2)
        as (e1 & Ht1 & _ & _ & _ & Hok1 & _).
      set (b := fetch_batch w 4 top (c + 1) fb s2) in *. clearbody b.
      destruct (drain_log w top b.1.1 b.1.2 b.2 Hok1)
        as (e2 & Ht2 & _ & Hok3 & _).
      set (d := drain w b.1.2 b.2) in *. clearbody d.
      destruct d.1.1 as [[]|msg].
      - destruct (batches_log w top b.1.1 d.1.2 d.2 Hok3) as (e3 & Ht3 & _).
        rewrite Ht3, Ht2, Ht1, Hs2, <- !app_assoc. simpl. by eexists.
      - cbn [snd]. rewrite Ht2, Ht1, Hs2, <- !app_assoc. simpl. by eexists. }
    destruct (tryGetBlock (getBlock w c) c maxAttempts).1 as [block|].
    - eapply (Hgo _ _ (_ ++ [_])).
      + simpl. rewrite Htr, <- app_assoc. simpl. done.
      + unfold pending_ok. simpl. rewrite Hcur. split_and!; [lia..|].
        intros k [->|[_ [x Hk]]]%lookup_insert_is_Some; [lia|].
        by rewrite lookup_empty in Hk.
    - eapply Hgo; [exact Htr|].
      unfold pending_ok. rewrite Hcur. split_and!; [lia..|].
      intros k [x Hk]. by rewrite lookup_empty in Hk. }
  set (r := batches w top c ∅ s) in *. clearbody r.
  destruct r.1 as [[]|msg].
  - rewrite Hrest, drop_app_length. by eexists.
  - simpl. rewrite Hrest, <- app_assoc, drop_app_length. simpl. by eexists.
Qed.

End Startup.

Section Resume.
Import Reader Invariant Scenario.

Lemma loadLastProcessedBlock_checkpoint w C H s :
  block_txt s = Some (toString C) →
  loadLastProcessedBlock w (Return H) s
  = if (rereadBlocks <? H - C) || (C =? 0) then
      let saved := saveLastProcessedBlock w (H - rereadBlocks) s in
      match saved.1 with
      | Return _ => (H - rereadBlocks, saved.2)
      | Throw msg => (C, log (Emit_error msg) saved.2)
      end
    else (C, s).
Proof.
  intros Hfile. unfold loadLastProcessedBlock.
  rewrite Hfile, parseInt_toString. reflexivity.
Qed.

(** C4, as the code has it.  The reader starts over a checkpoint file that
    holds [C] while the chain is at height [H].
    - If [C] is not 0 and [H - C] is at most the replay window, the cursor
      is set to [C + 1], the file is left alone and no error is emitted;
      the first run starts by fetching block [C + 1] and does nothing with
      the cursor below [C + 1].
    - If [H - C] exceeds the window and the disk takes the write, the
      checkpoint becomes [H - window], the cursor [H - window + 1], and no
      error is emitted; the first run starts by fetching that block. *)
Theorem resume_point (w : World) (C H head : Z) :
  let s0 := init (Some (toString C)) in
  (C ≠ 0 → H - C <= rereadBlocks →
     resume w (Return H) s0
     = mkState (C + 1) [] [] (Some (toString C)) [mkEntry 0 (SetCursor (C + 1))]
     ∧ ∃ rest,
         trace (start w (Return H) (Return head) s0)
         = mkEntry 0 (SetCursor (C + 1))
           :: mkEntry (C + 1) (Call_getBlock (C + 1)) :: rest
         ∧ Forall (λ e, C + 1 <= at_cursor e) rest)
  ∧ (rereadBlocks < H - C →
     write_fails w (toString (H - rereadBlocks)) = false →
     resume w (Return H) s0
     = mkState (H - rereadBlocks + 1) [] [] (Some (toString (H - rereadBlocks)))
         [mkEntry 0 (WriteFile (toString (H - rereadBlocks)));
          mkEntry 0 (SetCursor (H - rereadBlocks + 1))]
     ∧ ∃ rest,
         trace (start w (Return H) (Return head) s0)
         = mkEntry 0 (WriteFile (toString (H - rereadBlocks)))
           :: mkEntry 0 (SetCursor (H - rereadBlocks + 1))
           :: mkEntry (H - rereadBlocks + 1)
                (Call_getBlock (H - rereadBlocks + 1)) :: rest
         ∧ Forall (λ e, H - rereadBlocks + 1 <= at_cursor e) rest).
Proof.
  intros s0. split.
  - intros Hnz Hnear.
    assert (resume w (Return H) s0
            = mkState (C + 1) [] [] (Some (toString C))
                [mkEntry 0 (SetCursor (C + 1))]) as Hres.
    { unfold resume. cbv zeta.
      rewrite (loadLastProcessedBlock_checkpoint w C H s0) by done.
      assert ((rereadBlocks <? H - C) = false) as -> by (apply Z.ltb_ge; lia).
      assert ((C =? 0) = false) as -> by (apply Z.eqb_neq; lia).
      reflexivity. }
    split; [exact Hres|]. unfold start. rewrite Hres.
    destruct (readBlocksLoop_first_fetch w head
                (mkState (C + 1) [] [] (Some (toString C))
                   [mkEntry 0 (SetCursor (C + 1))])) as (rest & Ht & Hg).
    exists rest. split; [exact Ht|exact Hg].
  - intros Hfar Hdisk.
    assert (resume w (Return H) s0
            = mkState (H - rereadBlocks + 1) [] []
                (Some (toString (H - rereadBlocks)))
                [mkEntry 0 (WriteFile (toString (H - rereadBlocks)));
                 mkEntry 0 (SetCursor (H - rereadBlocks + 1))]) as Hres.
    { unfold resume. cbv zeta.
      rewrite (loadLastProcessedBlock_checkpoint w C H s0) by done.
      assert ((rereadBlocks <? H - C) = true) as -> by (apply Z.ltb_lt; lia).
      cbv zeta. unfold saveLastProcessedBlock. cbv zeta. rewrite Hdisk.
      reflexivity. }
    split; [exact Hres|]. unfold start. rewrite Hres.
    destruct (readBlocksLoop_first_fetch w head
                (mkState (H - rereadBlocks + 1) [] []
                   (Some (toString (H - rereadBlocks)))
                   [mkEntry 0 (WriteFile (toString (H - rereadBlocks)));
                    mkEntry 0 (SetCursor (H - rereadBlocks + 1))]))
      as (rest & Ht & Hg).
    exists rest. split; [exact Ht|exact Hg].
Qed.

Lemma resume_point_example :
  (102 ≠ 0 ∧ 105 - 102 <= rereadBlocks
   ∧ resume healthy (Return 105) (init (Some (toString 102)))
     = mkState (102 + 1) [] [] (Some (toString 102))
         [mkEntry 0 (SetCursor (102 + 1))])
  ∧ (rereadBlocks < 500 - 102
     ∧ write_fails healthy (toString (500 - rereadBlocks)) = false
     ∧ resume healthy (Return 500) (init (Some (toString 102)))
       = mkState (500 - rereadBlocks + 1) [] []
           (Some (toString (500 - rereadBlocks)))
           [mkEntry 0 (WriteFile (toString (500 - rereadBlocks)));
            mkEntry 0 (SetCursor (500 - rereadBlocks + 1))]).
Proof.
  split.
  - assert (102 ≠ 0) as Hnz by lia.
    assert (105 - 102 <= rereadBlocks) as Hnear by (vm_compute; discriminate).
    split; [exact Hnz|]. split; [exact Hnear|].
    exact (proj1 (proj1 (resume_point healthy 102 105 105) Hnz Hnear)).
  - assert (rereadBlocks < 500 - 102) as Hfar by (vm_compute; reflexivity).
    assert (write_fails healthy (toString (500 - rereadBlocks)) = false)
      as Hdisk by reflexivity.
    split; [exact Hfar|]. split; [exact Hdisk|].
    exact (proj1 (proj2 (resume_point healthy 102 500 500) Hfar Hdisk)).
Defined.

(** C4 fails as stated for a checkpoint of 0: on a chain at height 5 the
    gap is within the window, yet the reader does not resume at block 1; it
    rewrites the checkpoint to -5 and resumes at block -4. *)
Lemma resume_from_checkpoint_zero :
  5 - 0 <= rereadBlocks
  ∧ resume healthy (Return 5) (init (Some (toString 0)))
    = mkState (-4) [] [] (Some "-5")
        [mkEntry 0 (WriteFile "-5"); mkEntry 0 (SetCursor (-4))]
  ∧ expectedBlockNumber (resume healthy (Return 5) (init (Some (toString 0))))
    ≠ 0 + 1.
Proof.
  split; [vm_compute; discriminate|]. split; [vm_compute; reflexivity|].
  vm_compute. discriminate.
Qed.

End Resume.


(** * Further properties of the provider: the consensus height *)

Section Consensus_more.
Import Provider.

Lemma median_is_an_observation (observations : list Z) :
  observations ≠ [] → Spec.median observations ∈ observations.
Proof.
  intros Hne. rewrite <- (median_of_spec _ Hne).
  rewrite <- (sort_ascending_perm observations) at 2.
  assert (sort_ascending observations ≠ []) as Hsne.
  { intros Hnil. pose proof (sort_ascending_length observations) as Hlen.
    rewrite Hnil in Hlen. destruct observations; [done|discriminate Hlen]. }
  pose proof (median_index_in_range _ Hsne) as Hidx. cbv zeta in Hidx.
  unfold median_of. cbv zeta.
  destruct (decide ((length (sort_ascending observations) mod 2)%nat = 1%nat));
    apply list_elem_of_lookup_total_2; done.
Qed.

Lemma kept_iff (window : Z) (observations : list Z) (x : Z) :
  x ∈ Spec.kept window observations ↔
  x ∈ observations
  ∧ Spec.median observations - window <= x <= Spec.median observations + window.
Proof. unfold Spec.kept. rewrite list_elem_of_filter. tauto. Qed.

(** What is selected: an observation; one of the kept ones when there is
    one, and then the greatest of them. *)
Lemma selected_cases (window : Z) (observations : list Z) :
  observations ≠ [] →
  let sel := Spec.selected window observations in
  (Spec.kept window observations = []
   ∧ sel ∈ observations ∧ ∀ x, x ∈ observations → x <= sel)
  ∨ (sel ∈ Spec.kept window observations
     ∧ ∀ x, x ∈ Spec.kept window observations → x <= sel).
Proof.
  intros Hne sel. unfold sel, Spec.selected.
  destruct (Spec.kept window observations) as [|a subset] eqn:Hk.
  - left. split; [done|]. by apply greatest_spec.
  - right. by apply greatest_spec.
Qed.

Lemma getBlockNumber_value (this : Provider.t) (rpc : nat → Call Z) :
  not_null (head_results this rpc) ≠ [] →
  getBlockNumber this rpc
  = (Return (Spec.consensus (_consensusWindow this) (_lastHead this)
               (not_null (head_results this rpc))),
     set_lastHead this
       (Spec.consensus (_consensusWindow this) (_lastHead this)
          (not_null (head_results this rpc)))).
Proof.
  intros Hne. unfold getBlockNumber. cbv zeta.
  rewrite (_pickConsensusHead_spec _ _ Hne).
  set (h := Spec.consensus _ _ _).
  assert (_lastHead this <= h) by (unfold h, Spec.consensus; lia).
  case_match eqn:Hlt; [done|].
  apply Z.ltb_ge in Hlt. assert (h = _lastHead this) as -> by lia.
  by rewrite set_lastHead_same.
Qed.

(** X1.  The height that [getBlockNumber] returns is one that an endpoint
    reported in this round, or the previous value of the ratchet: it is
    never a value that nobody reported.  It is not below the ratchet, and
    it is the new value of the ratchet. *)
Theorem consensus_is_reported_or_ratchet
    (this this' : Provider.t) (rpc : nat → Call Z) (h : Z) :
  getBlockNumber this rpc = (Return h, this') →
  (h ∈ not_null (head_results this rpc) ∨ h = _lastHead this)
  ∧ _lastHead this <= h
  ∧ this' = set_lastHead this h.
Proof.
  intros Hget.
  destruct (decide (not_null (head_results this rpc) = [])) as [Hnil|Hne].
  { unfold getBlockNumber in Hget. cbv zeta in Hget. rewrite Hnil in Hget.
    discriminate Hget. }
  rewrite (getBlockNumber_value this rpc Hne) in Hget.
  injection Hget as <- <-.
  set (obs := not_null (head_results this rpc)) in *.
  split_and!; [|unfold Spec.consensus; lia|done].
  unfold Spec.consensus.
  destruct (Z.max_spec (Spec.selected (_consensusWindow this) obs)
              (_lastHead this)) as [[_ ->]|[_ ->]]; [by right|left].
  destruct (selected_cases (_consensusWindow this) obs Hne)
    as [(_ & Hin & _)|[Hin _]]; [done|].
  by apply kept_iff in Hin as [Hin _].
Qed.

Lemma consensus_is_reported_or_ratchet_example :
  getBlockNumber (Session.provider_at 3 0) (Session.answers_of [100; 101; 102])
  = (Return 102, Session.provider_at 3 102)
  ∧ (102 ∈ not_null (head_results (Session.provider_at 3 0)
                       (Session.answers_of [100; 101; 102]))
     ∨ 102 = _lastHead (Session.provider_at 3 0))
  ∧ _lastHead (Session.provider_at 3 0) <= 102
  ∧ Session.provider_at 3 102 = set_lastHead (Session.provider_at 3 0) 102.
Proof.
  assert (getBlockNumber (Session.provider_at 3 0)
            (Session.answers_of [100; 101; 102])
          = (Return 102, Session.provider_at 3 102)) as Hget
    by (vm_compute; reflexivity).
  split; [exact Hget|].
  exact (consensus_is_reported_or_ratchet _ _ _ _ Hget).
Defined.

(** X2.  With a window that is not negative the median itself is kept, so
    the fallback to all observations is never taken: the height returned
    is between the median and the median plus the window, unless the
    ratchet is above that. *)
Theorem consensus_within_window_of_median
    (this this' : Provider.t) (rpc : nat → Call Z) (h : Z) :
  0 <= _consensusWindow this →
  getBlockNumber this rpc = (Return h, this') →
  let median := median_of (sort_ascending (not_null (head_results this rpc))) in
  Z.max median (_lastHead this) <= h
  ∧ h <= Z.max (median + _consensusWindow this) (_lastHead this).
Proof.
  intros Hw Hget median.
  destruct (decide (not_null (head_results this rpc) = [])) as [Hnil|Hne].
  { unfold getBlockNumber in Hget. cbv zeta in Hget. rewrite Hnil in Hget.
    discriminate Hget. }
  rewrite (getBlockNumber_value this rpc Hne) in Hget.
  injection Hget as <- _. unfold median. rewrite (median_of_spec _ Hne).
  set (obs := not_null (head_results this rpc)) in *.
  assert (Spec.median obs ∈ Spec.kept (_consensusWindow this) obs) as Hmed.
  { apply kept_iff. split; [by apply median_is_an_observation|lia]. }
  unfold Spec.consensus.
  destruct (selected_cases (_consensusWindow this) obs Hne)
    as [(Hk & _)|[Hin Hmax]].
  { rewrite Hk in Hmed. by apply not_elem_of_nil in Hmed. }
  apply kept_iff in Hin as [_ Hin]. specialize (Hmax _ Hmed). lia.
Qed.

Lemma consensus_within_window_of_median_example :
  0 <= _consensusWindow (Session.provider_at 5 0)
  ∧ getBlockNumber (Session.provider_at 5 0)
      (Session.answers_of Session.example_heights)
    = (Return 812002, Session.provider_at 5 812002)
  ∧ median_of (sort_ascending
                 (not_null (head_results (Session.provider_at 5 0)
                              (Session.answers_of Session.example_heights))))
    = 812001
  ∧ Z.max 812001 0 <= 812002 <= Z.max (812001 + 5) 0.
Proof.
  assert (0 <= _consensusWindow (Session.provider_at 5 0)) as Hw
    by (vm_compute; discriminate).
  assert (getBlockNumber (Session.provider_at 5 0)
            (Session.answers_of Session.example_heights)
          = (Return 812002, Session.provider_at 5 812002)) as Hget
    by (vm_compute; reflexivity).
  split; [exact Hw|]. split; [exact Hget|]. split; [vm_compute; reflexivity|].
  exact (consensus_within_window_of_median _ _ _ _ Hw Hget).
Defined.

(** X3.  With a negative window nothing is kept, not even the median, and
    the fallback is taken: the greatest observation is selected, however
    far it is from the others. *)
Theorem negative_window_selects_the_greatest
    (this : Provider.t) (rpc : nat → Call Z) :
  _consensusWindow this < 0 →
  not_null (head_results this rpc) ≠ [] →
  (getBlockNumber this rpc).1
  = Return (Z.max (Spec.greatest (not_null (head_results this rpc)))
              (_lastHead this)).
Proof.
  intros Hw Hne. rewrite (getBlockNumber_value this rpc Hne). simpl.
  set (obs := not_null (head_results this rpc)) in *.
  unfold Spec.consensus, Spec.selected.
  assert (Spec.kept (_consensusWindow this) obs = []) as ->; [|done].
  apply elem_of_nil_inv. intros x Hx. apply kept_iff in Hx. lia.
Qed.

Lemma negative_window_selects_the_greatest_example :
  _consensusWindow (mkProvider (_providers (Session.provider_at 5 0)) 0 500 3000
                      (-1) "0xcA11") < 0
  ∧ not_null (head_results
                (mkProvider (_providers (Session.provider_at 5 0)) 0 500 3000
                   (-1) "0xcA11")
                (Session.answers_of Session.example_heights)) ≠ []
  ∧ (getBlockNumber
       (mkProvider (_providers (Session.provider_at 5 0)) 0 500 3000 (-1) "0xcA11")
       (Session.answers_of Session.example_heights)).1
    = Return 812050.
Proof.
  assert (_consensusWindow
            (mkProvider (_providers (Session.provider_at 5 0)) 0 500 3000
               (-1) "0xcA11") < 0) as Hw by (vm_compute; reflexivity).
  assert (not_null (head_results
                      (mkProvider (_providers (Session.provider_at 5 0)) 0 500
                         3000 (-1) "0xcA11")
                      (Session.answers_of Session.example_heights)) ≠ [])
    as Hne by (vm_compute; discriminate).
  split; [exact Hw|]. split; [exact Hne|].
  rewrite (negative_window_selects_the_greatest _ _ Hw Hne).
  vm_compute. reflexivity.
Defined.

(** X4.  The consensus does not depend on the order in which the
    endpoints are configured or answer, only on the heights reported. *)
Theorem consensus_ignores_endpoint_order
    (this : Provider.t) (observations observations' : list Z) :
  observations ≡ₚ observations' →
  _pickConsensusHead this observations = _pickConsensusHead this observations'.
Proof.
  intros Hp. unfold _pickConsensusHead, pool_of.
  assert (sort_ascending observations = sort_ascending observations') as ->.
  { apply (StronglySorted_unique Z.le); [apply sort_ascending_sorted..|].
    by rewrite !sort_ascending_perm. }
  rewrite (Permutation_length Hp). done.
Qed.

Lemma consensus_ignores_endpoint_order_example :
  [812050; 812001; 811995; 812002; 812000] ≡ₚ Session.example_heights
  ∧ _pickConsensusHead (Session.provider_at 5 0)
      [812050; 812001; 811995; 812002; 812000]
    = _pickConsensusHead (Session.provider_at 5 0) Session.example_heights.
Proof.
  assert ([812050; 812001; 811995; 812002; 812000] ≡ₚ Session.example_heights)
    as Hp.
  { unfold Session.example_heights.
    apply (Permutation_cons_app [811995; 812000; 812001; 812002] [] 812050).
    apply (Permutation_cons_app [811995; 812000] [812002] 812001).
    apply perm_skip.
    apply (Permutation_cons_app [812000] [] 812002). done. }
  split; [exact Hp|].
  exact (consensus_ignores_endpoint_order _ _ _ Hp).
Defined.

End Consensus_more.

(** * Further properties of the provider: outliers, failed rounds, the
      endpoints *)

Section Majority.
Import Provider.

(** In an ascending list, a value that more than half of the positions
    hold is at every position around the middle. *)
Lemma sorted_majority (l : list Z) (h x : Z) (m : nat) :
  StronglySorted Z.le l →
  (length l < 2 * length (filter (λ y, y = h) l))%nat →
  (2 * m < length l)%nat → (length l <= 2 * m + 2)%nat →
  l !! m = Some x → x = h.
Proof.
  intros Hs Hmaj Hlo Hhi Hm.
  destruct (Z.lt_trichotomy x h) as [Hlt|[->|Hgt]]; [exfalso|done|exfalso].
  - assert (filter (λ y, y = h) (take (S m) l) = []) as Hnone.
    { apply elem_of_nil_inv. intros y Hy.
      apply list_elem_of_filter in Hy as [-> Hy].
      apply elem_of_take in Hy as (i & Hi & Hlt').
      assert (h <= x) by (apply (sorted_lookup_le l i m); [done|lia|done..]).
      lia. }
    rewrite <- (take_drop (S m) l), filter_app, Hnone, app_nil_l in Hmaj.
    pose proof (length_filter (λ y, y = h) (drop (S m) l)) as Hle.
    rewrite length_app, length_take, length_drop in Hmaj.
    rewrite length_drop in Hle. lia.
  - assert (filter (λ y, y = h) (drop m l) = []) as Hnone.
    { apply elem_of_nil_inv. intros y Hy.
      apply list_elem_of_filter in Hy as [-> Hy].
      apply list_elem_of_lookup in Hy as (i & Hi). rewrite lookup_drop in Hi.
      assert (x <= h) by (apply (sorted_lookup_le l m (m + i)); [done|lia|done..]).
      lia. }
    rewrite <- (take_drop m l), filter_app, Hnone, app_nil_r in Hmaj.
    pose proof (length_filter (λ y, y = h) (take m l)) as Hle.
    rewrite length_app, length_take, length_drop in Hmaj.
    rewrite length_take in Hle. lia.
Qed.

Lemma median_of_majority (observations : list Z) (h : Z) :
  (length observations < 2 * length (filter (λ y, y = h) observations))%nat →
  median_of (sort_ascending observations) = h.
Proof.
  intros Hmaj.
  assert (observations ≠ []) as Hne by (intros ->; simpl in Hmaj; lia).
  rewrite <- (sort_ascending_perm observations) in Hmaj.
  pose proof (sort_ascending_sorted observations) as Hs.
  assert (sort_ascending observations ≠ []) as Hsne.
  { intros Hnil. rewrite Hnil in Hmaj. simpl in Hmaj. lia. }
  pose proof (median_index_in_range _ Hsne) as Hidx. cbv zeta in Hidx.
  set (sorted := sort_ascending observations) in *. clearbody sorted.
  unfold median_of. cbv zeta.
  destruct (decide ((length sorted mod 2)%nat = 1%nat)) as [Hodd|Heven].
  - destruct (lookup_lt_is_Some_2 sorted (length sorted / 2)%nat) as [x Hx];
      [done|].
    rewrite (list_lookup_total_correct _ _ _ Hx).
    apply (sorted_majority sorted h x (length sorted / 2)%nat); try done;
      lia_div.
  - destruct (lookup_lt_is_Some_2 sorted (length sorted / 2 - 1)%nat) as [x Hx];
      [done|].
    rewrite (list_lookup_total_correct _ _ _ Hx).
    assert (0 < length sorted)%nat by (destruct sorted; [done|simpl; lia]).
    apply (sorted_majority sorted h x (length sorted / 2 - 1)%nat); try done;
      lia_div.
Qed.

(** X5.  When more than half of the heights that arrive in time are the
    same height [m], and the window is not negative, the other endpoints
    cannot pull the result below [m] nor push it more than the window
    above [m]: the height returned is between [m] and [m + window], or it
    is the ratchet. *)
Theorem minority_cannot_move_the_head
    (this this' : Provider.t) (rpc : nat → Call Z) (m h : Z) :
  0 <= _consensusWindow this →
  (length (not_null (head_results this rpc))
   < 2 * Rounds.reports m (not_null (head_results this rpc)))%nat →
  getBlockNumber this rpc = (Return h, this') →
  Z.max m (_lastHead this) <= h
  ∧ h <= Z.max (m + _consensusWindow this) (_lastHead this).
Proof.
  intros Hw Hmaj Hget. unfold Rounds.reports in Hmaj.
  set (obs := not_null (head_results this rpc)) in *.
  assert (obs ≠ []) as Hne by (intros Hnil; rewrite Hnil in Hmaj; simpl in Hmaj; lia).
  rewrite (getBlockNumber_value this rpc Hne) in Hget.
  injection Hget as <- _. fold obs.
  pose proof (median_of_majority obs m Hmaj) as Hmed.
  rewrite (median_of_spec _ Hne) in Hmed.
  assert (m ∈ Spec.kept (_consensusWindow this) obs) as Hkept.
  { apply kept_iff. rewrite Hmed. split; [|lia].
    rewrite <- Hmed. by apply median_is_an_observation. }
  unfold Spec.consensus.
  destruct (selected_cases (_consensusWindow this) obs Hne)
    as [(Hk & _)|[Hin Hmax]].
  { rewrite Hk in Hkept. by apply not_elem_of_nil in Hkept. }
  apply kept_iff in Hin as [_ Hin]. rewrite Hmed in Hin.
  specialize (Hmax _ Hkept). lia.
Qed.

Lemma minority_cannot_move_the_head_example :
  0 <= _consensusWindow (Session.provider_at 5 0)
  ∧ (length (not_null (head_results (Session.provider_at 5 0)
               (Session.answers_of Rounds.outlier_heights)))
     < 2 * Rounds.reports 812000
             (not_null (head_results (Session.provider_at 5 0)
                (Session.answers_of Rounds.outlier_heights))))%nat
  ∧ getBlockNumber (Session.provider_at 5 0)
      (Session.answers_of Rounds.outlier_heights)
    = (Return 812000, Session.provider_at 5 812000)
  ∧ Z.max 812000 (_lastHead (Session.provider_at 5 0)) <= 812000
  ∧ 812000 <= Z.max (812000 + _consensusWindow (Session.provider_at 5 0))
                (_lastHead (Session.provider_at 5 0)).
Proof.
  assert (0 <= _consensusWindow (Session.provider_at 5 0)) as Hw
    by (vm_compute; discriminate).
  assert (length (not_null (head_results (Session.provider_at 5 0)
                    (Session.answers_of Rounds.outlier_heights)))
          < 2 * Rounds.reports 812000
                  (not_null (head_results (Session.provider_at 5 0)
                     (Session.answers_of Rounds.outlier_heights))))%nat
    as Hmaj by (vm_compute; lia).
  assert (getBlockNumber (Session.provider_at 5 0)
            (Session.answers_of Rounds.outlier_heights)
          = (Return 812000, Session.provider_at 5 812000)) as Hget
    by (vm_compute; reflexivity).
  split; [exact Hw|]. split; [exact Hmaj|]. split; [exact Hget|].
  exact (minority_cannot_move_the_head _ _ _ 812000 812000 Hw Hmaj Hget).
Defined.

End Majority.

Section Failed_rounds.
Import Provider Session.

Lemma getBlockNumber_cases (this : Provider.t) (rpc : nat → Call Z) :
  (not_null (head_results this rpc) = []
   ∧ getBlockNumber this rpc
     = (Throw "All RPC nodes failed for getBlockNumber()", this))
  ∨ (∃ h, not_null (head_results this rpc) ≠ []
          ∧ getBlockNumber this rpc = (Return h, set_lastHead this h)
          ∧ _lastHead this <= h).
Proof.
  destruct (decide (not_null (head_results this rpc) = [])) as [Hnil|Hne].
  - left. split; [done|]. unfold getBlockNumber. cbv zeta. by rewrite Hnil.
  - right. destruct (getBlockNumber_ratchet this rpc Hne) as (h & Hg & Hle).
    by exists h.
Qed.

(** Over any rounds, failed ones included: the ratchet does not go down,
    and a value returned is between the ratchet before the rounds and the
    ratchet after them. *)
Lemma poll_between (rounds : list (nat → Call Z)) :
  ∀ this, _lastHead this <= _lastHead (poll this rounds).2
          ∧ ∀ i x, (poll this rounds).1 !! i = Some (Return x) →
                   _lastHead this <= x <= _lastHead (poll this rounds).2.
Proof.
  induction rounds as [|rpc rounds IH]; intros this.
  - simpl. split; [lia|]. intros i x Hi. by rewrite lookup_nil in Hi.
  - simpl.
    destruct (getBlockNumber_cases this rpc) as [[_ Hg]|(h & _ & Hg & Hle)];
      rewrite Hg; simpl.
    + destruct (IH this) as [Hmono Hin]. split; [done|].
      intros [|i] x Hi; simpl in Hi; [discriminate Hi|]. by apply (Hin i).
    + destruct (IH (set_lastHead this h)) as [Hmono Hin]. simpl in Hmono, Hin.
      split; [lia|].
      intros [|i] x Hi; simpl in Hi.
      * injection Hi as <-. lia.
      * specialize (Hin i x Hi). lia.
Qed.

(** X6.  A round in which every endpoint fails throws and leaves the
    ratchet where it is, so the guarantee on the heights returned does not
    need every round to succeed: of two values returned by the same
    instance, the later one is never below the earlier one, whatever
    happened in between, and [getLastHead] afterwards is not below
    either. *)
Theorem ratchet_survives_failed_rounds
    (this : Provider.t) (rounds : list (nat → Call Z)) (i j : nat) (x y : Z) :
  (i <= j)%nat →
  (poll this rounds).1 !! i = Some (Return x) →
  (poll this rounds).1 !! j = Some (Return y) →
  _lastHead this <= x ∧ x <= y ∧ y <= getLastHead (poll this rounds).2.
Proof.
  revert this i j. induction rounds as [|rpc rounds IH]; intros this i j Hij Hi Hj.
  - simpl in Hi. by rewrite lookup_nil in Hi.
  - simpl in Hi, Hj |- *.
    destruct (getBlockNumber_cases this rpc) as [[_ Hg]|(h & _ & Hg & Hle)];
      rewrite Hg in Hi, Hj |- *; simpl in Hi, Hj |- *.
    + destruct i as [|i]; [discriminate Hi|].
      destruct j as [|j]; [lia|]. simpl in Hi, Hj.
      apply (IH this i j); [lia|done..].
    + destruct (poll_between rounds (set_lastHead this h)) as [Hmono Hin].
      simpl in Hmono, Hin. unfold getLastHead.
      destruct i as [|i], j as [|j]; simpl in Hi, Hj; try lia.
      * injection Hi as <-. injection Hj as <-. lia.
      * injection Hi as <-. specialize (Hin j y Hj). lia.
      * destruct (IH (set_lastHead this h) i j) as (H1 & H2 & H3);
          [lia|done..|].
        simpl in H1. unfold getLastHead in H3. lia.
Qed.

Lemma ratchet_survives_failed_rounds_example :
  (poll (provider_at 3 0)
     Rounds.interrupted_rounds).1
  = [Return 102; Throw "All RPC nodes failed for getBlockNumber()"; Return 102]
  ∧ _lastHead (provider_at 3 0) <= 102 ∧ 102 <= 102
  ∧ 102 <= getLastHead
             (poll (provider_at 3 0)
                Rounds.interrupted_rounds).2.
Proof.
  split; [vm_compute; reflexivity|].
  apply (ratchet_survives_failed_rounds (provider_at 3 0)
           Rounds.interrupted_rounds 0 2 102 102); [lia|vm_compute; reflexivity..].
Defined.

End Failed_rounds.

Section Endpoints.
Import Provider Session.

Lemma poll_providers (rounds : list (nat → Call Z)) :
  ∀ this, _providers (poll this rounds).2 = _providers this
          ∧ _blockTimeoutMs (poll this rounds).2 = _blockTimeoutMs this.
Proof.
  induction rounds as [|rpc rounds IH]; intros this; [done|]. simpl.
  destruct (IH (getBlockNumber this rpc).2) as [-> ->].
  destruct (getBlockNumber_cases this rpc) as [[_ Hg]|(h & _ & Hg & _)];
    by rewrite Hg.
Qed.

(** X8.  On a provider that the constructor built, and after any number of
    height queries on it, [getLogs] never throws: [reduce] always has a
    first element to start from.  It returns the list that one of the
    endpoints contributed. *)
Theorem getLogs_never_throws {Log : Type}
    (rpcUrls : list string) (options : Options) (this : Provider.t)
    (rounds : list (nat → Call Z)) (task : nat → Call (list Log)) :
  constructor rpcUrls options = Return this →
  ∃ logs, getLogs (poll this rounds).2 task = Return logs
          ∧ logs ∈ log_results (poll this rounds).2 task.
Proof.
  intros Hnew.
  destruct (poll_providers rounds this) as [Hp _].
  set (this' := (poll this rounds).2) in *. clearbody this'.
  unfold getLogs, log_results. rewrite Hp.
  destruct (_providers this) as [|e l] eqn:He.
  { exfalso. unfold constructor in Hnew. case_decide as Hlen; [done|].
    injection Hnew as <-. simpl in He.
    destruct rpcUrls; [done|discriminate He]. }
  cbn [fmap list_fmap array_reduce].
  destruct (foldl_longer
              ((λ e, match _withTimeout (task (provider e))
                             (_blockTimeoutMs this' * 3) with
                     | Fulfil logs => logs
                     | Reject _ => []
                     end) <$> l)
              (match _withTimeout (task (provider e))
                       (_blockTimeoutMs this' * 3) with
               | Fulfil logs => logs
               | Reject _ => []
               end)) as (i & Hi & _).
  eexists. split; [done|]. by eapply list_elem_of_lookup_2.
Qed.

Lemma getLogs_never_throws_example :
  constructor (node_urls 4) noOptions = Return (provider_at 4 0)
  ∧ ∃ logs, getLogs (poll (provider_at 4 0) [all_reject]).2 example_logs
            = Return logs
            ∧ logs ∈ log_results (poll (provider_at 4 0) [all_reject]).2
                       example_logs.
Proof.
  assert (constructor (node_urls 4) noOptions = Return (provider_at 4 0))
    as Hnew by (vm_compute; reflexivity).
  split; [exact Hnew|].
  exact (getLogs_never_throws (node_urls 4) noOptions (provider_at 4 0)
           [all_reject] example_logs Hnew).
Defined.

End Endpoints.


(** * Further properties of the provider: the fan-out executor *)

Section Facade_more.
Import Provider Session.

(** The endpoint that wins is the first one in the configured order whose
    answer counts, not the first one to answer: here the answer of the
    second endpoint is returned although the third one was faster. *)
Lemma _executeParallel_first_in_order_example :
  _providers (provider_at 3 0) !! 1%nat = Some (mkProviderEntry "https://node1" 1)
  ∧ settled (provider_at 3 0) Queries.staggered None
      (mkProviderEntry "https://node1" 1) = VString "0xslow"
  ∧ VString "0xslow" ≠ VNull
  ∧ truthy (VString "0xslow") = true
  ∧ (∀ j e', (j < 1)%nat → _providers (provider_at 3 0) !! j = Some e' →
             settled (provider_at 3 0) Queries.staggered None e' = VNull)
  ∧ _executeParallel (provider_at 3 0) Queries.staggered None
    = Return (VString "0xslow").
Proof.
  assert (∀ j e', (j < 1)%nat → _providers (provider_at 3 0) !! j = Some e' →
            settled (provider_at 3 0) Queries.staggered None e' = VNull)
    as Hbefore.
  { intros [|j] e' Hj He'; [|lia]. injection He' as <-. reflexivity. }
  split; [reflexivity|]. split; [reflexivity|]. split; [discriminate|].
  split; [reflexivity|]. split; [exact Hbefore|].
  apply (_executeParallel_first_in_order (provider_at 3 0) Queries.staggered
           None 1 (mkProviderEntry "https://node1" 1) (VString "0xslow"));
    [reflexivity|reflexivity|discriminate|reflexivity|exact Hbefore].
Defined.

(** With a validator that only accepts truthy values, the executor throws
    exactly when every endpoint fails. *)
Lemma _executeParallel_validated_throws
    this task (validate : Value → Completion bool) :
  (∀ v, validate v = Return true → truthy v = true) →
  _executeParallel this task (Some validate) = Throw "All RPC nodes failed"
  ↔ ∀ e, e ∈ _providers this → endpoint_fails this task (Some validate) e.
Proof.
  intros Htruthy. split; [|apply _executeParallel_all_fail].
  assert (∀ e, settled this task (Some validate) e = VNull →
               endpoint_fails this task (Some validate) e) as Hfails.
  { intros e. unfold settled, endpoint_fails.
    destruct (_withTimeout _ _) as [result|msg]; [|done].
    destruct (validate result) as [[]|] eqn:Hv; try done.
    intros ->. apply Htruthy in Hv. discriminate Hv. }
  assert (∀ e, settled this task (Some validate) e ≠ VNull →
               truthy (settled this task (Some validate) e) = true) as Hvalid.
  { intros e. unfold settled.
    destruct (_withTimeout _ _) as [result|msg]; [|done].
    destruct (validate result) as [[]|] eqn:Hv; try done. auto. }
  intros Hthrow e He.
  destruct (_executeParallel_cases this task (Some validate))
    as [[_ [Hall|(i & r & Hi & Hr & Hf & _)]]|(i & r & Hret & _)].
  - apply Hfails, Hall, list_elem_of_fmap. by exists e.
  - apply list_lookup_fmap_Some in Hi as (e' & -> & _).
    rewrite (Hvalid e' Hr) in Hf. discriminate Hf.
  - rewrite Hthrow in Hret. discriminate Hret.
Qed.

(** X10.  The four queries that validate their result throw, with "All RPC
    nodes failed", exactly when every endpoint fails: rejects, is too
    slow, or answers something that the validator does not accept.  A
    value that one endpoint got through is never lost. *)
Theorem validated_queries_throw_iff_every_endpoint_fails
    (this : Provider.t) (task : nat → Call Value) :
  (getBlock this task = Throw "All RPC nodes failed"
   ↔ ∀ e, e ∈ _providers this → endpoint_fails this task (Some has_hash) e)
  ∧ (getTransaction this task = Throw "All RPC nodes failed"
     ↔ ∀ e, e ∈ _providers this → endpoint_fails this task (Some has_hash) e)
  ∧ (getTransactionReceipt this task = Throw "All RPC nodes failed"
     ↔ ∀ e, e ∈ _providers this → endpoint_fails this task (Some has_status) e)
  ∧ (waitForTransaction this task = Throw "All RPC nodes failed"
     ↔ ∀ e, e ∈ _providers this → endpoint_fails this task (Some has_status) e).
Proof.
  split_and!; apply _executeParallel_validated_throws;
    auto using has_hash_truthy, has_status_truthy.
Qed.

End Facade_more.


(** * Further properties of the reader: one fetch *)

Section Fetch.
Import Reader Invariant Delivery.

(** A block that the loop of [tryGetBlock] returns is the first usable
    answer of the provider. *)
Lemma tryGetBlock_loop_first_usable getBlock blockNumber maxAttempts attempts calls :
  ∀ r, (tryGetBlock_loop getBlock blockNumber maxAttempts attempts calls).1 = r →
    usable r = true →
    ∃ k, (calls <= k)%nat
         ∧ Z.of_nat k < Z.of_nat calls + (maxAttempts - attempts)
         ∧ getBlock k = Return r
         ∧ ∀ j r', (calls <= j < k)%nat → getBlock j = Return r' →
                   usable r' = false.
Proof.
  funelim (tryGetBlock_loop getBlock blockNumber maxAttempts attempts calls);
    simpl; intros r0 Hr Hu.
  - subst r0. discriminate Hu.
  - destruct (H r0 Hr Hu) as (k & Hk & Hlt & Hget & Hbefore).
    exists k. split_and!; [lia|lia|done|].
    intros j r' Hj Hj'. destruct (decide (j = calls)) as [->|Hne].
    + congruence.
    + apply (Hbefore j); [lia|done].
  - subst r0. exists calls. split_and!; [lia|lia|done|]. intros; lia.
  - destruct (H r0 Hr Hu) as (k & Hk & Hlt & Hget & Hbefore).
    exists k. split_and!; [lia|lia|done|].
    intros j r' Hj Hj'. destruct (decide (j = calls)) as [->|Hne].
    + congruence.
    + apply (Hbefore j); [lia|done].
Qed.

(** What the loop returns is usable, or nothing. *)
Lemma tryGetBlock_loop_usable getBlock blockNumber maxAttempts attempts calls :
  ∀ b, (tryGetBlock_loop getBlock blockNumber maxAttempts attempts calls).1
       = Some b → usable (Some b) = true.
Proof.
  funelim (tryGetBlock_loop getBlock blockNumber maxAttempts attempts calls);
    intros b Hb; simpl in Hb; [done|by apply H|by subst|by apply H].
Qed.

Lemma fetched_usable w k b : fetched w k = Some b → usable (Some b) = true.
Proof. apply tryGetBlock_loop_usable. Qed.

(** X11.  A block that [tryGetBlock] returns has a hash that is not empty,
    and it is the first such answer of the provider, among its first three:
    the answers before it were failures or had no hash. *)
Theorem tryGetBlock_returns_first_usable
    (getBlock : nat → Completion (option Block)) (blockNumber : Z) (b : Block) :
  (tryGetBlock getBlock blockNumber maxAttempts).1 = Some b →
  usable (Some b) = true
  ∧ ∃ k, (k < 3)%nat ∧ getBlock k = Return (Some b)
         ∧ ∀ j r, (j < k)%nat → getBlock j = Return r → usable r = false.
Proof.
  intros Hb. pose proof (tryGetBlock_loop_usable _ _ _ _ _ _ Hb) as Hu.
  split; [done|].
  destruct (tryGetBlock_loop_first_usable _ _ _ _ _ _ Hb Hu)
    as (k & _ & Hlt & Hget & Hbefore).
  exists k. unfold maxAttempts in Hlt. split_and!; [lia|done|].
  intros j r Hj. apply Hbefore. lia.
Qed.

Lemma tryGetBlock_returns_first_usable_example :
  (tryGetBlock (getBlock (Scenario.missing 7) 8) 8 maxAttempts).1
  = Some (Scenario.block_at 8)
  ∧ usable (Some (Scenario.block_at 8)) = true
  ∧ ∃ k, (k < 3)%nat
         ∧ getBlock (Scenario.missing 7) 8 k = Return (Some (Scenario.block_at 8))
         ∧ ∀ j r, (j < k)%nat → getBlock (Scenario.missing 7) 8 j = Return r →
                  usable r = false.
Proof.
  assert ((tryGetBlock (getBlock (Scenario.missing 7) 8) 8 maxAttempts).1
          = Some (Scenario.block_at 8)) as Hb by (vm_compute; reflexivity).
  split; [exact Hb|].
  exact (tryGetBlock_returns_first_usable _ 8 _ Hb).
Defined.

(** X12.  Over a provider that never answers without a usable block, as
    the fan-out provider's [getBlock] does, there is no third call: the
    first answer is returned at once; after a first failure the reader
    sleeps one second and asks again; after a second failure it gives
    up. *)
Theorem tryGetBlock_over_a_validating_provider
    (getBlock : nat → Completion (option Block)) (blockNumber : Z) :
  (∀ k r, getBlock k = Return r → usable r = true) →
  tryGetBlock getBlock blockNumber maxAttempts
  = match getBlock 0%nat with
    | Return r => (r, [Call_getBlock blockNumber])
    | Throw _ =>
        (match getBlock 1%nat with Return r => r | Throw _ => None end,
         [Call_getBlock blockNumber; Sleep 1000; Call_getBlock blockNumber])
    end.
Proof.
  intros Hvalid. unfold tryGetBlock, maxAttempts.
  destruct (getBlock 0%nat) as [r|msg] eqn:H0.
  - by rewrite (tryGetBlock_loop_found _ _ _ _ _ r) by (lia || eauto).
  - rewrite (tryGetBlock_loop_throw _ _ _ _ _ msg) by (lia || done).
    destruct (getBlock 1%nat) as [r|msg'] eqn:H1.
    + by rewrite (tryGetBlock_loop_found _ _ _ _ _ r) by (lia || eauto).
    + rewrite (tryGetBlock_loop_throw _ _ _ _ _ msg') by (lia || done).
      by rewrite tryGetBlock_loop_done by lia.
Qed.

Lemma tryGetBlock_over_a_validating_provider_example :
  (∀ k r, getBlock (Scenario.missing 7) 7 k = Return r → usable r = true)
  ∧ tryGetBlock (getBlock (Scenario.missing 7) 7) 7 maxAttempts
    = (None, [Call_getBlock 7; Sleep 1000; Call_getBlock 7]).
Proof.
  assert (∀ k r, getBlock (Scenario.missing 7) 7 k = Return r → usable r = true)
    as Hvalid by (intros k r Hk; discriminate Hk).
  split; [exact Hvalid|].
  exact (tryGetBlock_over_a_validating_provider _ 7 Hvalid).
Defined.

Lemma tryGetBlock_loop_effort getBlock blockNumber maxAttempts attempts calls :
  let r := tryGetBlock_loop getBlock blockNumber maxAttempts attempts calls in
  2 * sleeps_made r.2 <= Z.max 0 (maxAttempts - attempts - 1) + 1
  ∧ (r.1 = None → Z.max 0 (maxAttempts - attempts) <= 2 * calls_made r.2).
Proof.
  funelim (tryGetBlock_loop getBlock blockNumber maxAttempts attempts calls);
    cbv zeta in *; unfold sleeps_made, calls_made in *; simpl.
  - split; [lia|]. intros _. lia.
  - destruct H as [Hs Hc]. rewrite !List.filter_app, !length_app.
    case_decide; simpl; (split; [lia|]); intros Hnone;
      specialize (Hc Hnone); lia.
  - split; [lia|]. intros Hnone. subst. discriminate Heq.
  - destruct H as [Hs Hc]. split; [lia|]. intros Hnone.
    specialize (Hc Hnone). lia.
Qed.

(** X13.  Whatever the provider does, one [tryGetBlock] calls [getBlock]
    at least once and at most three times, sleeps at most once, and does
    not give up before it has called [getBlock] twice. *)
Theorem tryGetBlock_effort
    (getBlock : nat → Completion (option Block)) (blockNumber : Z) :
  let r := tryGetBlock getBlock blockNumber maxAttempts in
  1 <= calls_made r.2 <= 3
  ∧ sleeps_made r.2 <= 1
  ∧ (r.1 = None → 2 <= calls_made r.2).
Proof.
  pose proof (tryGetBlock_loop_effort getBlock blockNumber maxAttempts 0 0)
    as [Hs Hc].
  pose proof (tryGetBlock_loop_calls_bounded getBlock blockNumber maxAttempts 0 0)
    as Hcalls.
  destruct (tryGetBlock_first_call getBlock blockNumber) as [acts Hacts].
  cbv zeta. unfold tryGetBlock in *. rewrite Hacts in *.
  unfold maxAttempts in *. unfold calls_made in *. simpl in *.
  split_and!; [lia|lia|lia|].
  intros Hnone. specialize (Hc Hnone). lia.
Qed.

End Fetch.

(** * Further properties of the reader: what a run delivers *)

Section Deliver.
Import Reader Invariant Delivery.

Lemma announcements_app (tr1 tr2 : list Entry) :
  announcements (tr1 ++ tr2) = announcements tr1 ++ announcements tr2.
Proof. apply omap_app. Qed.

Lemma announcements_quiet (tr : list Entry) :
  Forall (λ e, ¬ announces e) tr → announcements tr = [].
Proof.
  induction 1 as [|e tr He _ IH]; [done|].
  destruct e as [c a]. destruct a; try exact IH. destruct He. by eexists.
Qed.

Lemma since_app (s s' : State) (ext : list Entry) :
  trace s' = trace s ++ ext → since s s' = ext.
Proof. intros Ht. unfold since. by rewrite Ht, drop_app_length. Qed.

(** What [processBlock] returns, and why it throws. *)
Lemma processTransaction_throws w tx s msg :
  (processTransaction w tx s).1 = Throw msg →
  new_transaction_listener w tx = Throw msg.
Proof.
  unfold processTransaction. case_bool_decide; [done|]. cbv zeta.
  by destruct (new_transaction_listener w tx) as [[]|msg'].
Qed.

Lemma processTransactions_throws w txs msg :
  ∀ s, (processTransactions w txs s).1 = Throw msg →
       ∃ tx, tx ∈ txs
             ∧ new_transaction_listener w (mkTransactionData tx "block")
               = Throw msg.
Proof.
  induction txs as [|tx txs IH]; intros s; [done|]. simpl.
  destruct (processTransaction w (mkTransactionData tx "block") s).1
    as [[]|msg'] eqn:Hr.
  - intros (tx' & Hin & Hthrow)%IH. exists tx'. split; [by right|done].
  - simpl. intros [= ->]. exists tx. split; [left|].
    by eapply processTransaction_throws.
Qed.

Lemma processBlock_data w block s :
  match (processBlock w block s).1 with
  | Return blockData => blockData = blockData_of w block
  | Throw msg =>
      ∃ tx, tx ∈ bd_transactions (blockData_of w block)
            ∧ new_transaction_listener w (mkTransactionData tx "block")
              = Throw msg
  end.
Proof.
  unfold processBlock. cbv zeta.
  pose proof (processTransactions_throws w
                (normalizeTransaction <$> full_transactions w block)) as Hthrow.
  destruct (processTransactions w _ s).1 as [[]|msg] eqn:Hr; [done|].
  simpl. by apply (Hthrow msg s).
Qed.

Lemma delivered_nil w c c' : c' <= c → delivered w c c' = [].
Proof.
  intros Hle. unfold delivered.
  assert (seqZ c (c' - c) = []) as ->; [|done].
  apply length_zero_iff_nil. rewrite length_seqZ. lia.
Qed.

Lemma delivered_cons w c c' block :
  c < c' → fetched w c = Some block →
  delivered w c c' = (c, blockData_of w block) :: delivered w (c + 1) c'.
Proof.
  intros Hlt Hf. unfold delivered. rewrite seqZ_cons by lia. simpl.
  rewrite Hf. simpl. do 2 f_equal. f_equal; lia.
Qed.

Lemma delivered_app w c c1 c2 :
  c <= c1 <= c2 → delivered w c c1 ++ delivered w c1 c2 = delivered w c c2.
Proof.
  intros Hle. unfold delivered. rewrite <- omap_app. f_equal.
  replace (c2 - c) with ((c1 - c) + (c2 - c1)) by lia.
  rewrite seqZ_app by lia. do 2 f_equal. lia.
Qed.

Lemma delivered_cursors w c c' :
  (∀ k, c <= k < c' → accepted w k) →
  (delivered w c c').*1 = seqZ c (c' - c).
Proof.
  intros Hall. unfold delivered.
  assert (∀ k, k ∈ seqZ c (c' - c) → is_Some (fetched w k)) as Hin.
  { intros k Hk%elem_of_seqZ. destruct (Hall k) as (block & Hb & _); [lia|].
    by eexists. }
  induction (seqZ c (c' - c)) as [|k l IH]; [done|]. simpl.
  destruct (Hin k) as [block Hb]; [left|]. rewrite Hb. simpl. f_equal.
  apply IH. intros k' Hk'. apply Hin. by right.
Qed.

Lemma refused_not_deliverable w k : refused w k → ¬ deliverable w k.
Proof.
  intros (block & msg & Hb & _ & Hthrow) (block' & Hb' & _ & _ & Hret).
  congruence.
Qed.

(** A batch puts in the buffer what the fetches find. *)
Lemma fetch_batch_fetched w top c n :
  ∀ nextBlock fb s, c <= nextBlock →
    (∀ k, is_Some (fb !! k) → k < nextBlock) →
    buffer_is_fetched w c nextBlock fb →
    buffer_is_fetched w c (fetch_batch w n top nextBlock fb s).1.1
      (fetch_batch w n top nextBlock fb s).1.2.
Proof.
  induction n as [|n IH]; intros nextBlock fb s Hc Hkeys Hfb; [done|].
  rewrite fetch_batch_step.
  destruct (decide (nextBlock <= top)) as [Hle|Hgt]; [|done]. cbv zeta.
  destruct (tryGetBlock (getBlock w nextBlock) nextBlock maxAttempts).1
    as [block|] eqn:Hfound.
  - apply IH; [lia| |].
    + intros k [->|[_ Hin]]%lookup_insert_is_Some; [lia|].
      apply Hkeys in Hin. lia.
    + intros k Hk. destruct (decide (k = nextBlock)) as [->|Hne].
      * by rewrite lookup_insert_eq.
      * rewrite lookup_insert_ne by done. apply Hfb. lia.
  - apply IH; [lia| |].
    + intros k Hin. apply Hkeys in Hin. lia.
    + intros k Hk. destruct (decide (k = nextBlock)) as [->|Hne].
      * unfold fetched. rewrite Hfound.
        destruct (fb !! nextBlock) eqn:Hin; [|done].
        assert (nextBlock < nextBlock); [|lia]. apply Hkeys. by eexists.
      * apply Hfb. lia.
Qed.

(** The drain announces the blocks that wait at the cursor, one after the
    other, until one is not there or something throws.  [extra] is the
    announcement on which a listener threw, if that is what ended it. *)
Lemma drain_delivery w top nextBlock :
  ∀ fb s, pending_ok top nextBlock fb s →
    buffer_is_fetched w (expectedBlockNumber s) nextBlock fb →
    ∃ ext extra, trace (drain w fb s).2 = trace s ++ ext
      ∧ expectedBlockNumber s <= expectedBlockNumber (drain w fb s).2
        <= nextBlock
      ∧ announcements ext
        = delivered w (expectedBlockNumber s)
            (expectedBlockNumber (drain w fb s).2) ++ extra
      ∧ (∀ k, expectedBlockNumber s <= k
              < expectedBlockNumber (drain w fb s).2 → accepted w k)
      ∧ (expectedBlockNumber (drain w fb s).2 < nextBlock →
         ¬ deliverable w (expectedBlockNumber (drain w fb s).2))
      ∧ (extra = []
         ∨ extra = announced_at w (expectedBlockNumber (drain w fb s).2)
           ∧ refused w (expectedBlockNumber (drain w fb s).2)
           ∧ expectedBlockNumber (drain w fb s).2 < nextBlock)
      ∧ match (drain w fb s).1.1 with
        | Return _ =>
            extra = []
            ∧ buffer_is_fetched w (expectedBlockNumber (drain w fb s).2)
                nextBlock (drain w fb s).1.2
            ∧ (expectedBlockNumber (drain w fb s).2 < nextBlock →
               fetched w (expectedBlockNumber (drain w fb s).2) = None)
        | Throw _ => expectedBlockNumber (drain w fb s).2 < nextBlock
        end
      ∧ block_txt (drain w fb s).2
        = match extra with
          | [] =>
              if decide (expectedBlockNumber (drain w fb s).2
                         = expectedBlockNumber s)
              then block_txt s
              else Some (toString (expectedBlockNumber (drain w fb s).2 - 1))
          | _ => Some (toString (expectedBlockNumber (drain w fb s).2))
          end.
Proof.
  intros fb. induction (Nat.lt_wf_0_projected size fb) as [fb _ IH].
  intros s Hok Hfb. rewrite drain_once.
  destruct Hok as (Hc & Htop & Hkeys).
  set (c := expectedBlockNumber s) in *.
  destruct (fb !! c) as [block|] eqn:Hcur.
  2:{ exists [], []. simpl. fold c. rewrite app_nil_r, delivered_nil by lia.
      rewrite decide_True by done.
      assert (c < nextBlock → fetched w c = None) as Hnone
        by (intros Hlt; rewrite <- Hfb by lia; done).
      split_and!; try done; try lia; [|by left].
      intros Hlt (b & Hb & _). rewrite Hnone in Hb by done. discriminate Hb. }
  cbv zeta.
  assert (Hin : c < nextBlock) by (apply Hkeys; by rewrite Hcur).
  assert (Hfc : fetched w c = Some block) by (rewrite <- Hfb by lia; done).
  set (rest := delete c fb).
  set (s1 := log (BufferDelete c rest) s).
  destruct (processBlock_log w block s1) as (e1 & Ht1 & Hc1 & Hf1 & Hq1).
  pose proof (processBlock_data w block s1) as Hdata.
  set (p := processBlock w block s1) in *. clearbody p.
  assert (Hc1' : expectedBlockNumber p.2 = c) by done.
  assert (Hf1' : block_txt p.2 = block_txt s) by done.
  assert (Ht1' : trace p.2 = trace s ++ [mkEntry c (BufferDelete c rest)] ++ e1)
    by (rewrite Ht1; simpl; by rewrite <- app_assoc).
  clear Ht1 Hc1 Hf1.
  assert (announcements e1 = []) as Ha1.
  { apply announcements_quiet. eapply Forall_impl; [exact Hq1|].
    by intros e (? & _). }
  destruct p.1 as [blockData|msg].
  2:{ exists ([mkEntry c (BufferDelete c rest)] ++ e1), [].
      cbn [fst snd]. rewrite Ht1', Hc1', Hf1'.
      rewrite decide_True by done. rewrite delivered_nil by lia.
      split_and!; try done; try lia; try (by left);
        try (by rewrite announcements_app, Ha1).
      intros _ (b & Hb & Htx & _). destruct Hdata as (tx & Htx' & Hthrow).
      assert (b = block) as -> by congruence.
      rewrite (Htx tx Htx') in Hthrow. discriminate Hthrow. }
  subst blockData. rewrite Hc1'.
  destruct (saveLastProcessedBlock_log w c p.2)
    as [(Hs & Hw & Hts & Hcs & Hfs)|(msg & Hs & Hw & Hst)];
    set (saved := saveLastProcessedBlock w c p.2) in *; clearbody saved;
    rewrite Hs.
  2:{ rewrite Hst. exists ([mkEntry c (BufferDelete c rest)] ++ e1), [].
      cbn [fst snd]. rewrite Ht1', Hc1', Hf1'.
      rewrite decide_True by done. rewrite delivered_nil by lia.
      split_and!; try done; try lia; try (by left);
        try (by rewrite announcements_app, Ha1).
      intros _ (b & _ & _ & Hw' & _). congruence. }
  rewrite Hc1' in Hts, Hcs. rewrite Ht1' in Hts.
  set (s2 := log (Emit_new_block (blockData_of w block)) saved.2).
  assert (expectedBlockNumber s2 = c) as Hc2 by done.
  assert (block_txt s2 = Some (toString c)) as Hf2 by done.
  assert (trace s2 = trace s ++ [mkEntry c (BufferDelete c rest)] ++ e1
            ++ [mkEntry c (WriteFile (toString c));
                mkEntry c (Emit_new_block (blockData_of w block))]) as Ht2.
  { unfold s2. simpl. rewrite Hcs, Hts. by rewrite <- !app_assoc. }
  destruct (new_block_listener w (blockData_of w block)) as [[]|msg] eqn:Hl.
  - set (s3 := set_cursor (expectedBlockNumber s2 + 1) s2).
    assert (expectedBlockNumber s3 = c + 1) as Hc3
      by (unfold s3; simpl; by rewrite Hcs).
    assert (block_txt s3 = Some (toString c)) as Hf3 by done.
    assert (trace s3 = trace s ++ [mkEntry c (BufferDelete c rest)] ++ e1
              ++ [mkEntry c (WriteFile (toString c));
                  mkEntry c (Emit_new_block (blockData_of w block));
                  mkEntry c (SetCursor (c + 1))]) as Ht3.
    { unfold s3, s2. simpl. rewrite Hcs, Hts. simpl.
      by rewrite <- !app_assoc. }
    clearbody s3.
    destruct (IH rest) with (s := s3)
      as (e2 & extra & Ht2' & Hmono & Ha2 & Hd2 & Hnot & Hextra & Hend & Hfile).
    { unfold rest. rewrite map_size_delete, Hcur. simpl.
      assert (size fb ≠ 0%nat); [|lia].
      intros Hz. apply map_size_empty_inv in Hz. subst fb.
      by rewrite lookup_empty in Hcur. }
    { unfold pending_ok. rewrite Hc3. split_and!; [lia..|].
      intros k [y Hk]. apply lookup_delete_Some in Hk as [Hne Hk].
      assert (c <= k < nextBlock) by (apply Hkeys; by eexists). lia. }
    { rewrite Hc3. intros k Hk. unfold rest.
      rewrite lookup_delete_ne by lia. apply Hfb. lia. }
    rewrite Hc3 in Hmono, Ha2, Hd2, Hfile.
    set (r := drain w rest s3) in *. clearbody r.
    exists ([mkEntry c (BufferDelete c rest)] ++ e1
            ++ [mkEntry c (WriteFile (toString c));
                mkEntry c (Emit_new_block (blockData_of w block));
                mkEntry c (SetCursor (c + 1))] ++ e2), extra.
    rewrite Ht2', Ht3, <- !app_assoc. split; [done|].
    split_and!; [lia|lia| | |done|done|done|].
    + rewrite !announcements_app, Ha1, Ha2. simpl.
      by rewrite (delivered_cons w c _ block) by (lia || done).
    + intros k Hk. destruct (decide (k = c)) as [->|Hne]; [|apply Hd2; lia].
      by exists block.
    + rewrite Hfile, Hf3. destruct extra; [|done].
      rewrite (decide_False (P := expectedBlockNumber r.2 = c)) by lia.
      case_decide as Heq; [|done]. rewrite Heq. do 2 f_equal. lia.
  - assert (refused w c) as Href by (by exists block, msg).
    exists ([mkEntry c (BufferDelete c rest)] ++ e1
            ++ [mkEntry c (WriteFile (toString c));
                mkEntry c (Emit_new_block (blockData_of w block))]),
      [(c, blockData_of w block)].
    cbn [fst snd]. rewrite Ht2, Hc2, Hf2. rewrite delivered_nil by lia.
    split_and!; try done; try lia;
      try (by rewrite !announcements_app, Ha1);
      try (intros _; by apply refused_not_deliverable).
    right. split_and!; [|done|lia]. unfold announced_at. by rewrite Hfc.
Qed.

Lemma batches_delivery w top :
  ∀ nextBlock fb s, pending_ok top nextBlock fb s →
    buffer_is_fetched w (expectedBlockNumber s) nextBlock fb →
    (expectedBlockNumber s = nextBlock
     ∨ fetched w (expectedBlockNumber s) = None) →
    ∃ ext extra, trace (batches w top nextBlock fb s).2 = trace s ++ ext
      ∧ expectedBlockNumber s
        <= expectedBlockNumber (batches w top nextBlock fb s).2 <= top + 1
      ∧ announcements ext
        = delivered w (expectedBlockNumber s)
            (expectedBlockNumber (batches w top nextBlock fb s).2) ++ extra
      ∧ (∀ k, expectedBlockNumber s <= k
              < expectedBlockNumber (batches w top nextBlock fb s).2 →
              accepted w k)
      ∧ (expectedBlockNumber (batches w top nextBlock fb s).2 <= top →
         ¬ deliverable w (expectedBlockNumber (batches w top nextBlock fb s).2))
      ∧ (extra = []
         ∨ extra = announced_at w
                     (expectedBlockNumber (batches w top nextBlock fb s).2)
           ∧ refused w (expectedBlockNumber (batches w top nextBlock fb s).2)
           ∧ expectedBlockNumber (batches w top nextBlock fb s).2 <= top)
      ∧ block_txt (batches w top nextBlock fb s).2
        = match extra with
          | [] =>
              if decide (expectedBlockNumber (batches w top nextBlock fb s).2
                         = expectedBlockNumber s)
              then block_txt s
              else Some (toString
                           (expectedBlockNumber
                              (batches w top nextBlock fb s).2 - 1))
          | _ => Some (toString
                         (expectedBlockNumber (batches w top nextBlock fb s).2))
          end.
Proof.
  intros nextBlock.
  induction (Nat.lt_wf_0_projected (λ nb, Z.to_nat (top + 1 - nb)) nextBlock)
    as [nextBlock _ IH].
  intros fb s Hok Hfb Hat. rewrite batches_once.
  set (c := expectedBlockNumber s) in *.
  destruct (decide (nextBlock <= top)) as [Hle|Hgt].
  2:{ exists [], []. simpl. fold c. rewrite app_nil_r, delivered_nil by lia.
      rewrite decide_True by done. destruct Hok as (Hc & Htop & _). fold c in Hc.
      split_and!; try done; try lia; [|by left].
      intros Hlt (b & Hb & _). destruct Hat as [Hat|Hat]; [lia|].
      rewrite Hat in Hb. discriminate Hb. }
  cbv zeta.
  change (Z.to_nat maxParallelBlocks) with 5%nat.
  pose proof (fetch_batch_advances w top 4 nextBlock fb s Hok Hle) as Hadv.
  destruct (fetch_batch_log w top 5 nextBlock fb s Hok)
    as (e1 & Ht1 & Hc1 & Hf1 & _ & Hok1 & Hq1 & _ & _).
  pose proof (fetch_batch_fetched w top c 5 nextBlock fb s) as Hfb1.
  destruct Hok as (Hc & Htop & Hkeys). fold c in Hc.
  specialize (Hfb1 Hc (λ k Hk, proj2 (Hkeys k Hk)) Hfb).
  fold c in Hc1.
  set (b := fetch_batch w 5 top nextBlock fb s) in *. clearbody b.
  rewrite <- Hc1 in Hfb1.
  destruct (drain_log w top b.1.1 b.1.2 b.2 Hok1) as (_ & _ & _ & Hok2 & _).
  destruct (drain_delivery w top b.1.1 b.1.2 b.2 Hok1 Hfb1)
    as (e2 & extra2 & Ht2 & Hc2 & Ha2 & Hd2 & Hnot2 & Hextra2 & Hend2 & Hf2).
  rewrite Hc1 in Hc2, Ha2, Hd2, Hf2. rewrite Hf1 in Hf2.
  set (d := drain w b.1.2 b.2) in *. clearbody d.
  set (c1 := expectedBlockNumber d.2) in *.
  assert (announcements e1 = []) as Ha1 by by apply announcements_quiet.
  assert (b.1.1 <= top + 1) as Htop1 by apply Hok1.
  destruct d.1.1 as [[]|msg].
  - destruct Hend2 as (-> & Hfb2 & Hstall).
    destruct (IH b.1.1) with (fb := d.1.2) (s := d.2)
      as (e3 & extra & Ht3 & Hc3 & Ha3 & Hd3 & Hnot3 & Hextra3 & Hf3);
      [lia|done|done| |].
    { fold c1. destruct (decide (c1 = b.1.1)); [by left|right].
      apply Hstall. lia. }
    fold c1 in Hc3, Ha3, Hd3, Hf3.
    set (r := batches w top b.1.1 d.1.2 d.2) in *. clearbody r.
    exists (e1 ++ e2 ++ e3), extra. rewrite Ht3, Ht2, Ht1, <- !app_assoc.
    split_and!; [done|lia|lia| | |done|done|].
    + rewrite !announcements_app, Ha1, Ha2, Ha3, app_nil_r. simpl.
      rewrite app_assoc. f_equal. apply delivered_app. lia.
    + intros k Hk. destruct (decide (k < c1)); [apply Hd2|apply Hd3]; lia.
    + rewrite Hf3, Hf2. destruct extra; [|done].
      repeat case_decide; try done; try lia. do 2 f_equal. lia.
  - assert (extra2 = [] ∨ extra2 = announced_at w c1 ∧ refused w c1 ∧ c1 <= top)
      as Hextra.
    { destruct Hextra2 as [->|(-> & Href & Hlt)]; [by left|right].
      split_and!; [done|done|lia]. }
    exists (e1 ++ e2), extra2. cbn [fst snd]. fold c1.
    rewrite Ht2, Ht1, <- !app_assoc.
    split_and!; try done; try lia;
      try (by rewrite announcements_app, Ha1, Ha2).
    intros _. apply Hnot2. lia.
Qed.

(** One run, from the cursor [c]: it announces the blocks from [c] on, in
    order, each with the data of what its fetch found, and stops past the
    height or at the first block that does not go through. *)
Lemma readBlocksLoop_delivery w head s :
  ∃ ext extra, trace (readBlocksLoop w head s) = trace s ++ ext
    ∧ expectedBlockNumber s <= expectedBlockNumber (readBlocksLoop w head s)
    ∧ announcements ext
      = delivered w (expectedBlockNumber s)
          (expectedBlockNumber (readBlocksLoop w head s)) ++ extra
    ∧ (∀ k, expectedBlockNumber s <= k
            < expectedBlockNumber (readBlocksLoop w head s) → accepted w k)
    ∧ (∀ h, head = Return h →
         expectedBlockNumber (readBlocksLoop w head s)
         <= Z.max h (expectedBlockNumber s) + 1
         ∧ (expectedBlockNumber (readBlocksLoop w head s)
            <= Z.max h (expectedBlockNumber s) →
            ¬ deliverable w (expectedBlockNumber (readBlocksLoop w head s))))
    ∧ (extra = []
       ∨ extra = announced_at w (expectedBlockNumber (readBlocksLoop w head s))
         ∧ refused w (expectedBlockNumber (readBlocksLoop w head s))
         ∧ ∃ h, head = Return h
                ∧ expectedBlockNumber (readBlocksLoop w head s)
                  <= Z.max h (expectedBlockNumber s))
    ∧ block_txt (readBlocksLoop w head s)
      = match extra with
        | [] =>
            if decide (expectedBlockNumber (readBlocksLoop w head s)
                       = expectedBlockNumber s)
            then block_txt s
            else Some (toString
                         (expectedBlockNumber (readBlocksLoop w head s) - 1))
        | _ => Some (toString (expectedBlockNumber (readBlocksLoop w head s)))
        end.
Proof.
  unfold readBlocksLoop. destruct head as [h|msg].
  2:{ eexists [_], []. simpl. rewrite delivered_nil by lia.
      rewrite decide_True by done.
      split_and!; try done; try lia. by left. }
  cbv zeta. set (c := expectedBlockNumber s).
  assert ((if h <? c then c else h) = Z.max h c) as ->
    by (case_match eqn:Hlt; [apply Z.ltb_lt in Hlt|apply Z.ltb_ge in Hlt]; lia).
  destruct (batches_delivery w (Z.max h c) c ∅ s)
    as (ext & extra & Ht & Hc & Ha & Hd & Hnot & Hextra & Hf).
  { unfold pending_ok. fold c. split_and!; [lia..|].
    intros k [x Hk]. by rewrite lookup_empty in Hk. }
  { intros k Hk. fold c in Hk. lia. }
  { by left. }
  fold c in Hc, Ha, Hd, Hf.
  set (r := batches w (Z.max h c) c ∅ s) in *. clearbody r.
  assert (extra = []
          ∨ extra = announced_at w (expectedBlockNumber r.2)
            ∧ refused w (expectedBlockNumber r.2)
            ∧ ∃ h', Return h = Return h'
                    ∧ expectedBlockNumber r.2 <= Z.max h' c) as Hextra'.
  { destruct Hextra as [->|(-> & Href & Hle)]; [by left|right].
    split_and!; [done|done|]. by exists h. }
  clear Hextra.
  destruct r.1 as [[]|msg] eqn:Hr1.
  - exists ext, extra. split_and!; try done; try lia.
    intros h' [= <-]. split; [lia|done].
  - exists (ext ++ [mkEntry (expectedBlockNumber r.2) (Emit_error msg)]), extra.
    simpl. rewrite Ht, <- app_assoc. split_and!; try done; try lia.
    + rewrite announcements_app, Ha. simpl. by rewrite app_nil_r.
    + intros h' [= <-]. split; [lia|done].
Qed.

End Deliver.

(** * Further properties of the reader: order, provenance, progress *)

Section Delivery_properties.
Import Reader Invariant Delivery Scenario.

Lemma Walk_app (a b c : Z) (l1 l2 : list Z) :
  Walk a l1 b → Walk b l2 c → Walk a (l1 ++ l2) c.
Proof.
  induction 1 as [c0|c0 l c1 _ IH|c0 l c1 _ IH]; intros H2; simpl.
  - done.
  - apply Walk_on. by apply IH.
  - apply Walk_again. by apply IH.
Qed.

Lemma Walk_seqZ (c : Z) (n : nat) : Walk c (seqZ c (Z.of_nat n)) (c + Z.of_nat n).
Proof.
  revert c. induction n as [|n IH]; intros c.
  - simpl. rewrite Z.add_0_r. constructor.
  - rewrite seqZ_cons by lia. apply Walk_on.
    replace (Z.pred (Z.of_nat (S n))) with (Z.of_nat n) by lia.
    replace (c + Z.of_nat (S n)) with (Z.succ c + Z.of_nat n) by lia.
    apply IH.
Qed.

Lemma Walk_head (c c' a : Z) (l : list Z) :
  Walk c l c' → l !! 0%nat = Some a → a = c.
Proof. by destruct 1; intros [=]. Qed.

(** What a walk says of its cursors: each one is the one before or the
    next, and every value passed is there. *)
Lemma Walk_steps (c c' : Z) (l : list Z) :
  Walk c l c' →
  c <= c'
  ∧ (∀ i a b, l !! i = Some a → l !! S i = Some b → b = a ∨ b = a + 1)
  ∧ (∀ k, c <= k < c' → k ∈ l)
  ∧ (∀ k, k ∈ l → c <= k <= c').
Proof.
  induction 1 as [c|c l c' Hw (Hle & Hstep & Hin & Hran)
                   |c l c' Hw (Hle & Hstep & Hin & Hran)].
  - split_and!; [lia| |intros; lia|].
    + intros i a b Hi. by rewrite lookup_nil in Hi.
    + intros k Hk. by apply not_elem_of_nil in Hk.
  - split_and!; [lia| | |].
    + intros [|i] a b Hi Hj; simpl in Hi, Hj.
      * injection Hi as <-. right. by apply (Walk_head _ _ _ _ Hw).
      * by apply (Hstep i).
    + intros k Hk. destruct (decide (k = c)) as [->|]; [left|right].
      apply Hin. lia.
    + intros k [->|Hk]%elem_of_cons; [lia|]. apply Hran in Hk. lia.
  - split_and!; [lia| | |].
    + intros [|i] a b Hi Hj; simpl in Hi, Hj.
      * injection Hi as <-. left. by apply (Walk_head _ _ _ _ Hw).
      * by apply (Hstep i).
    + intros k Hk. right. by apply Hin.
    + intros k [->|Hk]%elem_of_cons; [lia|]. by apply Hran.
Qed.

(** The cursors of the announcements of one run. *)
Lemma readBlocksLoop_cursors w head s :
  let c := expectedBlockNumber s in
  let c' := expectedBlockNumber (readBlocksLoop w head s) in
  let cursors := (announcements (since s (readBlocksLoop w head s))).*1 in
  c <= c'
  ∧ (cursors = seqZ c (c' - c)
     ∨ cursors = seqZ c (c' - c) ++ [c'] ∧ refused w c').
Proof.
  cbv zeta.
  destruct (readBlocksLoop_delivery w head s)
    as (ext & extra & Ht & Hc & Ha & Hd & _ & Hextra & _).
  rewrite (since_app _ _ _ Ht), Ha, fmap_app, delivered_cursors by done.
  split; [done|].
  destruct Hextra as [->|(-> & Href & _)]; [left; by rewrite app_nil_r|right].
  split; [|done]. destruct Href as (block & msg & Hb & _).
  unfold announced_at. by rewrite Hb.
Qed.

Lemma runs_delivery (later : list (World * Completion Z)) :
  ∀ s, ∃ ext, trace (runs later s) = trace s ++ ext
    ∧ Walk (expectedBlockNumber s) (announcements ext).*1
        (expectedBlockNumber (runs later s))
    ∧ ((∀ wh block, wh ∈ later → new_block_listener wh.1 block = Return tt) →
       (announcements ext).*1
       = seqZ (expectedBlockNumber s)
           (expectedBlockNumber (runs later s) - expectedBlockNumber s)).
Proof.
  induction later as [|[w head] later IH]; intros s.
  - exists []. simpl. rewrite app_nil_r. split_and!; [done|constructor|].
    intros _. by rewrite Z.sub_diag.
  - simpl.
    destruct (readBlocksLoop_delivery w head s) as (e1 & _ & Ht1 & _).
    destruct (readBlocksLoop_cursors w head s) as [Hc1 Hcs1].
    rewrite (since_app _ _ _ Ht1) in Hcs1.
    destruct (IH (readBlocksLoop w head s)) as (e2 & Ht2 & Hw2 & Hq2).
    set (s1 := readBlocksLoop w head s) in *. clearbody s1.
    set (c := expectedBlockNumber s) in *.
    set (c1 := expectedBlockNumber s1) in *.
    assert (Walk c (seqZ c (c1 - c)) c1) as Hseq.
    { replace (c1 - c) with (Z.of_nat (Z.to_nat (c1 - c))) by lia.
      replace c1 with (c + Z.of_nat (Z.to_nat (c1 - c))) at 2 by lia.
      apply Walk_seqZ. }
    exists (e1 ++ e2). rewrite Ht2, Ht1, <- app_assoc.
    rewrite announcements_app, fmap_app. split_and!; [done| |].
    + apply (Walk_app _ c1); [|done].
      destruct Hcs1 as [->|[-> _]]; [done|].
      apply (Walk_app _ c1); [done|]. apply Walk_again. constructor.
    + intros Hquiet. rewrite Hq2 by (intros wh b Hwh; apply Hquiet; by right).
      destruct Hcs1 as [->|[_ (b & msg & _ & _ & Hthrow)]].
      * destruct (Walk_steps _ _ _ Hw2) as (Hle & _).
        replace (expectedBlockNumber (runs later s1) - c)
          with ((c1 - c) + (expectedBlockNumber (runs later s1) - c1)) by lia.
        rewrite seqZ_app by lia. do 2 f_equal. lia.
      * pose proof (Hquiet (w, head) (blockData_of w b)) as Hret.
        simpl in Hret. rewrite Hret in Hthrow by left. discriminate Hthrow.
Qed.



(** X15.  A block announced in a run while the cursor is [k] carries the
    data of the block that the fetch of [k] found in that run, first
    usable answer of the provider for [k]: its hash is not empty, and its
    number is the one that the node gave, which the reader does not
    compare with [k].  The checkpoint [k] was written, and [k] is between
    the cursor before the run and the cursor after it. *)
Theorem announced_block_is_the_fetched_one
    (w : World) (head : Completion Z) (s : State) (k : Z) (block : BlockData) :
  (k, block) ∈ announcements (since s (readBlocksLoop w head s)) →
  expectedBlockNumber s <= k <= expectedBlockNumber (readBlocksLoop w head s)
  ∧ write_fails w (toString k) = false
  ∧ ∃ b, fetched w k = Some b ∧ usable (Some b) = true
         ∧ block = blockData_of w b
         ∧ bd_source block = "READER"
         ∧ bd_number block = number b
         ∧ bd_hash block = hash b
         ∧ bd_timestamp block = timestamp b
         ∧ bd_transactions block
           = normalizeTransaction <$> full_transactions w b.
Proof.
  destruct (readBlocksLoop_delivery w head s)
    as (ext & extra & Ht & Hc & Ha & Hd & _ & Hextra & _).
  rewrite (since_app _ _ _ Ht), Ha.
  assert (∀ b, fetched w k = Some b → block = blockData_of w b →
            ∃ b, fetched w k = Some b ∧ usable (Some b) = true
                 ∧ block = blockData_of w b
                 ∧ bd_source block = "READER"
                 ∧ bd_number block = number b
                 ∧ bd_hash block = hash b
                 ∧ bd_timestamp block = timestamp b
                 ∧ bd_transactions block
                   = normalizeTransaction <$> full_transactions w b) as Hgo.
  { intros b Hb ->. exists b. split_and!; try done. by eapply fetched_usable. }
  intros [Hin|Hin]%elem_of_app.
  - unfold delivered in Hin.
    apply list_elem_of_omap in Hin as (k' & Hk' & Hf).
    apply elem_of_seqZ in Hk'.
    destruct (fetched w k') as [b|] eqn:Hb; [|discriminate Hf].
    injection Hf as <- <-.
    destruct (Hd k') as (b' & Hb' & Hw & _); [lia|].
    split; [lia|]. split; [done|]. by apply (Hgo b).
  - destruct Hextra as [->|(-> & (b & msg & Hb & Hw & _) & _)].
    { by apply not_elem_of_nil in Hin. }
    unfold announced_at in Hin. rewrite Hb in Hin.
    apply list_elem_of_singleton in Hin. injection Hin as -> ->.
    split; [lia|]. split; [done|]. by apply (Hgo b).
Qed.

Lemma announced_block_is_the_fetched_one_example :
  (8, mkBlockData "READER" 999 (Some "0xabc") 1700000000 [])
  ∈ announcements
      (since (Chains.reader_at 8)
         (readBlocksLoop Chains.mislabelled (Return 8) (Chains.reader_at 8)))
  ∧ fetched Chains.mislabelled 8 = Some (block_at 999)
  ∧ ∃ b, fetched Chains.mislabelled 8 = Some b
         ∧ bd_number (mkBlockData "READER" 999 (Some "0xabc") 1700000000 [])
           = number b.
Proof.
  assert ((8, mkBlockData "READER" 999 (Some "0xabc") 1700000000 [])
          ∈ announcements
              (since (Chains.reader_at 8)
                 (readBlocksLoop Chains.mislabelled (Return 8)
                    (Chains.reader_at 8)))) as Hin.
  { assert (announcements
              (since (Chains.reader_at 8)
                 (readBlocksLoop Chains.mislabelled (Return 8)
                    (Chains.reader_at 8)))
            = [(8, mkBlockData "READER" 999 (Some "0xabc") 1700000000 [])])
      as -> by (vm_compute; reflexivity).
    left. }
  split; [exact Hin|]. split; [vm_compute; reflexivity|].
  destruct (announced_block_is_the_fetched_one _ _ _ _ _ Hin)
    as (_ & _ & b & Hb & _ & _ & _ & Hn & _).
  exists b. split; [exact Hb|exact Hn].
Defined.

(** X16.  A run that knows the height [h] takes the blocks from the cursor
    on, one by one, and stops past the height or at the first block that
    does not go through.  Every block below the new cursor was fetched and
    checkpointed, and the listeners of [new_block] returned on it.  The
    block at the new cursor, unless it is past the height, is one that
    cannot be delivered: its fetch gave up, the disk refused its
    checkpoint, or a listener threw on it or on one of its transactions.
    So a run over blocks that can all be delivered ends with the cursor
    one past the height. *)
Theorem run_stops_at_the_first_undeliverable_block
    (w : World) (h : Z) (s : State) :
  let c := expectedBlockNumber s in
  let c' := expectedBlockNumber (readBlocksLoop w (Return h) s) in
  c <= c' <= Z.max h c + 1
  ∧ (∀ k, c <= k < c' → accepted w k)
  ∧ (c' <= Z.max h c → ¬ deliverable w c')
  ∧ ((∀ k, c <= k <= Z.max h c → deliverable w k) → c' = Z.max h c + 1).
Proof.
  intros c c'.
  destruct (readBlocksLoop_delivery w (Return h) s)
    as (ext & extra & _ & Hc & _ & Hd & Hend & _).
  destruct (Hend h eq_refl) as [Hle Hstop]. fold c c' in Hc, Hd, Hle, Hstop.
  split_and!; [done|lia|done|done|].
  intros Hall. destruct (decide (c' <= Z.max h c)) as [Hin|]; [|lia].
  destruct (Hstop Hin). apply Hall. lia.
Qed.

(** X17.  The checkpoint file after a run, and where a reader that is
    started again on it resumes (while the chain is at most [rereadBlocks]
    ahead of the checkpoint, which is not 0).  When the run moved the
    cursor and its last announcement went through, the file holds the
    number before the cursor and the restart resumes at the cursor: no
    block is lost and none is announced again.  When a listener threw on
    the block at the cursor, the file already holds the cursor: the next
    run would announce that block again, but a restart resumes one past
    it. *)
Theorem restart_resumes_where_the_run_stopped
    (w w' : World) (head : Completion Z) (s : State) (H : Z) :
  let s' := readBlocksLoop w head s in
  let c := expectedBlockNumber s in
  let c' := expectedBlockNumber s' in
  let cursors := (announcements (since s s')).*1 in
  (c' ∉ cursors → c < c' →
   block_txt s' = Some (toString (c' - 1))
   ∧ (c' ≠ 1 → H - (c' - 1) <= rereadBlocks →
      expectedBlockNumber (resume w' (Return H) (init (block_txt s'))) = c'))
  ∧ (c' ∈ cursors →
     refused w c'
     ∧ block_txt s' = Some (toString c')
     ∧ (c' ≠ 0 → H - c' <= rereadBlocks →
        expectedBlockNumber (resume w' (Return H) (init (block_txt s')))
        = c' + 1)).
Proof.
  intros s' c c' cursors.
  assert (∀ C, block_txt s' = Some (toString C) → C ≠ 0 →
               H - C <= rereadBlocks →
               expectedBlockNumber (resume w' (Return H) (init (block_txt s')))
               = C + 1) as Hresume.
  { intros C Hf Hnz Hnear. rewrite Hf. unfold resume. cbv zeta.
    rewrite (loadLastProcessedBlock_checkpoint w' C H) by done.
    assert ((rereadBlocks <? H - C) = false) as -> by (apply Z.ltb_ge; lia).
    assert ((C =? 0) = false) as -> by (apply Z.eqb_neq; lia).
    reflexivity. }
  destruct (readBlocksLoop_delivery w head s)
    as (ext & extra & Ht & Hc & Ha & Hd & _ & Hextra & Hf).
  fold s' in Ht, Hc, Ha, Hd, Hextra, Hf. fold c c' in Hc, Ha, Hd, Hextra, Hf.
  assert (cursors = seqZ c (c' - c) ++ extra.*1) as Hcs.
  { unfold cursors.
    by rewrite (since_app _ _ _ Ht), Ha, fmap_app, delivered_cursors. }
  assert (c' ∉ seqZ c (c' - c)) as Hnot
    by (intros Hin%elem_of_seqZ; lia).
  destruct Hextra as [->|(-> & Href & _)].
  - rewrite app_nil_r in Hcs. split.
    + intros _ Hlt. rewrite decide_False in Hf by lia. split; [done|].
      intros Hnz Hnear. rewrite (Hresume (c' - 1)) by (done || lia). lia.
    + rewrite Hcs. done.
  - destruct Href as (b & msg & Hb & Hw & Hthrow).
    unfold announced_at in Hf, Hcs. rewrite Hb in Hf, Hcs. split.
    + intros Hout. destruct Hout. rewrite Hcs. apply elem_of_app. right. left.
    + intros _. split; [by exists b, msg|]. split; [done|].
      intros Hnz Hnear. by apply Hresume.
Qed.

Lemma restart_resumes_where_the_run_stopped_example :
  (expectedBlockNumber (readBlocksLoop healthy (Return 105) (Chains.reader_at 103))
   = 106
   ∧ block_txt (readBlocksLoop healthy (Return 105) (Chains.reader_at 103))
     = Some "105"
   ∧ expectedBlockNumber
       (resume healthy (Return 110)
          (init (block_txt (readBlocksLoop healthy (Return 105)
                              (Chains.reader_at 103)))))
     = 106)
  ∧ (expectedBlockNumber
       (readBlocksLoop (refusing 104) (Return 105) (Chains.reader_at 103))
     = 104
     ∧ block_txt (readBlocksLoop (refusing 104) (Return 105)
                    (Chains.reader_at 103))
       = Some "104"
     ∧ expectedBlockNumber
         (resume healthy (Return 110)
            (init (block_txt (readBlocksLoop (refusing 104) (Return 105)
                                (Chains.reader_at 103)))))
       = 105).
Proof.
  split.
  - destruct (restart_resumes_where_the_run_stopped healthy healthy
                (Return 105) (Chains.reader_at 103) 110) as [Hon _].
    cbv zeta in Hon.
    assert (expectedBlockNumber (readBlocksLoop healthy (Return 105)
                                   (Chains.reader_at 103)) = 106) as Hc
      by (vm_compute; reflexivity).
    rewrite Hc in Hon.
    destruct Hon as [Hfile Hresume].
    + assert ((announcements
                 (since (Chains.reader_at 103)
                    (readBlocksLoop healthy (Return 105)
                       (Chains.reader_at 103)))).*1 = [103; 104; 105]) as ->
        by (vm_compute; reflexivity).
      intros Hin. repeat (apply elem_of_cons in Hin as [Hin|Hin]; [lia|]).
      by apply not_elem_of_nil in Hin.
    + vm_compute. reflexivity.
    + split; [exact Hc|]. split; [exact Hfile|].
      rewrite Hresume; [reflexivity|lia|]. vm_compute. discriminate.
  - destruct (restart_resumes_where_the_run_stopped (refusing 104) healthy
                (Return 105) (Chains.reader_at 103) 110) as [_ Hagain].
    cbv zeta in Hagain.
    assert (expectedBlockNumber (readBlocksLoop (refusing 104) (Return 105)
                                   (Chains.reader_at 103)) = 104) as Hc
      by (vm_compute; reflexivity).
    rewrite Hc in Hagain.
    destruct Hagain as (_ & Hfile & Hresume).
    + assert ((announcements
                 (since (Chains.reader_at 103)
                    (readBlocksLoop (refusing 104) (Return 105)
                       (Chains.reader_at 103)))).*1 = [103; 104]) as ->
        by (vm_compute; reflexivity).
      right. left.
    + split; [exact Hc|]. split; [exact Hfile|].
      rewrite Hresume; [reflexivity|lia|]. vm_compute. discriminate.
Defined.

(** X18.  A block that no fetch finds stops the reader at that block for
    as long as it is missing: over any number of runs, whatever the height
    and whatever the later blocks are, the cursor does not move, nothing is
    announced and the checkpoint file is left as it was. *)
Theorem missing_block_stalls_the_reader
    (later : list (World * Completion Z)) (s : State) :
  (∀ wh, wh ∈ later → fetched wh.1 (expectedBlockNumber s) = None) →
  expectedBlockNumber (runs later s) = expectedBlockNumber s
  ∧ announcements (since s (runs later s)) = []
  ∧ block_txt (runs later s) = block_txt s.
Proof.
  revert s. induction later as [|[w head] later IH]; intros s Hmiss.
  - simpl. unfold since. by rewrite drop_all.
  - simpl.
    destruct (readBlocksLoop_delivery w head s)
      as (e1 & extra & Ht1 & Hc1 & Ha1 & Hd1 & _ & Hextra & Hf1).
    assert (fetched w (expectedBlockNumber s) = None) as Hm
      by (apply (Hmiss (w, head)); left).
    assert (expectedBlockNumber (readBlocksLoop w head s) = expectedBlockNumber s)
      as Hsame.
    { destruct (decide (expectedBlockNumber (readBlocksLoop w head s)
                        = expectedBlockNumber s)) as [|Hne]; [done|].
      destruct (Hd1 (expectedBlockNumber s)) as (b & Hb & _); [lia|].
      rewrite Hm in Hb. discriminate Hb. }
    rewrite Hsame in Hextra.
    assert (extra = []) as ->.
    { destruct Hextra as [->|(_ & (b & msg & Hb & _) & _)]; [done|].
      rewrite Hm in Hb. discriminate Hb. }
    rewrite Hsame, delivered_nil in Ha1 by lia.
    rewrite decide_True in Hf1 by done.
    set (s1 := readBlocksLoop w head s) in *. clearbody s1.
    destruct (IH s1) as (Hc2 & Ha2 & Hf2).
    { intros wh Hwh. rewrite Hsame. apply Hmiss. by right. }
    split_and!; [congruence| |congruence].
    destruct (runs_delivery later s1) as (e2 & Ht2 & _).
    rewrite (since_app _ _ _ Ht2) in Ha2.
    rewrite (since_app s (runs later s1) (e1 ++ e2))
      by (rewrite Ht2, Ht1; by rewrite app_assoc).
    by rewrite announcements_app, Ha1, Ha2.
Qed.

Lemma missing_block_stalls_the_reader_example :
  (∀ wh, wh ∈ Chains.stuck_runs →
     fetched wh.1 (expectedBlockNumber (Chains.reader_at 100)) = None)
  ∧ expectedBlockNumber (runs Chains.stuck_runs (Chains.reader_at 100)) = 100
  ∧ announcements (since (Chains.reader_at 100)
                     (runs Chains.stuck_runs (Chains.reader_at 100))) = []
  ∧ block_txt (runs Chains.stuck_runs (Chains.reader_at 100)) = None.
Proof.
  assert (∀ wh, wh ∈ Chains.stuck_runs →
            fetched wh.1 (expectedBlockNumber (Chains.reader_at 100)) = None)
    as Hmiss.
  { intros wh Hin. unfold Chains.stuck_runs in Hin.
    rewrite !elem_of_cons in Hin.
    destruct Hin as [->|[->|Hin]]; [vm_compute; reflexivity..|].
    by apply not_elem_of_nil in Hin. }
  split; [exact Hmiss|].
  exact (missing_block_stalls_the_reader Chains.stuck_runs
           (Chains.reader_at 100) Hmiss).
Defined.

End Delivery_properties.

(** * Further properties of the reader: what it remembers *)

Section Recency.
Import Reader Invariant Delivery.

(** [array.shift()] keeps an array without repetitions so. *)
Lemma NoDup_shift {A} (l : list A) : NoDup l → NoDup (drop 1 l).
Proof.
  destruct l as [|a l]; [done|]. intros Hnd. by apply NoDup_cons_1_2 in Hnd.
Qed.

Lemma recent_saveLastProcessedBlock w n s :
  recent (saveLastProcessedBlock w n s).2 = recent s.
Proof. unfold saveLastProcessedBlock. cbv zeta. by case_match. Qed.

(** The two lists after [processTransaction]: the blocks are left alone,
    no hash comes twice, and the list of hashes is trimmed to 2000 when
    the listeners return. *)
Lemma processTransaction_recent w tx s :
  let r := processTransaction w tx s in
  processedBlocks r.2 = processedBlocks s
  ∧ (NoDup (processedTransactions s) → NoDup (processedTransactions r.2))
  ∧ ((∀ tx, new_transaction_listener w tx = Return tt) →
     (length (processedTransactions s) <= 2000)%nat →
     (length (processedTransactions r.2) <= 2000)%nat).
Proof.
  cbv zeta. unfold processTransaction. case_bool_decide as Hin; [done|].
  cbv zeta.
  assert (NoDup (processedTransactions s) →
          NoDup (processedTransactions s ++ [tx_hash (td_tx tx)])) as Hnd'.
  { intros Hnd. apply NoDup_app.
    split_and!; [done| |apply NoDup_singleton].
    intros x Hx ->%list_elem_of_singleton. done. }
  destruct (new_transaction_listener w tx) as [[]|msg] eqn:Hl; simpl.
  - case_match eqn:Hover; simpl; split_and!; try done.
    + intros Hnd. by apply NoDup_shift, Hnd'.
    + intros _ Hlen. rewrite length_drop, length_app. simpl. lia.
    + intros _ _. by apply Nat.ltb_ge in Hover.
  - split_and!; try done. intros Hquiet. rewrite Hquiet in Hl. discriminate Hl.
Qed.

Lemma processTransactions_recent w txs :
  ∀ s, let r := processTransactions w txs s in
    processedBlocks r.2 = processedBlocks s
    ∧ (NoDup (processedTransactions s) → NoDup (processedTransactions r.2))
    ∧ ((∀ tx, new_transaction_listener w tx = Return tt) →
       (length (processedTransactions s) <= 2000)%nat →
       (length (processedTransactions r.2) <= 2000)%nat).
Proof.
  induction txs as [|tx txs IH]; intros s; [done|]. cbv zeta. simpl.
  destruct (processTransaction_recent w (mkTransactionData tx "block") s)
    as (Hb1 & Hnd1 & Hlen1).
  cbv zeta in Hb1, Hnd1, Hlen1.
  set (r1 := processTransaction w (mkTransactionData tx "block") s) in *.
  clearbody r1.
  destruct r1.1 as [[]|msg]; [|done].
  destruct (IH r1.2) as (Hb2 & Hnd2 & Hlen2). cbv zeta in Hb2, Hnd2, Hlen2.
  split_and!; [congruence|auto|auto].
Qed.

Lemma processBlock_recent w block s :
  let r := processBlock w block s in
  (tidy (recent s) → tidy (recent r.2))
  ∧ ((∀ tx, new_transaction_listener w tx = Return tt) →
     (length (processedTransactions s) <= 2000)%nat →
     (length (processedTransactions r.2) <= 2000)%nat).
Proof.
  cbv zeta. unfold processBlock. cbv zeta.
  destruct (processTransactions_recent w
              (normalizeTransaction <$> full_transactions w block) s)
    as (Hb & Hnd & Hlen).
  cbv zeta in Hb, Hnd, Hlen.
  set (r := processTransactions w _ s) in *. clearbody r.
  unfold tidy, recent.
  destruct r.1 as [[]|msg]; cbn [fst snd].
  2:{ rewrite Hb. split; [|done]. intros (H1 & H2 & H3). auto. }
  cbn [bd_number].
  case_bool_decide as Hin.
  { rewrite Hb. split; [|done]. intros (H1 & H2 & H3). auto. }
  cbv zeta. cbn [processedBlocks set_processedBlocks].
  assert (NoDup (processedBlocks s) →
          NoDup (processedBlocks r.2 ++ [number block])) as Hnd'.
  { intros Hnb. apply NoDup_app. rewrite Hb.
    split_and!; [done| |apply NoDup_singleton].
    intros x Hx ->%list_elem_of_singleton. by rewrite Hb in Hin. }
  case_match eqn:Hover; cbn [processedBlocks processedTransactions
                             set_processedBlocks]; (split; [|done]).
  - intros (H1 & H2 & H3). split_and!; [|by apply NoDup_shift, Hnd'|auto].
    rewrite length_drop, length_app, Hb. simpl. lia.
  - intros (H1 & H2 & H3). apply Nat.ltb_ge in Hover. auto.
Qed.

(** X19.  However long the reader runs, whatever the nodes, the disk and
    the listeners do, it remembers at most 100 block numbers, and no number
    or hash twice.  The list of hashes is trimmed after the listeners of
    [new_transaction] have returned: as long as none of them throws, the
    reader remembers at most 2000 hashes. *)
Theorem recent_lists_stay_bounded
    (file : option string) (w : World) (currentBlock head : Completion Z)
    (later : list (World * Completion Z)) :
  let s' := runs later (start w currentBlock head (init file)) in
  (length (processedBlocks s') <= 100)%nat
  ∧ NoDup (processedBlocks s')
  ∧ NoDup (processedTransactions s')
  ∧ ((∀ wh tx, wh ∈ (w, head) :: later →
        new_transaction_listener wh.1 tx = Return tt) →
     (length (processedTransactions s') <= 2000)%nat).
Proof.
  intros s'.
  change (runs later (start w currentBlock head (init file)))
    with (runs ((w, head) :: later) (resume w currentBlock (init file))) in s'.
  assert (tidy (recent s')) as (H1 & H2 & H3).
  { unfold s'. apply (runs_keeps (λ s, tidy (recent s))).
    - intros a s _ Hs. exact Hs.
    - intros n s Hs. exact Hs.
    - intros w' n s Hs. by rewrite recent_saveLastProcessedBlock.
    - intros wh block s _. apply processBlock_recent.
    - apply (resume_keeps (λ s, tidy (recent s))).
      + intros a s _ Hs. exact Hs.
      + intros n s Hs. exact Hs.
      + intros w' n s Hs. by rewrite recent_saveLastProcessedBlock.
      + unfold tidy. simpl. split_and!; [lia|apply NoDup_nil_2..]. }
  split_and!; [done..|].
  intros Hquiet. unfold s'.
  apply (runs_keeps (λ s, (length (recent s).2 <= 2000)%nat)).
  - intros a s _ Hs. exact Hs.
  - intros n s Hs. exact Hs.
  - intros w' n s Hs. by rewrite recent_saveLastProcessedBlock.
  - intros wh block s Hwh. apply processBlock_recent.
    intros tx. by apply Hquiet.
  - apply (resume_keeps (λ s, (length (recent s).2 <= 2000)%nat)).
    + intros a s _ Hs. exact Hs.
    + intros n s Hs. exact Hs.
    + intros w' n s Hs. by rewrite recent_saveLastProcessedBlock.
    + simpl. lia.
Qed.

(** X20.  A transaction is announced by its hash alone.  Right after a
    transaction has been processed, whether its listeners returned or
    threw, its hash is among the recent ones, and a transaction with the
    same hash is dropped without a trace, whatever its other fields are.
    Transactions that come without a hash all have the empty hash, so only
    the first of them is announced. *)
Theorem same_hash_is_announced_once
    (w1 w2 : World) (tx1 tx2 : TransactionData) (s : State) :
  tx_hash (td_tx tx1) = tx_hash (td_tx tx2) →
  tx_hash (td_tx tx1) ∈ processedTransactions (processTransaction w1 tx1 s).2
  ∧ processTransaction w2 tx2 (processTransaction w1 tx1 s).2
    = (Return tt, (processTransaction w1 tx1 s).2).
Proof.
  intros Hsame.
  assert (tx_hash (td_tx tx1)
          ∈ processedTransactions (processTransaction w1 tx1 s).2) as Hin.
  { unfold processTransaction. case_bool_decide as Hin; [done|].
    cbv zeta.
    destruct (new_transaction_listener w1 tx1) as [[]|msg]; simpl.
    - case_match eqn:Hover; simpl.
      + destruct (processedTransactions s) as [|h l]; [discriminate Hover|].
        simpl. rewrite drop_0. apply elem_of_app. right. left.
      + apply elem_of_app. right. left.
    - apply elem_of_app. right. left. }
  split; [done|].
  unfold processTransaction at 1. rewrite <- Hsame.
  by rewrite bool_decide_eq_true_2.
Qed.

Lemma same_hash_is_announced_once_example :
  tx_hash (td_tx (Chains.unhashed 1)) = tx_hash (td_tx (Chains.unhashed 2))
  ∧ Chains.unhashed 1 ≠ Chains.unhashed 2
  ∧ trace (processTransaction Scenario.healthy (Chains.unhashed 2)
             (processTransaction Scenario.healthy (Chains.unhashed 1)
                (init None)).2).2
    = [mkEntry 0 (Emit_new_transaction (Chains.unhashed 1))]
  ∧ processTransaction Scenario.healthy (Chains.unhashed 2)
      (processTransaction Scenario.healthy (Chains.unhashed 1) (init None)).2
    = (Return tt,
       (processTransaction Scenario.healthy (Chains.unhashed 1) (init None)).2).
Proof.
  assert (tx_hash (td_tx (Chains.unhashed 1))
          = tx_hash (td_tx (Chains.unhashed 2))) as Hsame by reflexivity.
  split; [exact Hsame|]. split; [discriminate|].
  split; [vm_compute; reflexivity|].
  apply (same_hash_is_announced_once _ _ _ _ (init None) Hsame).
Defined.

End Recency.

(** * Further properties of the reader: starting *)

Section Starting.
Import Reader Invariant Delivery Scenario.

Lemma healthy_deliverable (k : Z) : deliverable healthy k.
Proof.
  exists (block_at k). split_and!; [|done..].
  unfold fetched, tryGetBlock, maxAttempts.
  by rewrite (tryGetBlock_loop_found _ _ _ _ _ (Some (block_at k))).
Qed.

(** X21.  A reader that finds no usable checkpoint starts near the head
    of the chain, and the two cases differ.  Without a checkpoint file it
    writes the height [H] as the checkpoint and reads on from [H + 1].
    With a file in which [parseInt] finds no number, or finds 0, it goes
    [rereadBlocks] back: it writes [H - 10] and reads on from [H - 9].
    Neither case emits an error, and the first run begins with the fetch
    of that block and does nothing below it.  What [parseInt] skips before
    the number is the white space of JavaScript, so a file that begins
    with a byte order mark is read as the number after it. *)
Theorem start_without_a_usable_checkpoint
    (w : World) (file : option string) (H head : Z) :
  let first := match file with None => H | Some _ => H - rereadBlocks end in
  default 0 (file ≫= parseInt) = 0 →
  write_fails w (toString first) = false →
  resume w (Return H) (init file)
  = mkState (first + 1) [] [] (Some (toString first))
      [mkEntry 0 (WriteFile (toString first));
       mkEntry 0 (SetCursor (first + 1))]
  ∧ ∃ rest,
      trace (start w (Return H) (Return head) (init file))
      = mkEntry 0 (WriteFile (toString first))
        :: mkEntry 0 (SetCursor (first + 1))
        :: mkEntry (first + 1) (Call_getBlock (first + 1)) :: rest
      ∧ Forall (λ e, first + 1 <= at_cursor e) rest.
Proof.
  intros first Hnone Hdisk.
  assert (resume w (Return H) (init file)
          = mkState (first + 1) [] [] (Some (toString first))
              [mkEntry 0 (WriteFile (toString first));
               mkEntry 0 (SetCursor (first + 1))]) as Hres.
  { unfold resume, loadLastProcessedBlock. cbv zeta.
    destruct file as [data|]; simpl in Hnone |- *.
    - rewrite Hnone. change (0 =? 0) with true. rewrite orb_true_r.
      unfold saveLastProcessedBlock. cbv zeta. fold first. rewrite Hdisk.
      reflexivity.
    - unfold saveLastProcessedBlock. cbv zeta. fold first. rewrite Hdisk.
      reflexivity. }
  split; [exact Hres|]. unfold start. rewrite Hres.
  destruct (readBlocksLoop_first_fetch w head
              (mkState (first + 1) [] [] (Some (toString first))
                 [mkEntry 0 (WriteFile (toString first));
                  mkEntry 0 (SetCursor (first + 1))])) as (rest & Ht & Hg).
  exists rest. split; [exact Ht|exact Hg].
Qed.

Lemma start_without_a_usable_checkpoint_example :
  (default 0 (None ≫= parseInt) = 0
   ∧ resume healthy (Return 500) (init None)
     = mkState 501 [] [] (Some "500")
         [mkEntry 0 (WriteFile "500"); mkEntry 0 (SetCursor 501)])
  ∧ (default 0 (Some "not a number" ≫= parseInt) = 0
     ∧ resume healthy (Return 500) (init (Some "not a number"))
       = mkState 491 [] [] (Some "490")
           [mkEntry 0 (WriteFile "490"); mkEntry 0 (SetCursor 491)])
  ∧ (default 0 (Some Chains.bom ≫= parseInt) = 0
     ∧ resume healthy (Return 45) (init (Some Chains.bom))
       = mkState 36 [] [] (Some "35")
           [mkEntry 0 (WriteFile "35"); mkEntry 0 (SetCursor 36)])
  ∧ (default 0 (Some (Chains.bom +:+ "42") ≫= parseInt) = 42
     ∧ resume healthy (Return 45) (init (Some (Chains.bom +:+ "42")))
       = mkState 43 [] [] (Some (Chains.bom +:+ "42"))
           [mkEntry 0 (SetCursor 43)]).
Proof.
  split_and!.
  - reflexivity.
  - assert (default 0 (None ≫= parseInt) = 0) as Hnone by reflexivity.
    exact (proj1 (start_without_a_usable_checkpoint healthy None 500 500
                    Hnone eq_refl)).
  - vm_compute. reflexivity.
  - assert (default 0 (Some "not a number" ≫= parseInt) = 0) as Hnone
      by reflexivity.
    exact (proj1 (start_without_a_usable_checkpoint healthy
                    (Some "not a number") 500 500 Hnone eq_refl)).
  - vm_compute. reflexivity.
  - assert (default 0 (Some Chains.bom ≫= parseInt) = 0) as Hnone
      by (vm_compute; reflexivity).
    exact (proj1 (start_without_a_usable_checkpoint healthy
                    (Some Chains.bom) 45 45 Hnone eq_refl)).
  - vm_compute. reflexivity.
  - vm_compute. reflexivity.
Defined.

(** X22.  A first start, without a checkpoint file, at which the height
    query fails or the disk refuses the checkpoint: the reader emits the
    error and sets its cursor to 1.  The first run that gets a height [h]
    then reads the chain from block 1, whether the disk still refuses or
    not: it stops at the first block that does not go through, and when
    every block up to [h] can be delivered it announces all [h] of them,
    however large [h] is. *)
Theorem first_start_in_trouble_replays_the_chain
    (w0 w : World) (currentBlock : Completion Z) (h : Z) :
  (match currentBlock with
   | Throw _ => True
   | Return H => write_fails w0 (toString H) = true
   end) →
  1 <= h →
  let s0 := resume w0 currentBlock (init None) in
  let s' := readBlocksLoop w (Return h) s0 in
  (∃ msg, s0 = mkState 1 [] [] None
                 [mkEntry 0 (Emit_error msg); mkEntry 0 (SetCursor 1)])
  ∧ (∃ rest, since s0 s' = mkEntry 1 (Call_getBlock 1) :: rest)
  ∧ 1 <= expectedBlockNumber s' <= h + 1
  ∧ (expectedBlockNumber s' <= h → ¬ deliverable w (expectedBlockNumber s'))
  ∧ ((∀ k, 1 <= k <= h → deliverable w k) →
     expectedBlockNumber s' = h + 1
     ∧ (announcements (trace s')).*1 = seqZ 1 h
     ∧ block_txt s' = Some (toString h)).
Proof.
  intros Htrouble Hh s0 s'.
  assert (∃ msg, s0 = mkState 1 [] [] None
                        [mkEntry 0 (Emit_error msg); mkEntry 0 (SetCursor 1)])
    as [msg Hs0].
  { unfold s0, resume, loadLastProcessedBlock. cbv zeta. simpl.
    destruct currentBlock as [H|msg]; [|by eexists].
    unfold saveLastProcessedBlock. cbv zeta. rewrite Htrouble. by eexists. }
  split; [by exists msg|].
  assert (expectedBlockNumber s0 = 1) as Hc0 by (by rewrite Hs0).
  split.
  { destruct (readBlocksLoop_first_fetch w h s0) as (rest & Ht & _).
    exists rest. rewrite Hc0 in Ht. exact (since_app _ _ _ Ht). }
  destruct (readBlocksLoop_delivery w (Return h) s0)
    as (ext & extra & Ht & Hc & Ha & Hd & Hend & Hextra & Hf).
  destruct (Hend h eq_refl) as [Hle Hstop].
  fold s' in Ht, Hc, Ha, Hd, Hextra, Hf, Hle, Hstop.
  set (c' := expectedBlockNumber s') in *.
  rewrite Hc0 in Hc, Ha, Hd, Hle, Hstop, Hextra, Hf.
  replace (Z.max h 1) with h in * by lia.
  split; [lia|]. split; [done|].
  intros Hall.
  assert (c' = h + 1) as Hc'.
  { destruct (decide (c' <= h)) as [Hin|]; [|lia].
    destruct (Hstop Hin). apply Hall. lia. }
  split; [done|].
  assert (extra = []) as ->.
  { destruct Hextra as [->|(_ & _ & h' & [= <-] & Hle')]; [done|lia]. }
  rewrite app_nil_r in Ha. split.
  - rewrite Ht, announcements_app, Ha, Hs0. simpl.
    rewrite delivered_cursors by done. f_equal. lia.
  - rewrite Hf, decide_False by lia. do 2 f_equal. lia.
Qed.

Lemma first_start_in_trouble_replays_the_chain_example :
  (expectedBlockNumber
     (resume healthy (Throw "All RPC nodes failed for getBlockNumber()")
        (init None)) = 1
   ∧ (announcements
        (trace (readBlocksLoop healthy (Return 12)
                  (resume healthy
                     (Throw "All RPC nodes failed for getBlockNumber()")
                     (init None))))).*1
     = seqZ 1 12)
  ∧ (write_fails Chains.read_only (toString 500) = true
     ∧ expectedBlockNumber (resume Chains.read_only (Return 500) (init None))
       = 1
     ∧ (announcements
          (trace (readBlocksLoop healthy (Return 500)
                    (resume Chains.read_only (Return 500) (init None))))).*1
       = seqZ 1 500
     ∧ expectedBlockNumber
         (readBlocksLoop Chains.read_only (Return 500)
            (resume Chains.read_only (Return 500) (init None)))
       = 1).
Proof.
  split.
  - destruct (first_start_in_trouble_replays_the_chain healthy healthy
                (Throw "All RPC nodes failed for getBlockNumber()") 12 I)
      as ([msg Hs0] & _ & _ & _ & Hall); [lia|].
    cbv zeta in Hall. split; [by rewrite Hs0|].
    apply Hall. intros k _. apply healthy_deliverable.
  - assert (write_fails Chains.read_only (toString 500) = true) as Hdisk
      by reflexivity.
    split; [exact Hdisk|].
    destruct (first_start_in_trouble_replays_the_chain Chains.read_only healthy
                (Return 500) 500 Hdisk)
      as ([msg Hs0] & _ & _ & _ & Hall); [lia|].
    cbv zeta in Hall. split; [by rewrite Hs0|]. split.
    + apply Hall. intros k _. apply healthy_deliverable.
    + vm_compute. reflexivity.
Defined.

End Starting.

(** * Further properties of the reader: the transactions of a block *)

Section Transactions.
Import Reader Invariant Delivery.

Lemma elem_of_shift {A} (l : list A) (x : A) : x ∈ drop 1 l → x ∈ l.
Proof. destruct l as [|a l]; [done|]. simpl. rewrite drop_0. by right. Qed.

Lemma processTransaction_event w tx s :
  let h := tx_hash tx in
  let r := processTransaction w (mkTransactionData tx "block") s in
  trace r.2
  = trace s ++ (if bool_decide (h ∈ processedTransactions s) then []
                else [transaction_event (expectedBlockNumber s) tx])
  ∧ expectedBlockNumber r.2 = expectedBlockNumber s
  ∧ (∀ x, x ∈ processedTransactions r.2 → x ∈ processedTransactions s ∨ x = h)
  ∧ match r.1 with
    | Return _ => True
    | Throw msg =>
        (h ∉ processedTransactions s)
        ∧ new_transaction_listener w (mkTransactionData tx "block") = Throw msg
    end.
Proof.
  cbv zeta. unfold processTransaction. simpl.
  case_bool_decide as Hin.
  - rewrite app_nil_r. split_and!; try done. by left.
  - cbv zeta.
    assert (∀ x, x ∈ processedTransactions s ++ [tx_hash tx] →
                 x ∈ processedTransactions s ∨ x = tx_hash tx) as Hp.
    { intros x Hx. apply elem_of_app in Hx as [Hx|Hx]; [by left|].
      apply list_elem_of_singleton in Hx. by right. }
    destruct (new_transaction_listener w (mkTransactionData tx "block"))
      as [[]|msg]; simpl; [|done].
    case_match; simpl; split_and!; try done.
    intros x Hx%elem_of_shift. by apply Hp.
Qed.

Lemma processTransactions_events w (txs : list BlockTransactionData) :
  ∀ s, let r := processTransactions w txs s in
    ∃ emitted,
      trace r.2 = trace s ++ (transaction_event (expectedBlockNumber s) <$> emitted)
      ∧ expectedBlockNumber r.2 = expectedBlockNumber s
      ∧ emitted `sublist_of` txs
      ∧ (∀ x, x ∈ processedTransactions r.2 →
              x ∈ processedTransactions s ∨ x ∈ tx_hash <$> txs)
      ∧ match r.1 with
        | Return _ =>
            ∀ i tx, txs !! i = Some tx →
                    tx_hash tx ∉ processedTransactions s →
                    tx_hash tx ∉ tx_hash <$> take i txs →
                    tx ∈ emitted
        | Throw msg =>
            ∃ tx, last emitted = Some tx
                  ∧ new_transaction_listener w (mkTransactionData tx "block")
                    = Throw msg
        end.
Proof.
  induction txs as [|tx txs IH]; intros s; cbv zeta.
  - exists []. simpl. rewrite app_nil_r. split_and!; try done. by left.
  - simpl.
    destruct (processTransaction_event w tx s) as (Ht1 & Hc1 & Hp1 & Hthrow1).
    cbv zeta in Ht1, Hc1, Hp1, Hthrow1.
    set (r1 := processTransaction w (mkTransactionData tx "block") s) in *.
    clearbody r1.
    destruct r1.1 as [[]|msg].
    2:{ destruct Hthrow1 as [Hfresh Hthrow].
        rewrite bool_decide_eq_false_2 in Ht1 by done.
        exists [tx]. cbn [fst snd]. split_and!; try done.
        - apply sublist_skip, sublist_nil_l.
        - intros x Hx. destruct (Hp1 x Hx) as [?| ->]; [by left|]. right. left.
        - by exists tx. }
    destruct (IH r1.2) as (emitted & Ht & Hc & Hsub & Hp & Hend).
    cbv zeta in Ht, Hc, Hend.
    set (r := processTransactions w txs r1.2) in *. clearbody r.
    rewrite Hc1 in Ht, Hc.
    assert (∀ x, x ∈ processedTransactions r.2 →
              x ∈ processedTransactions s ∨ x ∈ tx_hash <$> tx :: txs) as Hp'.
    { intros x Hx. destruct (Hp x Hx) as [Hx'|Hx']; [|right; by right].
      destruct (Hp1 x Hx') as [?| ->]; [by left|]. right. left. }
    case_bool_decide as Hin.
    + exists emitted. rewrite app_nil_r in Ht1. rewrite Ht, Ht1.
      split_and!; try done; [by apply sublist_cons|].
      destruct r.1 as [[]|msg]; [|done].
      intros [|i] tx' Hi Hfresh Hfirst; simpl in Hi.
      { injection Hi as <-. done. }
      apply (Hend i); [done| |].
      * intros Hx. destruct (Hp1 _ Hx) as [?|Heq]; [done|].
        apply Hfirst. simpl. rewrite Heq. left.
      * intros Hx. apply Hfirst. simpl. by right.
    + exists (tx :: emitted). rewrite Ht, Ht1, <- app_assoc.
      split_and!; try done; [by apply sublist_skip|].
      destruct r.1 as [[]|msg].
      * intros [|i] tx' Hi Hfresh Hfirst; simpl in Hi.
        { injection Hi as <-. left. }
        right. apply (Hend i); [done| |].
        -- intros Hx. destruct (Hp1 _ Hx) as [?|Heq]; [done|].
           apply Hfirst. simpl. rewrite Heq. left.
        -- intros Hx. apply Hfirst. simpl. by right.
      * destruct Hend as (tx' & Hlast & Hthrow). exists tx'. split; [|done].
        destruct emitted; [discriminate Hlast|done].
Qed.

(** X25.  What [processBlock] does with the transactions of a block.  The
    transactions are all those of the block, normalized, in the order of
    the block; a transaction listed by a hash that the provider cannot
    resolve is left out without an error.  The only events are
    [new_transaction] events for some of these transactions, in the same
    order and while the cursor is at the block.  When the call returns,
    the block data lists all the transactions, and every transaction whose
    hash is not among the recent ones, and is not the hash of an earlier
    transaction of the block, was announced.  The call throws only when a
    listener throws on the last transaction it announced. *)
Theorem processBlock_announces_its_transactions
    (w : World) (block : Block) (s : State) :
  let r := processBlock w block s in
  let txs := normalizeTransaction <$> full_transactions w block in
  (length txs
   <= match transactions block with
      | Hashes hashes => length hashes
      | Responses txs => length txs
      end)%nat
  ∧ expectedBlockNumber r.2 = expectedBlockNumber s
  ∧ ∃ emitted,
      since s r.2 = transaction_event (expectedBlockNumber s) <$> emitted
      ∧ emitted `sublist_of` txs
      ∧ match r.1 with
        | Return blockData =>
            blockData = blockData_of w block
            ∧ bd_transactions blockData = txs
            ∧ ∀ i tx, txs !! i = Some tx →
                tx_hash tx ∉ processedTransactions s →
                tx_hash tx ∉ tx_hash <$> take i txs →
                tx ∈ emitted
        | Throw msg =>
            ∃ tx, last emitted = Some tx
                  ∧ new_transaction_listener w (mkTransactionData tx "block")
                    = Throw msg
        end.
Proof.
  cbv zeta. split.
  { rewrite length_fmap. unfold full_transactions.
    destruct (transactions block) as [hashes|txs]; [|done].
    induction hashes as [|h hashes IH]; [done|]. simpl.
    unfold omap in IH.
    destruct (getTransaction w h) as [[tx|]|]; simpl; lia. }
  unfold processBlock. cbv zeta.
  destruct (processTransactions_events w
              (normalizeTransaction <$> full_transactions w block) s)
    as (emitted & Ht & Hc & Hsub & _ & Hend).
  cbv zeta in Ht, Hc, Hend.
  set (txs := normalizeTransaction <$> full_transactions w block) in *.
  assert (Hbd : ∀ bd, bd = blockData_of w block → bd_transactions bd = txs)
    by (by intros bd ->).
  set (r := processTransactions w txs s) in *. clearbody r.
  destruct r.1 as [[]|msg]; cbn [fst snd].
  2:{ split; [done|]. exists emitted. split_and!; try done.
      by apply since_app. }
  assert (∀ s'' : State, trace s'' = trace r.2 →
            expectedBlockNumber s'' = expectedBlockNumber r.2 →
            expectedBlockNumber s'' = expectedBlockNumber s
            ∧ ∃ emitted,
                since s s'' = transaction_event (expectedBlockNumber s) <$> emitted
                ∧ emitted `sublist_of` txs
                ∧ (blockData_of w block = blockData_of w block
                   ∧ bd_transactions (blockData_of w block) = txs
                   ∧ ∀ i tx, txs !! i = Some tx →
                       tx_hash tx ∉ processedTransactions s →
                       tx_hash tx ∉ tx_hash <$> take i txs → tx ∈ emitted))
    as Hgo.
  { intros s'' Ht'' Hc''. split; [congruence|]. exists emitted.
    split_and!; try done; try (by apply Hbd). apply since_app. congruence. }
  change (mkBlockData "READER" (number block) (hash block) (timestamp block)
            txs) with (blockData_of w block).
  case_bool_decide; [by apply Hgo|]. cbv zeta. case_match; by apply Hgo.
Qed.

Lemma processBlock_announces_its_transactions_example :
  (processBlock Chains.knows_two Chains.listed (init None)).1
  = Return
      (mkBlockData "READER" 8 (Some "0xabc") 1700000000
         (normalizeTransaction
          <$> [mkRawTx (Some "0x1") (Some 8) None (Some "0xfrom") (Some 4) None;
               mkRawTx (Some "0x3") (Some 8) None (Some "0xfrom") (Some 4)
                 None]))
  ∧ (length (normalizeTransaction
             <$> full_transactions Chains.knows_two Chains.listed) <= 3)%nat
  ∧ length (since (init None)
              (processBlock Chains.knows_two Chains.listed (init None)).2)
    = 2%nat
  ∧ (processBlock Chains.chokes_on_the_third Chains.listed (init None)).1
    = Throw "the listener failed"
  ∧ length (since (init None)
              (processBlock Chains.chokes_on_the_third Chains.listed
                 (init None)).2)
    = 2%nat.
Proof.
  destruct (processBlock_announces_its_transactions Chains.knows_two
              Chains.listed (init None)) as (Hlen & _).
  split; [vm_compute; reflexivity|]. split; [exact Hlen|].
  split_and!; vm_compute; reflexivity.
Defined.

End Transactions.
(** * Further properties of the reader: the status of a transaction *)

Section Transaction_status.
Import Provider Session Status.

(** X24.  Over the fan-out provider, [checkTransactionStatus] answers
    [true] exactly when the first endpoint, in the configured order, whose
    receipt counts reports the status 1.  Every other outcome is [false]
    and nothing is thrown: a receipt with another status, the endpoints
    disagreeing with a later one reporting 1, and every endpoint
    failing. *)
Theorem checkTransactionStatus_over_the_provider
    (this : Provider.t) (task : nat → Call Value) :
  checkTransactionStatus (waitForTransaction this task) = true
  ↔ ∃ i e receipt,
      _providers this !! i = Some e
      ∧ settled this task (Some has_status) e = receipt
      ∧ receipt ≠ VNull
      ∧ (∀ j e', (j < i)%nat → _providers this !! j = Some e' →
                 settled this task (Some has_status) e' = VNull)
      ∧ prop receipt "status" = VNumber 1.
Proof.
  assert (∀ v, is_number 1 v = true ↔ v = VNumber 1) as Hone.
  { intros v. destruct v; simpl; try (split; [discriminate|by intros [=]]).
    rewrite Z.eqb_eq. split; [by intros ->|by intros [=]]. }
  unfold checkTransactionStatus, waitForTransaction.
  destruct (_executeParallel_cases this task (Some has_status))
    as [[-> Hwhy]|(i & r & -> & Hi & Hr & Ht & Hb)].
  - split; [discriminate|]. intros (i & e & receipt & He & Hs & Hnn & Hbefore & Hst).
    assert ((settled this task (Some has_status) <$> _providers this) !! i
            = Some receipt) as Hi
      by (rewrite list_lookup_fmap, He; simpl; by rewrite Hs).
    assert (truthy receipt = true) as Htruthy.
    { destruct receipt; try done; discriminate Hst. }
    destruct Hwhy as [Hall|(k & r & Hk & Hr & Hf & Hb)].
    + destruct Hnn. apply Hall. by eapply list_elem_of_lookup_2.
    + destruct (Nat.lt_trichotomy i k) as [Hlt|[->|Hlt]].
      * destruct Hnn. by apply (Hb i).
      * congruence.
      * destruct Hr. apply list_lookup_fmap_Some in Hk as (e' & -> & He').
        by apply (Hbefore k).
  - rewrite Ht, Hone.
    apply list_lookup_fmap_Some in Hi as (e & Hs & He).
    split.
    + intros Hst. exists i, e, r. split_and!; try done.
      intros j e' Hj He'. apply (Hb j); [done|].
      by rewrite list_lookup_fmap, He'.
    + intros (k & e' & receipt & He' & Hs' & Hnn & Hbefore & Hst).
      destruct (Nat.lt_trichotomy i k) as [Hlt|[->|Hlt]].
      * destruct Hr. rewrite Hs. by apply (Hbefore i).
      * congruence.
      * destruct Hnn. apply (Hb k); [done|].
        rewrite list_lookup_fmap, He'. simpl. by rewrite Hs'.
Qed.

Lemma checkTransactionStatus_over_the_provider_example :
  checkTransactionStatus
    (waitForTransaction (provider_at 2 0) (answers_of [succeeded; reverted]))
  = true
  ∧ checkTransactionStatus
      (waitForTransaction (provider_at 2 0) (answers_of [reverted; succeeded]))
    = false
  ∧ checkTransactionStatus (waitForTransaction (provider_at 2 0) all_reject)
    = false.
Proof.
  split; [|split; vm_compute; reflexivity].
  apply (checkTransactionStatus_over_the_provider (provider_at 2 0)
           (answers_of [succeeded; reverted])).
  exists 0%nat, (mkProviderEntry "https://node0" 0), succeeded.
  split_and!; [reflexivity|reflexivity|discriminate| |reflexivity].
  intros j e' Hj. lia.
Defined.

End Transaction_status.

